(** * yo-dem-analysis: the summit merge engine and the topo25 reconcilers

    A shallow embedding of [merge_landserf.py] (class [MergeSummitLayers]),
    [topo_match.py] (spatial reconciliation) and [topo_match_m.py]
    (key reconciliation), with the properties of the matching, grouping,
    aggregation, ranking and reconciliation steps. *)

From Stdlib Require Import ZArith QArith String Ascii DecimalString DecimalNat.
From stdpp Require Import base decidable option list sorting relations
  gmap fin_sets strings.

Local Open Scope string_scope.
Local Open Scope list_scope.
Local Open Scope nat_scope.

(** ** Python containers *)

(** Iteration over a Python [set] visits every element once, in an order
    the language leaves to the implementation. *)
Class PySet := {
  set_iter : ∀ {A} `{Countable A}, gset A → list A;
  set_iter_perm : ∀ {A} `{Countable A} (X : gset A), set_iter X ≡ₚ elements X
}.

#[export] Instance elements_PySet : PySet :=
  {| set_iter := λ A _ _ X, elements X;
     set_iter_perm := λ A _ _ X, reflexivity (elements X) |}.

(** [sorted(l)] on integers. *)
Definition sorted_nat (l : list nat) : list nat := merge_sort (≤) l.

(** ** Python exceptions *)

Inductive exn : Type :=
  | QgsProcessingException (msg : string)
  | KeyError
  | IndexError
  | ValueError
  | TypeError
  | AttributeError
  | ZeroDivisionError
  | UnboundLocalError.

Inductive result (A : Type) : Type :=
  | Ok (a : A)
  | Raise (e : exn).
Arguments Ok {A} a.
Arguments Raise {A} e.

#[export] Instance result_ret : MRet result := λ A a, Ok a.
#[export] Instance result_bind : MBind result := λ A B f m,
  match m with
  | Ok a => f a
  | Raise e => Raise e
  end.

(** [d[k]] on a dict and [l[i]] on a list. *)
Definition getitem `{Countable K} {V} (d : gmap K V) (k : K) : result V :=
  match d !! k with
  | Some v => Ok v
  | None => Raise KeyError
  end.

Definition getindex {A} (l : list A) (i : nat) : result A :=
  match l !! i with
  | Some v => Ok v
  | None => Raise IndexError
  end.

(** A view of the features a run returns. *)
Definition result_map {A B} (f : A → B) (m : result (list A))
    : result (list B) :=
  match m with
  | Ok l => Ok (f <$> l)
  | Raise e => Raise e
  end.
Infix "<$$>" := result_map (at level 61, left associativity).

(** [[f(x) for x in l]] where [f] may raise. *)
Fixpoint mapR {A B} (f : A → result B) (l : list A) : result (list B) :=
  match l with
  | [] => Ok []
  | x :: l' => y ← f x; ys ← mapR f l'; Ok (y :: ys)
  end.

Lemma mapR_Ok {A B} (f : A → result B) l out :
  mapR f l = Ok out ↔ Forall2 (λ x y, f x = Ok y) l out.
Proof.
  revert out. induction l as [|x l IH]; intros out; simpl.
  - split; [intros [= <-]; constructor | by inversion 1].
  - destruct (f x) as [y|e] eqn:Hfx; simpl.
    + destruct (mapR f l) as [ys|e] eqn:Hl; simpl.
      * split.
        -- intros [= <-]. constructor; [done | by apply IH].
        -- inversion 1 as [|? y' ? ys' Hy Hys]; subst.
           apply IH in Hys. congruence.
      * split; [done |].
        inversion 1 as [|? y' ? ys' Hy Hys]; subst. by apply IH in Hys.
    + split; [done |]. inversion 1; congruence.
Qed.

Lemma mapR_Forall {A B} (f : A → result B) (P : B → Prop) l :
  Forall (λ x, ∃ y, f x = Ok y ∧ P y) l →
  ∃ out, mapR f l = Ok out ∧ Forall P out ∧ length out = length l.
Proof.
  induction 1 as [|x l (y & Hy & HP) _ (out & Hout & HPs & Hlen)]; simpl.
  - by exists [].
  - exists (y :: out). rewrite Hy, Hout. simpl. split_and!; [done | | lia].
    by constructor.
Qed.

(** ** The host *)

(** The host's feedback object: the answers the successive calls of
    [feedback.isCanceled()] give; after the last one the answer is no. *)
Definition feedback : Type := list bool.

Definition isCanceled (fb : feedback) : bool * feedback :=
  match fb with
  | [] => (false, [])
  | b :: fb' => (b, fb')
  end.

(** The host never asks to stop. *)
Definition never_canceled (fb : feedback) : Prop := Forall (λ b, b = false) fb.

Lemma isCanceled_never fb :
  never_canceled fb → ∃ fb', isCanceled fb = (false, fb') ∧ never_canceled fb'.
Proof.
  intros Hfb. destruct fb as [|b fb]; simpl.
  - by exists [].
  - apply Forall_cons in Hfb as [-> Hfb]. by exists fb.
Qed.

(** ** Python strings (ASCII) *)

Module Str.

Definition is_digit (a : ascii) : bool :=
  (48 <=? nat_of_ascii a) && (nat_of_ascii a <=? 57).

(** [s.isdecimal()] *)
Fixpoint all_digits (s : string) : bool :=
  match s with
  | EmptyString => true
  | String a s' => is_digit a && all_digits s'
  end.

Definition isdecimal (s : string) : bool :=
  match s with
  | EmptyString => false
  | _ => all_digits s
  end.

(** [f'{n}'] *)
Definition of_nat (n : nat) : string :=
  DecimalString.NilEmpty.string_of_uint (Nat.to_uint n).

(** [int(s)] on a string of decimal digits; anything else is a
    [ValueError]. *)
Definition to_nat (s : string) : result nat :=
  match s with
  | EmptyString => Raise ValueError
  | _ =>
    match DecimalString.NilEmpty.uint_of_string s with
    | Some d => Ok (Nat.of_uint d)
    | None => Raise ValueError
    end
  end.

(** [sep.join(l)] *)
Fixpoint join (sep : string) (l : list string) : string :=
  match l with
  | [] => ""
  | [x] => x
  | x :: l' => x +:+ sep +:+ join sep l'
  end.

(** [s.split(sep)] for a one-character separator; [cur] holds the
    characters of the current piece. *)
Fixpoint split_go (sep : ascii) (cur : string) (s : string) : list string :=
  match s with
  | EmptyString => [cur]
  | String a s' =>
    if Ascii.eqb a sep then cur :: split_go sep "" s'
    else split_go sep (cur +:+ String a "") s'
  end.

Definition split (sep : ascii) (s : string) : list string :=
  split_go sep "" s.

(** [s.upper()] *)
Definition upper_char (a : ascii) : ascii :=
  let n := nat_of_ascii a in
  if (97 <=? n) && (n <=? 122) then ascii_of_nat (n - 32) else a.

Fixpoint upper (s : string) : string :=
  match s with
  | EmptyString => ""
  | String a s' => String (upper_char a) (upper s')
  end.

(** [text.startswith(pat)] *)
Fixpoint startswith (pat text : string) : bool :=
  match pat, text with
  | EmptyString, _ => true
  | String a p, String b t => Ascii.eqb a b && startswith p t
  | String _ _, EmptyString => false
  end.

(** [pat in text] *)
Fixpoint contains (pat text : string) : bool :=
  startswith pat text ||
  match text with
  | EmptyString => false
  | String _ t => contains pat t
  end.

(** [f'{n:04}'] : at least four digits, padded with zeros on the left. *)
Definition pad04 (n : nat) : string :=
  let d := of_nat n in
  String.concat "" (replicate (4 - String.length d) "0") +:+ d.

(** Truth value of a string attribute: NULL and [''] are false. *)
Definition truthy (v : option string) : bool :=
  match v with
  | None | Some EmptyString => false
  | Some _ => true
  end.

End Str.

Module StrFacts.
Import Str.

(** [a] does not occur in [s]. *)
Fixpoint no_char (a : ascii) (s : string) : Prop :=
  match s with
  | EmptyString => True
  | String b s' => b ≠ a ∧ no_char a s'
  end.

Lemma app_cons a (s t : string) : String a s +:+ t = String a (s +:+ t).
Proof. done. Qed.

Lemma app_nil_r (s : string) : s +:+ "" = s.
Proof. induction s as [|a s IH]; [done | by rewrite app_cons, IH]. Qed.

Lemma app_assoc (s t u : string) : (s +:+ t) +:+ u = s +:+ (t +:+ u).
Proof. induction s as [|a s IH]; [done | by rewrite !app_cons, IH]. Qed.

Lemma no_char_app a s t : no_char a s → no_char a t → no_char a (s +:+ t).
Proof.
  induction s as [|b s IH]; [done |].
  rewrite app_cons. simpl. intros [??] ?. auto.
Qed.

Lemma split_go_app sep cur t s :
  no_char sep t → split_go sep cur (t +:+ s) = split_go sep (cur +:+ t) s.
Proof.
  revert cur. induction t as [|b t IH]; intros cur.
  - intros _. by rewrite app_nil_r.
  - intros [Hb Ht].
    rewrite app_cons. cbn [split_go].
    rewrite (proj2 (Ascii.eqb_neq b sep) Hb), IH by done.
    by rewrite app_assoc.
Qed.

(** Splitting what was joined gives the pieces back, when no piece holds
    the separator. *)
Lemma split_join sep l :
  l ≠ [] → Forall (no_char sep) l →
  split sep (join (String sep "") l) = l.
Proof.
  intros Hne Hl. unfold split.
  induction Hl as [|x l Hx Hl IH]; [done |]. clear Hne.
  destruct l as [|y l].
  - simpl. rewrite <- (app_nil_r x) at 1.
    rewrite split_go_app by done. reflexivity.
  - change (join (String sep "") (x :: y :: l))
      with (x +:+ String sep "" +:+ join (String sep "") (y :: l)).
    rewrite split_go_app by done.
    change (String sep "" +:+ join (String sep "") (y :: l))
      with (String sep (join (String sep "") (y :: l))).
    cbn [split_go]. rewrite Ascii.eqb_refl, IH by done. reflexivity.
Qed.

Lemma all_digits_no_char a s :
  is_digit a = false → all_digits s = true → no_char a s.
Proof.
  intros Ha. induction s as [|b s IH]; simpl; [done |].
  intros [Hb Hs]%andb_true_iff. split; [congruence | auto].
Qed.

Lemma all_digits_string_of_uint d :
  all_digits (DecimalString.NilEmpty.string_of_uint d) = true.
Proof. induction d; simpl; auto. Qed.

Lemma all_digits_of_nat n : all_digits (of_nat n) = true.
Proof. apply all_digits_string_of_uint. Qed.

Lemma to_uint_nonnil n : Nat.to_uint n ≠ Decimal.Nil.
Proof.
  rewrite <- (DecimalNat.Unsigned.of_to n) at 1.
  rewrite DecimalNat.Unsigned.to_of. apply DecimalFacts.unorm_nonnil.
Qed.

(** [int(f'{n}') == n] *)
Lemma to_nat_of_nat n : to_nat (of_nat n) = Ok n.
Proof.
  unfold to_nat, of_nat.
  destruct (DecimalString.NilEmpty.string_of_uint (Nat.to_uint n)) eqn:Hs.
  - exfalso. apply (to_uint_nonnil n).
    destruct (Nat.to_uint n); simpl in Hs; congruence.
  - rewrite <- Hs, DecimalString.NilEmpty.usu.
    by rewrite DecimalNat.Unsigned.of_to.
Qed.

Lemma uint_of_char_digit a d :
  is_digit a = true → ∃ d', DecimalString.uint_of_char a (Some d) = Some d'.
Proof.
  destruct a as [[|] [|] [|] [|] [|] [|] [|] [|]];
    first [discriminate | intros _; simpl; eauto].
Qed.

Lemma all_digits_uint_of_string s :
  all_digits s = true →
  ∃ d, DecimalString.NilEmpty.uint_of_string s = Some d.
Proof.
  induction s as [|a s IH]; simpl; [eauto |].
  intros [Ha Hs]%andb_true_iff. destruct (IH Hs) as [d ->].
  by apply uint_of_char_digit.
Qed.

(** [int(s)] succeeds on a string for which [s.isdecimal()] holds. *)
Lemma isdecimal_to_nat s : isdecimal s = true → ∃ n, to_nat s = Ok n.
Proof.
  unfold isdecimal, to_nat. destruct s as [|a s]; [done |].
  intros [d ->]%all_digits_uint_of_string. eauto.
Qed.

Lemma all_digits_app s t :
  all_digits s = true → all_digits t = true → all_digits (s +:+ t) = true.
Proof.
  induction s as [|a s IH]; [done |].
  rewrite app_cons. simpl. intros [-> ?]%andb_true_iff ?. simpl. auto.
Qed.

Lemma all_digits_zeros k :
  all_digits (String.concat "" (replicate k "0")) = true.
Proof.
  induction k as [|k IH]; [done |].
  destruct k; [done |]. simpl in *. exact IH.
Qed.

Lemma all_digits_pad04 n : all_digits (pad04 n) = true.
Proof.
  unfold pad04. apply all_digits_app.
  - apply all_digits_zeros.
  - apply all_digits_of_nat.
Qed.

End StrFacts.

(** Truth value of an integer attribute: NULL and [0] are false. *)
Definition truthyZ (v : option Z) : bool :=
  match v with
  | None | Some 0%Z => false
  | Some _ => true
  end.

(** ** Stable sorting

    [sorted] and [list.sort] are stable: [sorted_by le l] is the one
    rearrangement of [l] that is ordered by [le] and keeps elements that
    [le] relates both ways in their order in [l]. *)

Section stable_sort.
Context {A : Type} (le : A → A → bool).

Fixpoint insert_by (x : A) (l : list A) : list A :=
  match l with
  | [] => [x]
  | y :: l' => if le x y then x :: l else y :: insert_by x l'
  end.

Definition sorted_by (l : list A) : list A := foldr insert_by [] l.

Lemma insert_by_perm x l : insert_by x l ≡ₚ x :: l.
Proof.
  induction l as [|y l IH]; simpl; [done |].
  destruct (le x y); [done |]. rewrite IH. apply Permutation_swap.
Qed.

Lemma sorted_by_perm l : sorted_by l ≡ₚ l.
Proof.
  induction l as [|x l IH]; simpl; [done |].
  by rewrite insert_by_perm, IH.
Qed.

Lemma length_sorted_by l : length (sorted_by l) = length l.
Proof. by rewrite sorted_by_perm. Qed.

(** With [R] the strict order "comes first" (by key, then by original
    position), inserting an element that precedes every equal-key element
    keeps the list ordered. *)
Lemma insert_by_sorted (R : relation A) x l :
  Transitive R →
  (∀ y, y ∈ l → if le x y then R x y else R y x) →
  StronglySorted R l → StronglySorted R (insert_by x l).
Proof.
  intros HR Hx Hs. induction Hs as [|y l Hs IH Hy]; simpl.
  - repeat constructor.
  - pose proof (Hx y ltac:(by left)) as Hxy.
    destruct (le x y).
    + constructor; [by constructor |].
      constructor; [done |].
      eapply Forall_impl; [exact Hy |]. intros z Hz. by trans y.
    + constructor.
      * apply IH. intros z Hz. apply Hx. by right.
      * rewrite insert_by_perm. by constructor.
Qed.
End stable_sort.

Lemma StronglySorted_lookup {A} (R : relation A) l p q x y :
  StronglySorted R l → l !! p = Some x → l !! q = Some y → p < q → R x y.
Proof.
  intros Hs. revert p q. induction Hs as [|z l Hs IH Hz]; intros p q Hp Hq Hpq.
  - by rewrite lookup_nil in Hp.
  - destruct q as [|q]; [lia |]. destruct p as [|p]; simpl in *.
    + simplify_eq. rewrite Forall_forall in Hz. apply Hz.
      by eapply list_elem_of_lookup_2.
    + apply (IH p q); [done | done | lia].
Qed.

(** ** merge_landserf.py: neighbourhood chaining (lines 278-290) *)

Module GroupBuilder.
Section chaining.
Context `{PySet}.

(** [tuple(sorted(m))] *)
Definition sorted_tuple (m : gset nat) : list nat := sorted_nat (set_iter m).

(** [m = set(x for x in s if x in c)] *)
Definition mutual (s c : list nat) : gset nat :=
  list_to_set (filter (λ x, x ∈ c) s).

(** [m |= set(item for x in m if x in dmatch for item in dmatch[x])] *)
Definition absorb (dmatch : gmap nat (list nat)) (m : gset nat) : gset nat :=
  m ∪ list_to_set (x ← set_iter m; default [] (dmatch !! x)).

(** [for x in m: dmatch[x] = tuple(sorted(m))] *)
Definition assign (dmatch : gmap nat (list nat)) (m : gset nat)
    : gmap nat (list nat) :=
  foldr (λ x d, <[x := sorted_tuple m]> d) dmatch (set_iter m).

(** The [dmatch] part of one iteration of the loop. *)
Definition chain (dmatch : gmap nat (list nat)) (s c : list nat)
    : gmap nat (list nat) :=
  assign dmatch (absorb dmatch (mutual s c)).

(** The loop run over the records in the order [order], where [sq i] and
    [cq i] are the two query results of record [i]. *)
Definition chain_all (sq cq : nat → list nat) (order : list nat)
    : gmap nat (list nat) :=
  foldl (λ d i, chain d (sq i) (cq i)) ∅ order.

(** [dm = set(dmatch.values())] *)
Definition groups (dmatch : gmap nat (list nat)) : gset (list nat) :=
  list_to_set (map_to_list dmatch).*2.

Lemma elem_of_set_iter `{Countable A} (X : gset A) x :
  x ∈ set_iter X ↔ x ∈ X.
Proof. rewrite set_iter_perm. apply elem_of_elements. Qed.

Lemma NoDup_set_iter `{Countable A} (X : gset A) : NoDup (set_iter X).
Proof. rewrite set_iter_perm. apply NoDup_elements. Qed.

Lemma elem_of_sorted_nat l x : x ∈ sorted_nat l ↔ x ∈ l.
Proof. unfold sorted_nat. by rewrite merge_sort_Permutation. Qed.

Lemma elem_of_sorted_tuple m x : x ∈ sorted_tuple m ↔ x ∈ m.
Proof.
  unfold sorted_tuple. by rewrite elem_of_sorted_nat, elem_of_set_iter.
Qed.

Lemma sorted_tuple_inj m1 m2 : sorted_tuple m1 = sorted_tuple m2 → m1 = m2.
Proof.
  intros Heq. apply set_eq. intros x.
  by rewrite <- !elem_of_sorted_tuple, Heq.
Qed.

Lemma elem_of_mutual s c x : x ∈ mutual s c ↔ x ∈ s ∧ x ∈ c.
Proof.
  unfold mutual. rewrite elem_of_list_to_set, list_elem_of_filter. tauto.
Qed.

Lemma elem_of_absorb dmatch m y :
  y ∈ absorb dmatch m ↔
  y ∈ m ∨ ∃ x g, x ∈ m ∧ dmatch !! x = Some g ∧ y ∈ g.
Proof.
  unfold absorb.
  rewrite elem_of_union, elem_of_list_to_set, list_elem_of_bind.
  split; (intros [Hm | Hg]; [by left | right]).
  - destruct Hg as (x & Hy & Hx). apply elem_of_set_iter in Hx.
    destruct (dmatch !! x) as [g|] eqn:Hd; simpl in Hy.
    + by exists x, g.
    + by apply elem_of_nil in Hy.
  - destruct Hg as (x & g & Hx & Hd & Hy). exists x. split.
    + by rewrite Hd.
    + by apply elem_of_set_iter.
Qed.

Lemma lookup_assign_list (d : gmap nat (list nat)) t l y :
  foldr (λ x d, <[x := t]> d) d l !! y
  = if decide (y ∈ l) then Some t else d !! y.
Proof.
  induction l as [|x l IH]; simpl.
  - destruct (decide (y ∈ [])) as [Hin | Hin];
      [by apply elem_of_nil in Hin | done].
  - rewrite lookup_insert. destruct (decide (x = y)) as [Hxy | Hxy].
    + subst. rewrite decide_True; [done | apply elem_of_cons; by left].
    + rewrite IH. destruct (decide (y ∈ l)) as [Hl | Hl].
      * rewrite decide_True; [done | apply elem_of_cons; by right].
      * rewrite decide_False; [done |].
        intros [Heq | Hin]%elem_of_cons; [by subst | done].
Qed.

Lemma lookup_assign dmatch m y :
  assign dmatch m !! y
  = if decide (y ∈ m) then Some (sorted_tuple m) else dmatch !! y.
Proof.
  unfold assign. rewrite lookup_assign_list.
  destruct (decide (y ∈ set_iter m)) as [Hl | Hl];
    rewrite elem_of_set_iter in Hl.
  - by rewrite decide_True.
  - by rewrite decide_False.
Qed.
(** *** The chaining invariant

    [E] lists the mutual-match sets processed so far.  Two records are
    adjacent when one of these sets holds both; [conn] is the equivalence
    this generates. *)
Definition adj (E : list (gset nat)) (x y : nat) : Prop :=
  ∃ e, e ∈ E ∧ x ∈ e ∧ y ∈ e.

Definition conn (E : list (gset nat)) : relation nat := rtsc (adj E).

Record chained (E : list (gset nat)) (d : gmap nat (list nat)) : Prop := {
  chained_self x g : d !! x = Some g → x ∈ g;
  chained_closed x g y : d !! x = Some g → y ∈ g → d !! y = Some g;
  chained_sound x g y : d !! x = Some g → y ∈ g → conn E x y;
  chained_complete x y : adj E x y → ∃ g, d !! x = Some g ∧ y ∈ g;
  chained_covered x g : d !! x = Some g → ∃ e, e ∈ E ∧ x ∈ e;
  chained_tuple x g : d !! x = Some g → ∃ m, g = sorted_tuple m
}.
Arguments chained_self {E d} _ _ _ _.
Arguments chained_closed {E d} _ _ _ _ _ _.
Arguments chained_sound {E d} _ _ _ _ _ _.
Arguments chained_complete {E d} _ _ _ _.
Arguments chained_covered {E d} _ _ _ _.
Arguments chained_tuple {E d} _ _ _ _.

Lemma adj_sym E x y : adj E x y → adj E y x.
Proof. intros (e & ? & ? & ?). by exists e. Qed.

Lemma adj_mono E E' x y :
  (∀ e, e ∈ E → e ∈ E') → adj E x y → adj E' x y.
Proof. intros Hsub (e & ? & ? & ?). exists e. auto. Qed.

Lemma conn_mono E E' x y :
  (∀ e, e ∈ E → e ∈ E') → conn E x y → conn E' x y.
Proof.
  intros Hsub. apply (rtsc_congruence id (adj E')).
  intros ??. by apply adj_mono.
Qed.

Lemma conn_adj E x y : adj E x y → conn E x y.
Proof. apply rtsc_lr. Qed.

Lemma chained_proper E E' d :
  (∀ e, e ∈ E ↔ e ∈ E') → chained E d → chained E' d.
Proof.
  intros Heq [H1 H2 H3 H4 H5 H6]. split; auto.
  - intros x g y Hx Hy. eapply conn_mono; [apply Heq | eauto].
  - intros x y Ha. apply H4. eapply adj_mono; [apply Heq | done].
  - intros x g Hx. destruct (H5 x g Hx) as (e & He & Hxe).
    exists e. split; [by apply Heq | done].
Qed.

Lemma chained_empty : chained [] ∅.
Proof.
  split; try (intros x g; rewrite lookup_empty; discriminate).
  intros x y (e & He & _). by apply elem_of_nil in He.
Qed.

(** Whatever group meets the absorbed set lies inside it. *)
Lemma absorb_closed E d b x g y :
  chained E d → x ∈ absorb d b → d !! x = Some g → y ∈ g →
  y ∈ absorb d b.
Proof.
  intros Hc Hx Hd Hy. apply elem_of_absorb. right.
  apply elem_of_absorb in Hx as [Hb | (x' & g' & Hb & Hd' & Hx')].
  - by exists x, g.
  - exists x', g'. split_and!; [done | done |].
    pose proof (chained_closed Hc _ _ _ Hd' Hx') as Hd2.
    by simplify_eq.
Qed.

(** Every member of the absorbed set is connected to a mutual match. *)
Lemma absorb_conn E d b z :
  chained E d → z ∈ absorb d b → ∃ x, x ∈ b ∧ conn E x z.
Proof.
  intros Hc [Hb | (x & g & Hb & Hd & Hz)]%elem_of_absorb.
  - exists z. split; [done | reflexivity].
  - exists x. split; [done |]. by eapply (chained_sound Hc).
Qed.

Lemma chained_chain E d s c :
  chained E d → chained (mutual s c :: E) (chain d s c).
Proof.
  intros Hc. set (b := mutual s c). set (m := absorb d b).
  assert (Hsub : ∀ e, e ∈ E → e ∈ b :: E) by (intros; by right).
  assert (Hb : ∀ x y, x ∈ b → y ∈ b → conn (b :: E) x y).
  { intros x y Hx Hy. apply conn_adj. exists b. split_and!; [left | |]; done. }
  unfold chain. fold b m. split.
  - intros x g. rewrite lookup_assign. case_decide as Hx.
    + intros [= <-]. by apply elem_of_sorted_tuple.
    + by apply (chained_self Hc).
  - intros x g y. rewrite !lookup_assign. case_decide as Hx.
    + intros [= <-] Hy%elem_of_sorted_tuple. by rewrite decide_True.
    + intros Hd Hy. rewrite decide_False.
      * by eapply (chained_closed Hc).
      * intros Hym. apply Hx.
        eapply (absorb_closed E d b y g x); eauto.
        -- by eapply (chained_closed Hc).
        -- by eapply (chained_self Hc).
  - intros x g y. rewrite lookup_assign. case_decide as Hx.
    + intros [= <-] Hy%elem_of_sorted_tuple.
      destruct (absorb_conn E d b x Hc Hx) as (x' & Hx' & Hcx).
      destruct (absorb_conn E d b y Hc Hy) as (y' & Hy' & Hcy).
      etrans; [symmetry; eapply conn_mono; eauto |].
      etrans; [apply (Hb x' y'); done |].
      eapply conn_mono; eauto.
    + intros Hd Hy. eapply conn_mono; [done |]. by eapply (chained_sound Hc).
  - intros x y (e & He & Hxe & Hye). rewrite lookup_assign.
    apply elem_of_cons in He as [-> | He].
    + assert (x ∈ m) by (apply elem_of_absorb; by left).
      assert (y ∈ m) by (apply elem_of_absorb; by left).
      rewrite decide_True by done. eexists. split; [done |].
      by apply elem_of_sorted_tuple.
    + destruct (chained_complete Hc x y) as (g & Hd & Hy).
      { by exists e. }
      case_decide as Hx.
      * eexists. split; [done |]. apply elem_of_sorted_tuple.
        by eapply absorb_closed.
      * by exists g.
  - intros x g. rewrite lookup_assign. case_decide as Hx.
    + intros _.
      apply elem_of_absorb in Hx as [Hxb | (x' & g' & Hx' & Hd' & Hxg)].
      * exists b. split; [left | done].
      * pose proof (chained_closed Hc _ _ _ Hd' Hxg) as Hdx.
        destruct (chained_covered Hc _ _ Hdx) as (e & He & Hxe).
        exists e. split; [by right | done].
    + intros Hd. destruct (chained_covered Hc _ _ Hd) as (e & He & Hxe).
      exists e. split; [by right | done].
  - intros x g. rewrite lookup_assign. case_decide as Hx.
    + intros [= <-]. by exists m.
    + by apply (chained_tuple Hc).
Qed.

(** The mutual-match sets of the records in [order]. *)
Definition bases (sq cq : nat → list nat) (order : list nat)
    : list (gset nat) :=
  (λ i, mutual (sq i) (cq i)) <$> order.

Lemma chained_chain_all sq cq order :
  chained (bases sq cq order) (chain_all sq cq order).
Proof.
  unfold chain_all, bases.
  induction order as [|i order IH] using rev_ind.
  - apply chained_empty.
  - rewrite foldl_app, fmap_app. simpl.
    eapply chained_proper; [| apply chained_chain, IH].
    intros e. rewrite elem_of_cons, elem_of_app, list_elem_of_singleton.
    tauto.
Qed.

(** A chained table is determined by the set of mutual-match sets, not by
    the order in which they were folded in. *)
Lemma chained_member E d x g y :
  chained E d → d !! x = Some g → (y ∈ g ↔ conn E x y).
Proof.
  intros Hc Hd. split; [by eapply chained_sound |].
  intros Hxy. revert g Hd. unfold conn, rtsc in Hxy.
  induction Hxy as [x | x z y Hxz _ IH]; intros g Hd.
  - by eapply (chained_self Hc).
  - assert (Ha : adj E x z) by (destruct Hxz; [done | by apply adj_sym]).
    destruct (chained_complete Hc _ _ Ha) as (g' & Hd' & Hz).
    simplify_eq. apply IH. by eapply (chained_closed Hc).
Qed.

Lemma chained_unique E E' d d' :
  (∀ e, e ∈ E ↔ e ∈ E') → chained E d → chained E' d' → d = d'.
Proof.
  intros Heq Hc Hc'%(chained_proper E' E); [| by symmetry].
  apply map_eq. intros x.
  destruct (d !! x) as [g|] eqn:Hd, (d' !! x) as [g'|] eqn:Hd'; [| | | done].
  - destruct (chained_tuple Hc _ _ Hd) as (m & ->).
    destruct (chained_tuple Hc' _ _ Hd') as (m' & ->).
    f_equal. f_equal. apply set_eq. intros y.
    rewrite <- !elem_of_sorted_tuple.
    by rewrite (chained_member E d x _ y Hc Hd),
      (chained_member E d' x _ y Hc' Hd').
  - destruct (chained_covered Hc _ _ Hd) as (e & He & Hxe).
    destruct (chained_complete Hc' x x) as (g' & Hg' & _);
      [by exists e | congruence].
  - destruct (chained_covered Hc' _ _ Hd') as (e & He & Hxe).
    destruct (chained_complete Hc x x) as (g & Hg & _);
      [by exists e | congruence].
Qed.

Lemma elem_of_groups d g : g ∈ groups d ↔ ∃ x, d !! x = Some g.
Proof.
  unfold groups. rewrite elem_of_list_to_set, list_elem_of_fmap. split.
  - intros ([x g'] & -> & Hin). exists x. by apply elem_of_map_to_list.
  - intros (x & Hx). exists (x, g). split; [done |].
    by apply elem_of_map_to_list.
Qed.
End chaining.

(** *** A union-find, for comparison

    The classic structure the chaining is measured against: [r] gives the
    representative of every element, and [union r x y] moves the class of
    [y] under the representative of [x]. *)
Definition union (r : nat → nat) (x y : nat) : nat → nat :=
  λ z, if decide (r z = r y) then r x else r z.

Definition union_all (pairs : list (nat * nat)) : nat → nat :=
  foldl (λ r p, union r p.1 p.2) id pairs.

(** The equivalence the pairs generate. *)
Definition linked (pairs : list (nat * nat)) : relation nat :=
  rtsc (λ a b, (a, b) ∈ pairs).

Lemma linked_mono pairs pairs' x y :
  (∀ p, p ∈ pairs → p ∈ pairs') → linked pairs x y → linked pairs' x y.
Proof.
  intros Hsub. apply (rtsc_congruence id). intros a b. apply Hsub.
Qed.

(** Two elements have the same representative exactly when the pairs link
    them. *)
Lemma union_all_linked pairs x y :
  union_all pairs x = union_all pairs y ↔ linked pairs x y.
Proof.
  unfold union_all. revert x y.
  induction pairs as [|[p q] pairs IH] using rev_ind; intros x y.
  - simpl. split; [by intros -> |].
    induction 1 as [|a b c [Hab | Hab] _ _]; [done | |];
      by apply elem_of_nil in Hab.
  - rewrite foldl_app. simpl.
    set (r := foldl (λ r p, union r p.1 p.2) id pairs) in *.
    assert (Hin : ∀ a b, linked pairs a b → linked (pairs ++ [(p, q)]) a b).
    { intros a b. apply linked_mono. intros e He. apply elem_of_app. by left. }
    assert (Hpq : linked (pairs ++ [(p, q)]) p q).
    { apply rtsc_lr. apply elem_of_app. right. left. }
    split.
    + unfold union.
      destruct (decide (r x = r q)) as [Hx | Hx],
               (decide (r y = r q)) as [Hy | Hy]; intros Heq.
      * apply Hin, IH. congruence.
      * trans q; [by apply Hin, IH |].
        trans p; [by symmetry |]. by apply Hin, IH.
      * trans p; [by apply Hin, IH |].
        trans q; [done |]. apply Hin, IH. congruence.
      * by apply Hin, IH.
    + assert (Hstep : ∀ a b, sc (λ a b, (a, b) ∈ pairs ++ [(p, q)]) a b →
                        union r p q a = union r p q b).
      { assert (Hr : ∀ a b, r a = r b → union r p q a = union r p q b).
        { intros a b Hab. unfold union. by rewrite Hab. }
        assert (Hu : union r p q p = union r p q q).
        { unfold union. rewrite (decide_True (P := r q = r q)) by done.
          by case_decide. }
        intros a b [Hab | Hab];
          apply elem_of_app in Hab as [Hab | Hab%list_elem_of_singleton].
        - apply Hr, IH. by apply rtsc_lr.
        - by simplify_eq.
        - apply Hr, IH. by apply rtsc_rl.
        - by simplify_eq. }
      induction 1 as [|a b c Hab _ IH']; [done |].
      by rewrite (Hstep a b Hab).
Qed.

End GroupBuilder.

(** ** merge_landserf.py: [MergeSummitLayers.processAlgorithm] *)

Module MergeSummitLayers.
Import GroupBuilder.

(** [enumerate(l)] *)
Definition enumerate {A} (l : list A) : list (nat * A) :=
  imap (λ i x, (i, x)) l.

(** *** Layer configuration (lines 190-216) *)

(** A dict with string keys that keeps insertion order. *)
Fixpoint dict_get {V} (d : list (string * V)) (k : string) : result V :=
  match d with
  | [] => Raise KeyError
  | (k', v) :: d' => if String.eqb k' k then Ok v else dict_get d' k
  end.

Fixpoint dict_set {V} (d : list (string * V)) (k : string) (v : V)
    : list (string * V) :=
  match d with
  | [] => [(k, v)]
  | (k', v') :: d' =>
    if String.eqb k' k then (k', v) :: d' else (k', v') :: dict_set d' k v
  end.

(** [re.search('|'.join(alts), text, re.I)] for alternatives of plain
    letters and digits: the leftmost position at which an alternative
    matches, alternatives tried in order; the result is [m.group(0)], the
    matched piece of [text]. *)
Fixpoint match_ci (pat text : string) : option string :=
  match pat with
  | EmptyString => Some ""
  | String a p =>
    match text with
    | EmptyString => None
    | String b t =>
      if Ascii.eqb (Str.upper_char a) (Str.upper_char b)
      then String b <$> match_ci p t
      else None
    end
  end.

Fixpoint match_alt (alts : list string) (text : string) : option string :=
  match alts with
  | [] => None
  | p :: alts' =>
    match match_ci p text with
    | Some m => Some m
    | None => match_alt alts' text
    end
  end.

Fixpoint re_search (alts : list string) (text : string) : option string :=
  match match_alt alts text with
  | Some m => Some m
  | None =>
    match text with
    | EmptyString => None
    | String _ t => re_search alts t
    end
  end.

Section processAlgorithm.
Context `{PySet}.
Context {Point Geometry : Type}.

(** [QgsGeometry.vertexAt], [nCoordinates] and
    [QgsSpatialIndex.nearestNeighbor(point, neighbors, maxDistance)]; an
    index is the list of the features added to it, in order. *)
Variable vertexAt : Geometry → Z → Point.
Variable nCoordinates : Geometry → nat.
Variable nearestNeighbor : list (nat * Point) → Point → nat → Q → list nat.

(** A feature of an input layer. *)
Record in_feature := {
  hasGeometry : bool;
  geometry : Geometry;
  Elevation : Z;
  Col_elevation : Z
}.

Record layer := {
  name : string;
  getFeatures : list in_feature
}.

Definition layerList_init : list (string * option layer) :=
  [("SRTM", None); ("ASTER", None); ("ALOS", None); ("TDX", None);
   ("GLO30", None)].

(** The first loop over the layers.  The destination CRS and the feature
    count it also collects only feed the sink and the progress bar.  A
    layer object is true, [None] is false; the message of the second
    exception looks the layer up under [m.group(0)] as it was found. *)
Fixpoint configure (fb : feedback) (layerList : list (string * option layer))
    (layers : list layer) : result (feedback * list (string * option layer)) :=
  match layers with
  | [] => Ok (fb, layerList)
  | layer :: layers' =>
    let '(canceled, fb) := isCanceled fb in
    if canceled then Ok (fb, layerList)
    else
      match re_search layerList.*1 (name layer) with
      | None =>
        Raise (QgsProcessingException
          ("Layer name " +:+ name layer +:+ " does not infer a known DEM type"))
      | Some m =>
        seen ← dict_get layerList (Str.upper m);
        match seen with
        | Some _ =>
          other ← dict_get layerList m;
          match other with
          | Some other =>
            Raise (QgsProcessingException
              ("Layer " +:+ name layer +:+ " appears to be the same DEM as "
               +:+ name other))
          | None => Raise AttributeError
          end
        | None =>
          configure fb (dict_set layerList (Str.upper m) (Some layer)) layers'
        end
      end
  end.

(** *** Collecting the summits (lines 244-275) *)

(** One entry of [summits]:
    [(dem, f['Elevation'], f['Col elevation'], g, gs, gc)]. *)
Record summit := {
  sm_dem : string;
  sm_elevation : Z;
  sm_col_elevation : Z;
  sm_g : Geometry;
  sm_gs : Point;
  sm_gc : Point
}.

Definition ingest_feature (dem : string) (summits : list summit)
    (f : in_feature) : list summit :=
  if hasGeometry f then
    let g := geometry f in
    summits ++
      [{| sm_dem := dem; sm_elevation := Elevation f;
          sm_col_elevation := Col_elevation f; sm_g := g;
          sm_gs := vertexAt g 0;
          sm_gc := vertexAt g (Z.of_nat (nCoordinates g) - 1) |}]
  else summits.

Fixpoint ingest (fb : feedback) (items : list (string * option layer))
    (summits : list summit) : list summit :=
  match items with
  | [] => summits
  | (dem, layer) :: items' =>
    let '(canceled, fb) := isCanceled fb in
    if canceled then summits
    else
      match layer with
      | None => ingest fb items' summits
      | Some l =>
        ingest fb items' (foldl (ingest_feature dem) summits (getFeatures l))
      end
  end.

(** Each summit is added to both indexes under its position in [summits]. *)
Definition sisummit (summits : list summit) : list (nat * Point) :=
  imap (λ i sm, (i, sm_gs sm)) summits.

Definition sicol (summits : list summit) : list (nat * Point) :=
  imap (λ i sm, (i, sm_gc sm)) summits.

(** *** Neighbourhood lists (lines 278-290) *)

Record matches := {
  smatch : list (list nat);
  cmatch : list (list nat);
  dmatch : gmap nat (list nat)
}.

Section matching.
Variable summits : list summit.
Variable distance : Q.

(** [s] and [c] of the iteration for the summit [sm]. *)
Definition squery (sm : summit) : list nat :=
  nearestNeighbor (sisummit summits) (sm_gs sm) 5 distance.

Definition cquery (sm : summit) : list nat :=
  nearestNeighbor (sicol summits) (sm_gc sm) 20 distance.

Definition match_step (st : matches) (sm : summit) : matches :=
  let s := squery sm in
  let c := cquery sm in
  {| smatch := smatch st ++ [filter (λ x, x ∉ c) s];
     cmatch := cmatch st ++ [filter (λ x, x ∉ s) c];
     dmatch := chain (dmatch st) s c |}.

Definition match_all : matches :=
  foldl match_step {| smatch := []; cmatch := []; dmatch := ∅ |} summits.

(** The two query results by record index, and the chaining run over the
    records in another order. *)
Definition sq (i : nat) : list nat :=
  from_option squery [] (summits !! i).

Definition cq (i : nat) : list nat :=
  from_option cquery [] (summits !! i).

Definition dmatch_in_order (order : list nat) : gmap nat (list nat) :=
  chain_all sq cq order.

(** Record [i] took record [j] for the same summit: [j] came back from both
    of [i]'s queries.  [MatchRelation] is the symmetric relation of the
    data model. *)
Definition mutual_match (i j : nat) : Prop :=
  i < length summits ∧ j ∈ sq i ∧ j ∈ cq i.

Definition MatchRelation : relation nat := sc mutual_match.

(** What a union-find would be given: one union for each record and each
    of its mutual matches. *)
Definition match_pairs : list (nat * nat) :=
  i ← seq 0 (length summits);
  (λ j, (i, j)) <$> filter (λ x, x ∈ cq i) (sq i).

Definition union_find : nat → nat := union_all match_pairs.

End matching.

(** *** Merged features (lines 296-322) *)

(** The attributes of an output feature that the algorithm writes; the
    per-DEM columns are keyed by the DEM name.  [Prominence] is the quotient
    of two integers, kept as a rational. *)
Record feature := {
  fid : option nat;
  ID : option string;
  dem_Elevation : gmap string Z;
  dem_Col_elevation : gmap string Z;
  Prominence : Q;
  Merge : option string;
  Cross : option string
}.

(** The variables of the loop over the members of one group. *)
Record member_acc := {
  acc_Elevation : gmap string Z;
  acc_Col_elevation : gmap string Z;
  acc_e : Z;
  acc_c : Z;
  acc_ss : list nat;
  acc_cc : list nat;
  acc_fmap : gmap nat nat
}.

Fixpoint foldlR {A B} (f : A → B → result A) (a : A) (l : list B) : result A :=
  match l with
  | [] => Ok a
  | x :: l' => a' ← f a x; foldlR f a' l'
  end.

Section aggregation.
Variable summits : list summit.
Variable st : matches.

(** The body of [for i in m], for the group that becomes feature [k]. *)
Definition member_step (k : nat) (a : member_acc) (i : nat) : result member_acc :=
  sm ← getindex summits i;
  si ← getindex (smatch st) i;
  ci ← getindex (cmatch st) i;
  Ok {| acc_Elevation := <[sm_dem sm := sm_elevation sm]> (acc_Elevation a);
        acc_Col_elevation :=
          <[sm_dem sm := sm_col_elevation sm]> (acc_Col_elevation a);
        acc_e := (acc_e a + sm_elevation sm)%Z;
        acc_c := (acc_c a + sm_col_elevation sm)%Z;
        acc_ss := acc_ss a ++ si;
        acc_cc := acc_cc a ++ ci;
        acc_fmap := <[i := k]> (acc_fmap a) |}.

(** [','.join(f'{x}' for x in l)], set only when [l] is not empty. *)
Definition link_field (l : list nat) : option string :=
  match l with
  | [] => None
  | _ => Some (Str.join "," (Str.of_nat <$> l))
  end.

(** The body of [for m in dm]: the feature of the group [m], the
    [k]-th to be built. *)
Definition aggregate_group (k : nat) (fmap : gmap nat nat) (m : list nat)
    : result (feature * gmap nat nat) :=
  a ← foldlR (member_step k)
        {| acc_Elevation := ∅; acc_Col_elevation := ∅; acc_e := 0; acc_c := 0;
           acc_ss := []; acc_cc := []; acc_fmap := fmap |} m;
  match m with
  | [] => Raise ZeroDivisionError
  | _ =>
    Ok ({| fid := None; ID := None;
           dem_Elevation := acc_Elevation a;
           dem_Col_elevation := acc_Col_elevation a;
           Prominence :=
             (inject_Z (acc_e a - acc_c a) / inject_Z (Z.of_nat (length m)))%Q;
           Merge := link_field (acc_ss a);
           Cross := link_field (acc_cc a) |},
        acc_fmap a)
  end.

Fixpoint aggregate (features : list feature) (fmap : gmap nat nat)
    (dm : list (list nat)) : result (list feature * gmap nat nat) :=
  match dm with
  | [] => Ok (features, fmap)
  | m :: dm' =>
    '(f, fmap) ← aggregate_group (length features) fmap m;
    aggregate (features ++ [f]) fmap dm'
  end.

End aggregation.

(** *** Ranking and final identifiers (lines 324-335) *)

(** [sorted(enumerate(features), key=..['Prominence'], reverse=True)] *)
Definition by_prominence (a b : nat * feature) : bool :=
  Qle_bool (Prominence b.2) (Prominence a.2).

Definition ranked (features : list feature) : list (nat * feature) :=
  sorted_by by_prominence (enumerate features).

(** The unzipping assignment to [index, features]: unpacking fails when
    nothing was sorted. *)
Definition unzip_ranked (l : list (nat * feature))
    : result (list nat * list feature) :=
  match l with
  | [] => Raise ValueError
  | _ => Ok (l.*1, l.*2)
  end.

(** [[x[0] for x in sorted(enumerate(index), key=lambda s: s[1])]] *)
Definition invert (index : list nat) : list nat :=
  (sorted_by (λ a b : nat * nat, a.2 <=? b.2) (enumerate index)).*1.

(** [f'S{i+1:04}'] *)
Definition format_id (i : nat) : string := "S" +:+ Str.pad04 (i + 1).

(** The rewriting of a [Merge] or [Cross] value into final identifiers. *)
Definition relink (fmap : gmap nat nat) (index : list nat)
    (field : option string) : result (option string) :=
  match field with
  | Some s =>
    if Str.truthy field then
      ids ← mapR (λ x, n ← Str.to_nat x; getitem fmap n) (Str.split "," s);
      let m : gset nat := list_to_set ids in
      toks ← mapR (λ x, r ← getindex index x; Ok (format_id r)) (set_iter m);
      Ok (Some (Str.join " " toks))
    else Ok field
  | None => Ok None
  end.

Definition finish (fmap : gmap nat nat) (index : list nat)
    (entry : nat * feature) : result feature :=
  let '(i, f) := entry in
  merge ← relink fmap index (Merge f);
  cross ← relink fmap index (Cross f);
  Ok {| fid := Some i; ID := Some (format_id i);
        dem_Elevation := dem_Elevation f;
        dem_Col_elevation := dem_Col_elevation f;
        Prominence := Prominence f;
        Merge := merge; Cross := cross |}.

(** Lines 278-335: from the collected summits to the features handed to
    the sink. *)
Definition merge_summits (summits : list summit) (distance : Q)
    : result (list feature) :=
  let st := match_all summits distance in
  let dm := groups (dmatch st) in
  '(features, fmap) ← aggregate summits st [] ∅ (set_iter dm);
  '(index, features) ← unzip_ranked (ranked features);
  let index := invert index in
  mapR (finish fmap index) (enumerate features).

Definition processAlgorithm (fb : feedback) (layers : list layer)
    (distance : Q) : result (list feature) :=
  '(fb, layerList) ← configure fb layerList_init layers;
  merge_summits (ingest fb layerList []) distance.

(** *** Properties of the neighbourhood lists *)

Section matching_facts.
Variable summits : list summit.
Variable distance : Q.

Local Abbreviation squery_ := (squery summits distance).
Local Abbreviation cquery_ := (cquery summits distance).
Local Abbreviation sq_ := (sq summits distance).
Local Abbreviation cq_ := (cq summits distance).
Local Abbreviation match_step_ := (match_step summits distance).

Lemma smatch_foldl st l :
  smatch (foldl match_step_ st l)
  = smatch st ++ ((λ sm, filter (λ x, x ∉ cquery_ sm) (squery_ sm)) <$> l).
Proof.
  revert st. induction l as [|sm l IH]; intros st; simpl.
  - by rewrite app_nil_r.
  - rewrite IH. simpl. by rewrite <- app_assoc.
Qed.

Lemma cmatch_foldl st l :
  cmatch (foldl match_step_ st l)
  = cmatch st ++ ((λ sm, filter (λ x, x ∉ squery_ sm) (cquery_ sm)) <$> l).
Proof.
  revert st. induction l as [|sm l IH]; intros st; simpl.
  - by rewrite app_nil_r.
  - rewrite IH. simpl. by rewrite <- app_assoc.
Qed.

Lemma dmatch_foldl st l1 l2 :
  summits = l1 ++ l2 →
  dmatch (foldl match_step_ st l2)
  = foldl (λ d i, chain d (sq_ i) (cq_ i)) (dmatch st)
      (seq (length l1) (length l2)).
Proof.
  revert st l1. induction l2 as [|sm l2 IH]; intros st l1 Hs; simpl; [done |].
  rewrite (IH _ (l1 ++ [sm])).
  - rewrite length_app. simpl. rewrite Nat.add_1_r. f_equal.
    unfold sq, cq.
    rewrite Hs, list_lookup_middle by done. done.
  - by rewrite <- app_assoc.
Qed.

Lemma smatch_match_all :
  smatch (match_all summits distance)
  = (λ sm, filter (λ x, x ∉ cquery_ sm) (squery_ sm)) <$> summits.
Proof. unfold match_all. by rewrite smatch_foldl. Qed.

Lemma cmatch_match_all :
  cmatch (match_all summits distance)
  = (λ sm, filter (λ x, x ∉ squery_ sm) (cquery_ sm)) <$> summits.
Proof. unfold match_all. by rewrite cmatch_foldl. Qed.

Lemma dmatch_match_all :
  dmatch (match_all summits distance)
  = dmatch_in_order summits distance (seq 0 (length summits)).
Proof. unfold match_all. by rewrite (dmatch_foldl _ []). Qed.

Lemma match_all_chained :
  chained (bases sq_ cq_ (seq 0 (length summits)))
    (dmatch (match_all summits distance)).
Proof. rewrite dmatch_match_all. apply chained_chain_all. Qed.

Lemma elem_of_bases_seq e :
  e ∈ bases sq_ cq_ (seq 0 (length summits)) ↔
  ∃ i sm, summits !! i = Some sm ∧ e = mutual (squery_ sm) (cquery_ sm).
Proof.
  unfold bases. rewrite list_elem_of_fmap. split.
  - intros (i & -> & Hi%elem_of_seq).
    destruct (lookup_lt_is_Some_2 summits i) as [sm Hsm]; [lia |].
    exists i, sm. split; [done |].
    unfold sq, cq. by rewrite Hsm.
  - intros (i & sm & Hsm & ->). exists i. split.
    + unfold sq, cq. by rewrite Hsm.
    + apply elem_of_seq. apply lookup_lt_Some in Hsm. lia.
Qed.

Lemma mutual_match_iff i sm x :
  summits !! i = Some sm →
  mutual_match summits distance i x ↔ x ∈ squery_ sm ∧ x ∈ cquery_ sm.
Proof.
  intros Hsm. unfold mutual_match, sq, cq.
  rewrite Hsm. simpl. apply lookup_lt_Some in Hsm. tauto.
Qed.

End matching_facts.

(** C5.  For the record [i], the summit index is asked for 5 neighbours and
    the col index for 20, both within [distance].  An id is one of [i]'s
    mutual matches exactly when both answers hold it, and all of them end
    up in one group; the ids only in the summit answer are the list
    [smatch[i]], the ids only in the col answer are the list [cmatch[i]]. *)
Theorem matcher_queries (summits : list summit) (distance : Q) i sm :
  summits !! i = Some sm →
  let s := nearestNeighbor (sisummit summits) (sm_gs sm) 5 distance in
  let c := nearestNeighbor (sicol summits) (sm_gc sm) 20 distance in
  let st := match_all summits distance in
  (∀ x, mutual_match summits distance i x ↔ x ∈ s ∧ x ∈ c)
  ∧ (∀ x y, x ∈ s → x ∈ c → y ∈ s → y ∈ c →
       ∃ g, dmatch st !! x = Some g ∧ y ∈ g)
  ∧ smatch st !! i = Some (filter (λ x, x ∉ c) s)
  ∧ cmatch st !! i = Some (filter (λ x, x ∉ s) c)
  ∧ (∀ x, x ∈ filter (λ x, x ∉ c) s ↔ x ∈ s ∧ x ∉ c)
  ∧ (∀ x, x ∈ filter (λ x, x ∉ s) c ↔ x ∈ c ∧ x ∉ s).
Proof.
  intros Hsm s c st. split_and!.
  - intros x. by apply mutual_match_iff.
  - intros x y Hxs Hxc Hys Hyc.
    apply (chained_complete _ _ (match_all_chained summits distance)).
    exists (mutual s c). split_and!.
    + apply elem_of_bases_seq. by exists i, sm.
    + by apply elem_of_mutual.
    + by apply elem_of_mutual.
  - subst st. rewrite smatch_match_all, list_lookup_fmap, Hsm. done.
  - subst st. rewrite cmatch_match_all, list_lookup_fmap, Hsm. done.
  - intros x. rewrite list_elem_of_filter. tauto.
  - intros x. rewrite list_elem_of_filter. tauto.
Qed.

(** *** The groups are the classes of the match relation *)

Section grouping_facts.
Variable summits : list summit.
Variable distance : Q.

Local Abbreviation E_ :=
  (bases (sq summits distance) (cq summits distance)
     (seq 0 (length summits))).

(** Every record comes back from its own two queries. *)
Definition self_matching : Prop :=
  ∀ i sm, summits !! i = Some sm →
    i ∈ squery summits distance sm ∧ i ∈ cquery summits distance sm.

(** The mutual matches are ids of collected records. *)
Definition matches_in_range : Prop :=
  ∀ i sm x, summits !! i = Some sm →
    x ∈ squery summits distance sm → x ∈ cquery summits distance sm →
    x < length summits.

Lemma adj_MatchRelation x y :
  adj E_ x y → rtc (MatchRelation summits distance) x y.
Proof.
  intros (e & (i & sm & Hsm & ->)%elem_of_bases_seq & Hx & Hy).
  apply elem_of_mutual in Hx, Hy.
  apply rtc_l with i.
  - right. by apply (mutual_match_iff _ _ _ sm).
  - apply rtc_once. left. by apply (mutual_match_iff _ _ _ sm).
Qed.

Lemma conn_MatchRelation x y :
  conn E_ x y → rtc (MatchRelation summits distance) x y.
Proof.
  unfold conn, rtsc. induction 1 as [x | x z y Hxz _ IH]; [done |].
  etrans; [| exact IH].
  destruct Hxz as [Ha | Ha]; [| apply adj_sym in Ha]; by apply adj_MatchRelation.
Qed.

Lemma mutual_match_adj i j :
  self_matching → mutual_match summits distance i j → adj E_ i j.
Proof.
  intros Hself (Hi & Hs & Hc).
  destruct (lookup_lt_is_Some_2 summits i Hi) as [sm Hsm].
  unfold sq, cq in Hs, Hc. rewrite Hsm in Hs, Hc. simpl in Hs, Hc.
  exists (mutual (squery summits distance sm) (cquery summits distance sm)).
  split_and!.
  - apply elem_of_bases_seq. by exists i, sm.
  - apply elem_of_mutual. by apply (Hself i sm).
  - by apply elem_of_mutual.
Qed.

Lemma MatchRelation_conn x y :
  self_matching → rtc (MatchRelation summits distance) x y → conn E_ x y.
Proof.
  intros Hself. induction 1 as [x | x z y Hxz _ IH]; [done |].
  etrans; [| exact IH].
  destruct Hxz as [Hm | Hm].
  - by apply conn_adj, mutual_match_adj.
  - symmetry. by apply conn_adj, mutual_match_adj.
Qed.

Lemma record_grouped i :
  self_matching → i < length summits →
  ∃ g, dmatch (match_all summits distance) !! i = Some g ∧ i ∈ g.
Proof.
  intros Hself Hi.
  destruct (lookup_lt_is_Some_2 summits i Hi) as [sm Hsm].
  apply (chained_complete _ _ (match_all_chained summits distance)).
  apply mutual_match_adj; [done |].
  apply (mutual_match_iff _ _ _ sm); [done |]. by apply Hself.
Qed.

Lemma grouped_in_range i g :
  matches_in_range →
  dmatch (match_all summits distance) !! i = Some g → i < length summits.
Proof.
  intros Hrange Hd.
  destruct (chained_covered _ _ (match_all_chained summits distance) _ _ Hd)
    as (e & (k & sm & Hsm & ->)%elem_of_bases_seq & [Hs Hc]%elem_of_mutual).
  by apply (Hrange k sm).
Qed.

Lemma elem_of_match_pairs a b :
  (a, b) ∈ match_pairs summits distance ↔ mutual_match summits distance a b.
Proof.
  unfold match_pairs, mutual_match. rewrite list_elem_of_bind. split.
  - intros (i & (j & [= -> ->] & Hj)%list_elem_of_fmap & Hi%elem_of_seq).
    apply list_elem_of_filter in Hj as [??]. split_and!; [lia | done ..].
  - intros (Ha & Hs & Hc). exists a. split.
    + apply list_elem_of_fmap. exists b. split; [done |].
      by apply list_elem_of_filter.
    + apply elem_of_seq. lia.
Qed.

Lemma linked_MatchRelation x y :
  linked (match_pairs summits distance) x y
  ↔ rtc (MatchRelation summits distance) x y.
Proof.
  unfold linked, rtsc, MatchRelation. split.
  - apply (rtc_congruence id). intros a b [?|?]; [left | right];
      by apply elem_of_match_pairs.
  - apply (rtc_congruence id). intros a b [?|?]; [left | right];
      by apply elem_of_match_pairs.
Qed.

(** The chaining does not depend on the order in which the records are
    taken. *)
Lemma dmatch_in_order_perm order :
  order ≡ₚ seq 0 (length summits) →
  dmatch_in_order summits distance order = dmatch (match_all summits distance).
Proof.
  intros Hp. rewrite dmatch_match_all. unfold dmatch_in_order.
  eapply chained_unique; [| apply chained_chain_all | apply chained_chain_all].
  intros e. unfold bases. by rewrite Hp.
Qed.

(** A group whose only member is [i] is the tuple [(i,)]. *)
Lemma singleton_group i g :
  dmatch (match_all summits distance) !! i = Some g →
  (∀ j, j ∈ g → j = i) → g = [i].
Proof.
  intros Hd Hall.
  pose proof (match_all_chained summits distance) as Hc.
  destruct (chained_tuple _ _ Hc _ _ Hd) as (m & ->).
  assert (m = {[i]}) as ->.
  { apply set_eq. intros j. rewrite elem_of_singleton.
    rewrite <- elem_of_sorted_tuple. split; [apply Hall |].
    intros ->. by apply (chained_self _ _ Hc i). }
  apply Permutation_singleton_r. unfold sorted_tuple, sorted_nat.
  by rewrite merge_sort_Permutation, set_iter_perm, elements_singleton.
Qed.

End grouping_facts.

(** C1.  When every record comes back from its own two queries and the
    queries answer with ids of collected records, the groups of [dm]
    partition the record indices: every record lies in exactly one group
    (alone in it when it matched no other record) and groups hold record
    indices only; the group of a record is its class under the reflexive
    and transitive closure of [MatchRelation], which is the class a
    union-find run over the mutual matches puts it in; and running the
    chaining over the records in any other order gives the same groups. *)
Theorem grouping_partition (summits : list summit) (distance : Q) :
  self_matching summits distance →
  matches_in_range summits distance →
  let n := length summits in
  let dmatch := dmatch (match_all summits distance) in
  let dm := groups dmatch in
  (∀ i, i < n →
     ∃ g, g ∈ dm ∧ i ∈ g ∧ dmatch !! i = Some g
          ∧ ∀ g', g' ∈ dm → i ∈ g' → g' = g)
  ∧ (∀ g, g ∈ dm → g ≠ [] ∧ ∀ j, j ∈ g → j < n)
  ∧ (∀ i, i < n →
       (∀ j, MatchRelation summits distance i j → j = i) →
       dmatch !! i = Some [i])
  ∧ (∀ i j g, dmatch !! i = Some g →
       (j ∈ g ↔ rtc (MatchRelation summits distance) i j))
  ∧ (∀ i j g, dmatch !! i = Some g →
       (j ∈ g ↔ union_find summits distance i = union_find summits distance j))
  ∧ (∀ order, order ≡ₚ seq 0 n →
       groups (dmatch_in_order summits distance order) = dm).
Proof.
  intros Hself Hrange n d dm.
  pose proof (match_all_chained summits distance) as Hc. fold d in Hc.
  assert (Hclos : ∀ i j g, d !! i = Some g →
            (j ∈ g ↔ rtc (MatchRelation summits distance) i j)).
  { intros i j g Hd. rewrite (chained_member _ _ _ _ _ Hc Hd). split.
    - apply conn_MatchRelation.
    - by apply MatchRelation_conn. }
  split_and!.
  - intros i Hi. destruct (record_grouped summits distance i Hself Hi)
      as (g & Hd & Hig).
    exists g. split_and!; [| done | done |].
    + apply elem_of_groups. by exists i.
    + intros g' (x & Hx)%elem_of_groups Hig'.
      pose proof (chained_closed _ _ Hc _ _ _ Hx Hig') as Hd'.
      fold d in Hd. congruence.
  - intros g (x & Hx)%elem_of_groups. split.
    + intros ->. by apply (chained_self _ _ Hc) in Hx; apply elem_of_nil in Hx.
    + intros j Hj. eapply (grouped_in_range summits distance j g Hrange).
      by apply (chained_closed _ _ Hc x).
  - intros i Hi Halone.
    destruct (record_grouped summits distance i Hself Hi) as (g & Hd & Hig).
    fold d in Hd. rewrite Hd. f_equal.
    apply (singleton_group summits distance i g Hd).
    intros j Hj. apply (Hclos i j g Hd) in Hj.
    clear Hd Hig. induction Hj as [x | x z y Hxz _ IH]; [done |].
    apply Halone in Hxz as ->. by apply IH.
  - exact Hclos.
  - intros i j g Hd. rewrite (Hclos i j g Hd). unfold union_find.
    by rewrite union_all_linked, linked_MatchRelation.
  - intros order Hp. subst dm d. by rewrite dmatch_in_order_perm.
Qed.

(** *** Properties of the merged features *)

Definition sumZ (l : list Z) : Z := foldr Z.add 0%Z l.

Definition elevation_at (summits : list summit) (i : nat) : Z :=
  from_option sm_elevation 0%Z (summits !! i).

Definition col_elevation_at (summits : list summit) (i : nat) : Z :=
  from_option sm_col_elevation 0%Z (summits !! i).

(** The members of a group index the three lists the loop reads. *)
Definition members_valid (summits : list summit) (st : matches)
    (m : list nat) : Prop :=
  ∀ i, i ∈ m →
    i < length summits ∧ i < length (smatch st) ∧ i < length (cmatch st).

Lemma getindex_lt {A} (l : list A) i :
  i < length l → ∃ x, l !! i = Some x ∧ getindex l i = Ok x.
Proof.
  intros Hi. destruct (lookup_lt_is_Some_2 l i Hi) as [x Hx].
  exists x. unfold getindex. by rewrite Hx.
Qed.

Lemma member_step_ok summits st k a i sm si ci :
  summits !! i = Some sm → smatch st !! i = Some si →
  cmatch st !! i = Some ci →
  member_step summits st k a i
  = Ok {| acc_Elevation := <[sm_dem sm := sm_elevation sm]> (acc_Elevation a);
          acc_Col_elevation :=
            <[sm_dem sm := sm_col_elevation sm]> (acc_Col_elevation a);
          acc_e := (acc_e a + sm_elevation sm)%Z;
          acc_c := (acc_c a + sm_col_elevation sm)%Z;
          acc_ss := acc_ss a ++ si;
          acc_cc := acc_cc a ++ ci;
          acc_fmap := <[i := k]> (acc_fmap a) |}.
Proof.
  intros Hsm Hsi Hci. unfold member_step, getindex.
  by rewrite Hsm, Hsi, Hci.
Qed.

Lemma foldlR_member_step summits st k m a :
  members_valid summits st m →
  ∃ a', foldlR (member_step summits st k) a m = Ok a'
    ∧ acc_e a' = (acc_e a + sumZ (elevation_at summits <$> m))%Z
    ∧ acc_c a' = (acc_c a + sumZ (col_elevation_at summits <$> m))%Z
    ∧ acc_ss a' = acc_ss a ++ (i ← m; default [] (smatch st !! i))
    ∧ acc_cc a' = acc_cc a ++ (i ← m; default [] (cmatch st !! i))
    ∧ (∀ j, acc_fmap a' !! j
            = if decide (j ∈ m) then Some k else acc_fmap a !! j).
Proof.
  revert a. induction m as [|i m IH]; intros a Hv; simpl.
  - exists a. split_and!; try done.
    + lia.
    + lia.
    + by rewrite app_nil_r.
    + by rewrite app_nil_r.
  - destruct (Hv i ltac:(by left)) as (H1 & H2 & H3).
    destruct (getindex_lt summits i H1) as (sm & Hsm & Hgs).
    destruct (getindex_lt (smatch st) i H2) as (si & Hsi & Hgsi).
    destruct (getindex_lt (cmatch st) i H3) as (ci & Hci & Hgci).
    rewrite (member_step_ok _ _ _ _ _ _ _ _ Hsm Hsi Hci). simpl.
    assert (Hv' : members_valid summits st m)
      by (intros j Hj; apply Hv; by right).
    match goal with
    | |- context [foldlR _ ?a0 m] =>
      destruct (IH a0 Hv') as (a' & Heq & He & Hc & Hss & Hcc & Hf)
    end.
    exists a'. split; [done |].
    rewrite He, Hc, Hss, Hcc. simpl.
    unfold elevation_at at 2, col_elevation_at at 2.
    rewrite Hsm, Hsi, Hci. simpl.
    split_and!.
    + rewrite <- Z.add_assoc. reflexivity.
    + rewrite <- Z.add_assoc. reflexivity.
    + rewrite <- app_assoc. reflexivity.
    + rewrite <- app_assoc. reflexivity.
    + intros j. rewrite Hf. simpl.
      destruct (decide (j ∈ m)) as [Hm | Hm].
      * rewrite decide_True; [done | by right].
      * rewrite lookup_insert.
        destruct (decide (i = j)) as [-> | Hij].
        -- rewrite decide_True; [done | by left].
        -- rewrite decide_False; [done |].
           intros [? | ?]%elem_of_cons; by subst.
Qed.

Lemma sumZ_cons x l : sumZ (x :: l) = (x + sumZ l)%Z.
Proof. done. Qed.

Lemma sumZ_sub {A} (f g : A → Z) l :
  (sumZ (f <$> l) - sumZ (g <$> l))%Z = sumZ ((λ i, f i - g i)%Z <$> l).
Proof.
  induction l as [|i l IH]; [done |].
  rewrite !fmap_cons, !sumZ_cons, <- IH. lia.
Qed.

Lemma finish_Prominence fmap index r f f' :
  finish fmap index (r, f) = Ok f' → Prominence f' = Prominence f.
Proof.
  unfold finish.
  destruct (relink fmap index (Merge f)); simpl; [| discriminate].
  destruct (relink fmap index (Cross f)); simpl; [| discriminate].
  by intros [= <-].
Qed.

(** C2.  For a group [m] that is not empty, the merged feature carries
    [Prominence = (sum of the members' elevations - sum of their col
    elevations) / len(m)] as a rational; this is the mean of the members'
    own differences, none of them rounded, and the later numbering of the
    features leaves the value as it is. *)
Theorem aggregate_prominence (summits : list summit) (st : matches)
    (k : nat) (fmap : gmap nat nat) (m : list nat) :
  m ≠ [] →
  members_valid summits st m →
  ∃ f fmap',
    aggregate_group summits st k fmap m = Ok (f, fmap')
    ∧ (Prominence f ==
         (inject_Z (sumZ (elevation_at summits <$> m))
          - inject_Z (sumZ (col_elevation_at summits <$> m)))
         / inject_Z (Z.of_nat (length m)))%Q
    ∧ (Prominence f ==
         inject_Z (sumZ ((λ i, elevation_at summits i
                               - col_elevation_at summits i)%Z <$> m))
         / inject_Z (Z.of_nat (length m)))%Q
    ∧ (∀ fmap'' index r f',
         finish fmap'' index (r, f) = Ok f' → Prominence f' = Prominence f).
Proof.
  intros Hne Hv. unfold aggregate_group.
  edestruct (foldlR_member_step summits st k m) as (a & -> & He & Hc & _);
    [exact Hv |].
  simpl. destruct m as [|i0 m0] eqn:Hm; [done |]. rewrite <- Hm in *.
  eexists _, _. split; [done |].
  cbn [Prominence]. rewrite He, Hc. cbn [acc_e acc_c].
  rewrite !Z.add_0_l. split_and!.
  - unfold Z.sub. by rewrite inject_Z_plus, inject_Z_opp.
  - by rewrite sumZ_sub.
  - intros fmap'' index r f'. apply finish_Prominence.
Qed.

(** *** Properties of the ranking *)

(** [a] is emitted before [b]: higher prominence first, and among equal
    prominences the feature built first. *)
Definition comes_first (a b : nat * feature) : Prop :=
  (Prominence b.2 < Prominence a.2)%Q
  ∨ ((Prominence a.2 == Prominence b.2)%Q ∧ a.1 < b.1).

#[local] Instance comes_first_trans : Transitive comes_first.
Proof.
  intros a b c [H1 | [H1 H1']] [H2 | [H2 H2']].
  - left. by eapply Qlt_trans.
  - left. by rewrite <- H2.
  - left. by rewrite H1.
  - right. split; [by rewrite H1 | lia].
Qed.

(** The final identifier under which the [k]-th built feature is referred
    to: [f'S{index[k]+1:04}']. *)
Definition final_ids (features : list feature) : list string :=
  format_id <$> invert (ranked features).*1.

Lemma enumerate_lookup {A} (l : list A) i e :
  enumerate l !! i = Some e ↔ ∃ x, e = (i, x) ∧ l !! i = Some x.
Proof.
  unfold enumerate. rewrite list_lookup_imap.
  destruct (l !! i) as [x|]; simpl; split.
  - intros [= <-]. eauto.
  - by intros (y & -> & [= ->]).
  - done.
  - by intros (y & _ & ?).
Qed.

Lemma enumerate_fst {A} (l : list A) : (enumerate l).*1 = seq 0 (length l).
Proof.
  apply list_eq. intros i. rewrite list_lookup_fmap.
  destruct (decide (i < length l)) as [Hi | Hi].
  - destruct (lookup_lt_is_Some_2 l i Hi) as [x Hx].
    rewrite (proj2 (enumerate_lookup l i (i, x))) by eauto.
    simpl. symmetry. by apply lookup_seq.
  - rewrite (lookup_ge_None_2 (seq _ _)) by (rewrite length_seq; lia).
    destruct (enumerate l !! i) as [e|] eqn:He; [| done].
    apply enumerate_lookup in He as (x & _ & Hx%lookup_lt_Some). lia.
Qed.

Lemma enumerate_snd {A} (l : list A) : (enumerate l).*2 = l.
Proof.
  apply list_eq. intros i. rewrite list_lookup_fmap.
  destruct (l !! i) as [x|] eqn:Hx.
  - by rewrite (proj2 (enumerate_lookup l i (i, x))) by eauto.
  - destruct (enumerate l !! i) as [e|] eqn:He; [| done].
    apply enumerate_lookup in He as (y & _ & ?). congruence.
Qed.

Lemma length_enumerate {A} (l : list A) : length (enumerate l) = length l.
Proof. unfold enumerate. apply length_imap. Qed.

Lemma enumerate_elem_of {A} (l : list A) i x :
  (i, x) ∈ enumerate l ↔ l !! i = Some x.
Proof.
  rewrite list_elem_of_lookup. split.
  - intros (j & (y & [= -> ->] & Hy)%enumerate_lookup). done.
  - intros Hx. exists i. apply enumerate_lookup. eauto.
Qed.

(** In [enumerate l] the positions increase. *)
Lemma enumerate_increasing {A} (l : list A) :
  StronglySorted (λ a b : nat * A, a.1 < b.1) (enumerate l).
Proof.
  unfold enumerate.
  assert (Hg : ∀ k, StronglySorted (λ a b : nat * A, a.1 < b.1)
                      (imap (λ i x, (k + i, x)) l)).
  { induction l as [|x l IH]; intros k; simpl; [constructor |].
    constructor.
    - rewrite (imap_ext _ (λ i x, (S k + i, x))); [apply IH |].
      intros i y _. simpl. f_equal. lia.
    - apply Forall_forall. intros [j y] (i & z & [= -> ->] & _)%elem_of_lookup_imap.
      simpl. lia. }
  apply (Hg 0).
Qed.

(** Sorting a list whose positions increase puts it in emission order. *)
Lemma sorted_by_comes_first (l : list (nat * feature)) :
  StronglySorted (λ a b : nat * feature, a.1 < b.1) l →
  StronglySorted comes_first (sorted_by by_prominence l).
Proof.
  induction 1 as [|x l Hs IH Hx]; simpl; [constructor |].
  apply insert_by_sorted; [apply _ | | done].
  intros y Hy. rewrite sorted_by_perm in Hy.
  rewrite Forall_forall in Hx. specialize (Hx y Hy).
  unfold by_prominence.
  destruct (Qle_bool (Prominence y.2) (Prominence x.2)) eqn:Hle.
  - apply Qle_bool_iff, Qle_lteq in Hle as [Hlt | Heq].
    + by left.
    + right. split; [by symmetry | done].
  - left. apply Qnot_le_lt. intros Hle'%Qle_bool_iff. congruence.
Qed.

Lemma ranked_perm features : ranked features ≡ₚ enumerate features.
Proof. apply sorted_by_perm. Qed.

Lemma ranked_sorted features : StronglySorted comes_first (ranked features).
Proof. apply sorted_by_comes_first, enumerate_increasing. Qed.

Lemma ranked_index_perm features :
  (ranked features).*1 ≡ₚ seq 0 (length features).
Proof. by rewrite ranked_perm, enumerate_fst. Qed.

(** [invert] turns a permutation of [0..K-1] into its inverse. *)
Lemma invert_sorted_values index :
  Sorted (≤) (sorted_by (λ a b : nat * nat, a.2 <=? b.2) (enumerate index)).*2.
Proof.
  apply StronglySorted_Sorted.
  assert (Hs : StronglySorted (λ a b : nat * nat, a.2 ≤ b.2)
                 (sorted_by (λ a b : nat * nat, a.2 <=? b.2) (enumerate index))).
  { generalize (enumerate index). intros l.
    induction l as [|x l IH]; simpl; [constructor |].
    apply insert_by_sorted; [| | done].
    - intros a b c ??. lia.
    - intros y _. destruct (x.2 <=? y.2) eqn:Hle.
      + by apply Nat.leb_le.
      + apply Nat.leb_gt in Hle. lia. }
  induction Hs as [|x l Hs IH Hx]; simpl; [constructor |].
  constructor; [done |]. apply Forall_fmap.
  eapply Forall_impl; [exact Hx |]. done.
Qed.

Lemma Sorted_le_seq j n : Sorted (≤) (seq j n).
Proof.
  revert j. induction n as [|n IH]; intros j; simpl; [constructor |].
  constructor; [apply IH |].
  destruct n; simpl; constructor. lia.
Qed.

Lemma invert_values index K :
  index ≡ₚ seq 0 K →
  (sorted_by (λ a b : nat * nat, a.2 <=? b.2) (enumerate index)).*2 = seq 0 K.
Proof.
  intros Hp. apply (Sorted_unique (≤)).
  - apply invert_sorted_values.
  - apply Sorted_le_seq.
  - by rewrite sorted_by_perm, enumerate_snd.
Qed.

Lemma invert_lookup index K k r :
  index ≡ₚ seq 0 K →
  invert index !! k = Some r ↔ index !! r = Some k.
Proof.
  intros Hp. unfold invert.
  set (S := sorted_by (λ a b : nat * nat, a.2 <=? b.2) (enumerate index)).
  pose proof (invert_values index K Hp) as Hv. fold S in Hv.
  assert (Hin : ∀ e, e ∈ S ↔ index !! e.1 = Some e.2).
  { intros [a b]. unfold S. rewrite sorted_by_perm. apply enumerate_elem_of. }
  assert (Hk : ∀ k e, S !! k = Some e → e.2 = k).
  { intros k' e He.
    assert (S.*2 !! k' = Some e.2) as Hk' by (by rewrite list_lookup_fmap, He).
    rewrite Hv in Hk'. apply lookup_seq in Hk'. lia. }
  rewrite list_lookup_fmap. split.
  - destruct (S !! k) as [e|] eqn:He; simpl; [| done]. intros [= <-].
    rewrite <- (Hk k e He). apply Hin. by eapply list_elem_of_lookup_2.
  - intros Hr.
    assert (k < K) as HkK.
    { apply list_elem_of_lookup_2 in Hr. rewrite Hp in Hr.
      apply elem_of_seq in Hr. lia. }
    assert (is_Some (S !! k)) as [e He].
    { apply lookup_lt_is_Some. rewrite <- (length_fmap snd), Hv, length_seq.
      done. }
    rewrite He. simpl. f_equal.
    pose proof (Hk k e He) as Hek.
    assert (index !! e.1 = Some k) as He1.
    { rewrite <- Hek. apply Hin. by eapply list_elem_of_lookup_2. }
    assert (NoDup index) as Hnd by (rewrite Hp; apply NoDup_seq).
    by eapply NoDup_lookup.
Qed.

Lemma length_invert index : length (invert index) = length index.
Proof.
  unfold invert. by rewrite length_fmap, length_sorted_by, length_enumerate.
Qed.

Lemma finish_Ok fmap index i f f' :
  finish fmap index (i, f) = Ok f' →
  fid f' = Some i ∧ ID f' = Some (format_id i)
  ∧ Prominence f' = Prominence f
  ∧ relink fmap index (Merge f) = Ok (Merge f')
  ∧ relink fmap index (Cross f) = Ok (Cross f').
Proof.
  unfold finish.
  destruct (relink fmap index (Merge f)); simpl; [| discriminate].
  destruct (relink fmap index (Cross f)); simpl; [| discriminate].
  by intros [= <-].
Qed.

Lemma format_id_short pos : pos < 9999 → String.length (format_id pos) = 5.
Proof.
  intros Hpos.
  assert (Hall : forallb (λ p, String.length (format_id p) =? 5) (seq 0 9999)
                 = true) by (vm_compute; reflexivity).
  rewrite forallb_forall in Hall.
  apply Nat.eqb_eq, Hall, in_seq. lia.
Qed.

(** A feature with the given prominence and nothing else set. *)
Definition entity (p : Q) : feature :=
  {| fid := None; ID := None; dem_Elevation := ∅; dem_Col_elevation := ∅;
     Prominence := p; Merge := None; Cross := None |}.

(** C3 (amended).  The features are emitted by descending prominence, and
    features of equal prominence in the order they were built; the feature
    at position [pos] gets [fid = pos] and the identifier [S] followed by
    [pos + 1] padded to four digits (rank 1 is S0001, rank 2 is S0002; five
    characters up to rank 9999), which is also the identifier links to it
    are rewritten to.  Three features built with prominences 120, 450 and
    300 get the identifiers S0003, S0001 and S0002. *)
Theorem ranking :
  (∀ features : list feature,
     let r := ranked features in
     r ≡ₚ enumerate features
     ∧ StronglySorted comes_first r
     ∧ (∀ k f, features !! k = Some f →
          ∃ pos, invert r.*1 !! k = Some pos ∧ r !! pos = Some (k, f)
                 ∧ final_ids features !! k = Some (format_id pos))
     ∧ (∀ fmap out,
          mapR (finish fmap (invert r.*1)) (enumerate r.*2) = Ok out →
          length out = length features
          ∧ (∀ pos f', out !! pos = Some f' →
               fid f' = Some pos ∧ ID f' = Some (format_id pos)
               ∧ ∃ k f, r !! pos = Some (k, f)
                        ∧ Prominence f' = Prominence f)
          ∧ (∀ p q f g, p < q → out !! p = Some f → out !! q = Some g →
               (Prominence g <= Prominence f)%Q)))
  ∧ (format_id 0 = "S0001" ∧ format_id 1 = "S0002"
     ∧ ∀ pos, pos < 9999 → String.length (format_id pos) = 5)
  ∧ final_ids [entity 120; entity 450; entity 300]
    = ["S0003"; "S0001"; "S0002"].
Proof.
  split_and!; [| done | done | apply format_id_short | by vm_compute].
  intros features r.
  assert (Hpos : ∀ fmap out,
            mapR (finish fmap (invert r.*1)) (enumerate r.*2) = Ok out →
            ∀ pos f', out !! pos = Some f' →
              fid f' = Some pos ∧ ID f' = Some (format_id pos)
              ∧ ∃ k f, r !! pos = Some (k, f) ∧ Prominence f' = Prominence f).
  { intros fmap out Hout%mapR_Ok pos f' Hf'.
    destruct (Forall2_lookup_r _ _ _ _ _ Hout Hf') as ([i f] & He & Hfin).
    apply enumerate_lookup in He as (f0 & [= -> ->] & Hf0).
    rewrite list_lookup_fmap in Hf0.
    destruct (r !! pos) as [[k f1]|] eqn:Hr; simplify_eq/=.
    apply finish_Ok in Hfin as (? & ? & ? & _). eauto 6. }
  split_and!.
  - apply ranked_perm.
  - apply ranked_sorted.
  - intros k f Hf.
    assert ((k, f) ∈ r) as (pos & Hpos')%list_elem_of_lookup.
    { unfold r. rewrite ranked_perm. by apply enumerate_elem_of. }
    exists pos.
    assert (invert r.*1 !! k = Some pos) as Hinv.
    { apply (invert_lookup _ (length features)); [apply ranked_index_perm |].
      by rewrite list_lookup_fmap, Hpos'. }
    split_and!; [done | done |].
    unfold final_ids. fold r. by rewrite list_lookup_fmap, Hinv.
  - intros fmap out Hout. split_and!.
    + apply mapR_Ok, Forall2_length in Hout.
      rewrite length_enumerate, length_fmap in Hout.
      unfold r in Hout. by rewrite ranked_perm, length_enumerate in Hout.
    + by apply (Hpos fmap).
    + intros p q f g Hpq Hf Hg.
      destruct (Hpos fmap out Hout p f Hf) as (_ & _ & k1 & f1 & Hr1 & ->).
      destruct (Hpos fmap out Hout q g Hg) as (_ & _ & k2 & f2 & Hr2 & ->).
      pose proof (ranked_sorted features) as Hs. fold r in Hs.
      destruct (StronglySorted_lookup _ _ p q _ _ Hs Hr1 Hr2 Hpq)
        as [Hlt | [Heq _]]; simpl in *.
      * by apply Qlt_le_weak.
      * rewrite Heq. apply Qle_refl.
Qed.

(** *** Properties of the rewritten links *)

(** The identifiers listed in a final [Merge] or [Cross] value. *)
Definition links (field : option string) : list string :=
  match field with
  | Some s => Str.split " " s
  | None => []
  end.

(** The ids collected into [ss] and [cc] for the group [m]. *)
Definition group_smatch (st : matches) (m : list nat) : list nat :=
  i ← m; default [] (smatch st !! i).

Definition group_cmatch (st : matches) (m : list nat) : list nat :=
  i ← m; default [] (cmatch st !! i).

Lemma aggregate_group_Ok summits st k fmap m :
  m ≠ [] → members_valid summits st m →
  ∃ f fmap',
    aggregate_group summits st k fmap m = Ok (f, fmap')
    ∧ Merge f = link_field (group_smatch st m)
    ∧ Cross f = link_field (group_cmatch st m)
    ∧ (∀ j, fmap' !! j = if decide (j ∈ m) then Some k else fmap !! j).
Proof.
  intros Hne Hv. unfold aggregate_group.
  edestruct (foldlR_member_step summits st k m)
    as (a & -> & _ & _ & Hss & Hcc & Hf); [exact Hv |].
  simpl. destruct m as [|i0 m0] eqn:Hm; [done |]. rewrite <- Hm in *.
  eexists _, _. split; [done |]. cbn [Merge Cross].
  rewrite Hss, Hcc. done.
Qed.

Lemma aggregate_Ok summits st dm : ∀ features fmap,
  Forall (λ m, m ≠ [] ∧ members_valid summits st m) dm →
  ∃ built fmap',
    aggregate summits st features fmap dm = Ok (features ++ built, fmap')
    ∧ length built = length dm
    ∧ Forall (λ f, ∃ m, m ∈ dm
                ∧ Merge f = link_field (group_smatch st m)
                ∧ Cross f = link_field (group_cmatch st m)) built
    ∧ (∀ i k, fmap' !! i = Some k →
         fmap !! i = Some k ∨ k < length features + length dm)
    ∧ (∀ i, is_Some (fmap !! i) ∨ (∃ m, m ∈ dm ∧ i ∈ m) →
         is_Some (fmap' !! i)).
Proof.
  induction dm as [|m dm IH]; intros features fmap Hdm; simpl.
  - exists [], fmap. rewrite app_nil_r. split_and!; [done | done | done | auto |].
    intros i [Hi | (m & Hm & _)]; [done | by apply elem_of_nil in Hm].
  - apply Forall_cons in Hdm as [[Hne Hv] Hdm].
    destruct (aggregate_group_Ok summits st (length features) fmap m Hne Hv)
      as (f & fmap1 & -> & HM & HC & Hf1).
    simpl.
    destruct (IH (features ++ [f]) fmap1 Hdm)
      as (built & fmap' & -> & Hlen & Hb & Hr & Hc).
    exists (f :: built), fmap'. rewrite <- app_assoc. simpl.
    split_and!; [done | by rewrite Hlen | | |].
    + constructor.
      * exists m. split; [left | done].
      * eapply Forall_impl; [exact Hb |].
        intros f' (m' & Hm' & ?). exists m'. split; [by right | done].
    + intros i k Hk. apply Hr in Hk as [Hk | Hk].
      * rewrite Hf1 in Hk. case_decide; [| by left].
        right. simplify_eq. lia.
      * right. rewrite length_app in Hk. simpl in Hk. lia.
    + intros i Hi. apply Hc.
      destruct Hi as [Hi | (m' & [-> | Hm']%elem_of_cons & Him)].
      * left. rewrite Hf1. by case_decide.
      * left. rewrite Hf1. by rewrite decide_True.
      * right. by exists m'.
Qed.

Lemma of_nat_no_char a n : Str.is_digit a = false → StrFacts.no_char a (Str.of_nat n).
Proof.
  intros Ha. apply StrFacts.all_digits_no_char; [done |].
  apply StrFacts.all_digits_of_nat.
Qed.

Lemma format_id_no_space i : StrFacts.no_char " " (format_id i).
Proof.
  unfold format_id. rewrite StrFacts.app_cons. split; [done |].
  apply StrFacts.all_digits_no_char; [done |].
  apply StrFacts.all_digits_pad04.
Qed.

Lemma truthy_join_of_nat x l :
  Str.truthy (Some (Str.join "," (Str.of_nat <$> x :: l))) = true.
Proof.
  assert (∃ a t, Str.of_nat x = String a t) as (a & t & Hx).
  { pose proof (StrFacts.to_nat_of_nat x) as Hn.
    destruct (Str.of_nat x) as [|a t]; [done | eauto]. }
  rewrite fmap_cons, Hx. destruct l; [done |].
  rewrite fmap_cons. cbn [Str.join]. by rewrite StrFacts.app_cons.
Qed.

(** Rewriting a list of record ids that all lie in [fmap] succeeds, and
    every identifier it lists is [format_id r] for a position [r] of the
    output. *)
Lemma relink_Ok fmap index K l :
  (∀ x, x ∈ l → ∃ k, fmap !! x = Some k ∧ k < K) →
  (∀ k, k < K → ∃ r, index !! k = Some r ∧ r < K) →
  ∃ field, relink fmap index (link_field l) = Ok field
    ∧ ∀ tok, tok ∈ links field → ∃ r, r < K ∧ tok = format_id r.
Proof.
  intros Hl Hindex. destruct l as [|x0 l0] eqn:Hleq.
  { exists None. split; [done |]. intros tok Htok. by apply elem_of_nil in Htok. }
  rewrite <- Hleq in *. unfold relink.
  assert (link_field l = Some (Str.join "," (Str.of_nat <$> l))) as ->
    by (by rewrite Hleq).
  assert (Str.truthy (Some (Str.join "," (Str.of_nat <$> l))) = true) as ->
    by (rewrite Hleq; apply truthy_join_of_nat).
  rewrite StrFacts.split_join.
  2: { by rewrite Hleq. }
  2: { apply Forall_fmap, Forall_forall. intros x _.
       by apply of_nat_no_char. }
  destruct (mapR_Forall (λ x, n ← Str.to_nat x; getitem fmap n)
              (λ k, k < K) (Str.of_nat <$> l)) as (ids & -> & Hids & Hlen).
  { apply Forall_fmap, Forall_forall. intros x Hx.
    destruct (Hl x Hx) as (k & Hk & HkK). exists k. simpl.
    rewrite StrFacts.to_nat_of_nat. simpl. unfold getitem.
    by rewrite Hk. }
  simpl.
  destruct (mapR_Forall (λ x, r ← getindex index x; Ok (format_id r))
              (λ tok, ∃ r, r < K ∧ tok = format_id r)
              (set_iter (list_to_set ids : gset nat)))
    as (toks & -> & Htoks & Hlen').
  { apply Forall_forall. intros k Hk%elem_of_set_iter%elem_of_list_to_set.
    rewrite Forall_forall in Hids.
    destruct (Hindex k (Hids k Hk)) as (r & Hr & HrK).
    exists (format_id r). unfold getindex. rewrite Hr. simpl. eauto. }
  simpl. eexists. split; [done |]. simpl.
  rewrite StrFacts.split_join.
  - by apply Forall_forall.
  - intros ->. simpl in Hlen'. symmetry in Hlen'.
    apply length_zero_iff_nil in Hlen'.
    rewrite length_fmap, Hleq in Hlen.
    destruct ids as [|k ids]; [done |].
    assert (k ∈ set_iter (list_to_set (k :: ids) : gset nat)) as Hin.
    { apply elem_of_set_iter, elem_of_list_to_set. left. }
    rewrite Hlen' in Hin. by apply elem_of_nil in Hin.
  - eapply Forall_impl; [exact Htoks |].
    intros tok (r & _ & ->). apply format_id_no_space.
Qed.

(** The queries answer with ids of collected records. *)
Definition queries_in_range (summits : list summit) (distance : Q) : Prop :=
  ∀ i sm x, summits !! i = Some sm →
    x ∈ squery summits distance sm ∨ x ∈ cquery summits distance sm →
    x < length summits.

Lemma queries_matches_in_range summits distance :
  queries_in_range summits distance → matches_in_range summits distance.
Proof. intros Hq i sm x Hsm Hs _. apply (Hq i sm); auto. Qed.

Section linking_facts.
Variable summits : list summit.
Variable distance : Q.
Hypothesis Hne : summits ≠ [].
Hypothesis Hself : self_matching summits distance.
Hypothesis Hrange : queries_in_range summits distance.

Local Abbreviation st_ := (match_all summits distance).
Local Abbreviation gl_ := (set_iter (groups (dmatch st_))).

Lemma group_list_valid :
  Forall (λ m, m ≠ [] ∧ members_valid summits st_ m) gl_.
Proof.
  apply Forall_forall. intros m (x & Hx)%elem_of_set_iter%elem_of_groups.
  pose proof (match_all_chained summits distance) as Hc. split.
  - intros ->. apply (chained_self _ _ Hc) in Hx. by apply elem_of_nil in Hx.
  - intros j Hj.
    assert (j < length summits) as Hjn.
    { apply (grouped_in_range summits distance j m).
      - by apply queries_matches_in_range.
      - by apply (chained_closed _ _ Hc x). }
    by rewrite smatch_match_all, cmatch_match_all, !length_fmap.
Qed.

Lemma record_in_group_list i :
  i < length summits → ∃ m, m ∈ gl_ ∧ i ∈ m.
Proof.
  intros Hi.
  destruct (record_grouped summits distance i Hself Hi) as (g & Hd & Hig).
  exists g. split; [| done]. apply elem_of_set_iter, elem_of_groups. eauto.
Qed.

Lemma group_smatch_in_range m x :
  x ∈ group_smatch st_ m → x < length summits.
Proof.
  unfold group_smatch. intros (i & Hx & _)%list_elem_of_bind.
  rewrite smatch_match_all, list_lookup_fmap in Hx.
  destruct (summits !! i) as [sm|] eqn:Hsm; simpl in Hx;
    [| by apply elem_of_nil in Hx].
  apply list_elem_of_filter in Hx as [_ Hx]. apply (Hrange i sm); auto.
Qed.

Lemma group_cmatch_in_range m x :
  x ∈ group_cmatch st_ m → x < length summits.
Proof.
  unfold group_cmatch. intros (i & Hx & _)%list_elem_of_bind.
  rewrite cmatch_match_all, list_lookup_fmap in Hx.
  destruct (summits !! i) as [sm|] eqn:Hsm; simpl in Hx;
    [| by apply elem_of_nil in Hx].
  apply list_elem_of_filter in Hx as [_ Hx]. apply (Hrange i sm); auto.
Qed.

(** The run over a batch that is not empty succeeds, and every identifier
    listed in a [Merge] or [Cross] value names a feature of the output. *)
Lemma merge_summits_links :
  ∃ out, merge_summits summits distance = Ok out
    ∧ out ≠ []
    ∧ ∀ f tok, f ∈ out → tok ∈ links (Merge f) ++ links (Cross f) →
        ∃ f', f' ∈ out ∧ ID f' = Some tok.
Proof.
  unfold merge_summits.
  destruct (aggregate_Ok summits st_ gl_ [] ∅ group_list_valid)
    as (built & fmap & -> & Hlen & Hbuilt & Hval & Hdom).
  simpl. set (K := length built).
  assert (0 < length summits) as Hn by (destruct summits; [done | simpl; lia]).
  assert (0 < K) as HK.
  { destruct (record_in_group_list 0 Hn) as (m & Hm & _).
    unfold K. rewrite Hlen. destruct gl_; [by apply elem_of_nil in Hm |].
    simpl; lia. }
  assert (Hfmap : ∀ x, x < length summits → ∃ k, fmap !! x = Some k ∧ k < K).
  { intros x Hx. destruct (record_in_group_list x Hx) as (m & Hm & Hxm).
    destruct (Hdom x) as [k Hk]; [right; eauto |].
    exists k. split; [done |].
    destruct (Hval x k Hk) as [Hk' | Hk']; [by rewrite lookup_empty in Hk' |].
    simpl in Hk'. unfold K. by rewrite Hlen. }
  assert (length (ranked built) = K) as Hrk
    by (by rewrite ranked_perm, length_enumerate).
  unfold unzip_ranked.
  destruct (ranked built) as [|e0 r0] eqn:Hr; [simpl in Hrk; lia |].
  rewrite <- Hr in *. simpl.
  set (index := invert (ranked built).*1).
  assert (Hindex : ∀ k, k < K → ∃ r, index !! k = Some r ∧ r < K).
  { intros k Hk.
    destruct (lookup_lt_is_Some_2 index k) as [r Hr'].
    { unfold index. by rewrite length_invert, length_fmap, Hrk. }
    exists r. split; [done |].
    assert ((ranked built).*1 !! r = Some k) as Hr2.
    { apply (invert_lookup _ K k r); [apply ranked_index_perm | exact Hr']. }
    apply lookup_lt_Some in Hr2. by rewrite length_fmap, Hrk in Hr2. }
  destruct (mapR_Forall (finish fmap index)
              (λ f', ∀ tok, tok ∈ links (Merge f') ++ links (Cross f') →
                       ∃ r, r < K ∧ tok = format_id r)
              (enumerate (ranked built).*2)) as (out & Hout & HP & Hlen').
  { apply Forall_forall. intros [i f] Hf0%enumerate_elem_of%list_elem_of_lookup_2.
    assert (f ∈ built) as Hfb.
    { apply list_elem_of_fmap in Hf0 as ([k f1] & -> & Hin).
      rewrite ranked_perm in Hin. apply enumerate_elem_of in Hin.
      by eapply list_elem_of_lookup_2. }
    rewrite Forall_forall in Hbuilt.
    destruct (Hbuilt f Hfb) as (m & Hm & HM & HC).
    destruct (relink_Ok fmap index K (group_smatch st_ m))
      as (mg & Hmg & Htm); [| done |].
    { intros x Hx. apply Hfmap. by eapply group_smatch_in_range. }
    destruct (relink_Ok fmap index K (group_cmatch st_ m))
      as (cr & Hcr & Htc); [| done |].
    { intros x Hx. apply Hfmap. by eapply group_cmatch_in_range. }
    eexists. unfold finish. rewrite HM, HC, Hmg, Hcr. simpl.
    split; [done |]. simpl.
    intros tok [Ht | Ht]%elem_of_app; auto. }
  exists out. rewrite length_enumerate, length_fmap, Hrk in Hlen'.
  split_and!; [done | |].
  - intros ->. simpl in Hlen'. lia.
  - intros f tok Hf Htok. rewrite Forall_forall in HP.
    destruct (HP f Hf tok Htok) as (r & HrK & ->).
    destruct (lookup_lt_is_Some_2 out r) as [f' Hf']; [lia |].
    exists f'. split; [by eapply list_elem_of_lookup_2 |].
    apply mapR_Ok in Hout.
    destruct (Forall2_lookup_r _ _ _ _ _ Hout Hf') as ([i f0] & He & Hfin).
    apply enumerate_lookup in He as (f1 & [= -> ->] & _).
    by apply finish_Ok in Hfin as (_ & ? & _).
Qed.

End linking_facts.

(** C4 (amended).  For a batch that is not empty, with every record coming
    back from its own queries and the queries answering with ids of
    collected records, the run produces its features, and every identifier
    listed in a feature's [Merge] or [Cross] value is the [ID] of a feature
    of the same output. *)
Theorem links_resolve (summits : list summit) (distance : Q) :
  summits ≠ [] →
  self_matching summits distance →
  queries_in_range summits distance →
  ∃ out, merge_summits summits distance = Ok out
    ∧ out ≠ []
    ∧ ∀ f tok, f ∈ out → tok ∈ links (Merge f) ++ links (Cross f) →
        ∃ f', f' ∈ out ∧ ID f' = Some tok.
Proof. apply merge_summits_links. Qed.

(** *** Properties of the layer configuration *)

(** The recognised DEM names, in the order of [layerList]. *)
Definition DEMS : list string := ["SRTM"; "ASTER"; "ALOS"; "TDX"; "GLO30"].

(** The DEM a layer is filed under: [m.group(0).upper()]. *)
Definition tag (l : layer) : option string :=
  Str.upper <$> re_search DEMS (name l).

(** Some layer name holds no DEM name, or two layers are filed under the
    same DEM. *)
Definition misconfigured (layers : list layer) : Prop :=
  (∃ l, l ∈ layers ∧ tag l = None)
  ∨ (∃ i j li lj, i < j ∧ layers !! i = Some li ∧ layers !! j = Some lj
                  ∧ tag li = tag lj).

(** The DEM names are found in the layer names in upper case. *)
Definition upper_case_tags (layers : list layer) : Prop :=
  ∀ l m, l ∈ layers → re_search DEMS (name l) = Some m → Str.upper m = m.

Lemma match_ci_upper p text m :
  match_ci p text = Some m → Str.upper m = Str.upper p.
Proof.
  revert text m. induction p as [|a p IH]; intros text m; simpl.
  - by intros [= <-].
  - destruct text as [|b t]; [done |].
    destruct (Ascii.eqb_spec (Str.upper_char a) (Str.upper_char b)) as [Hab|];
      [| done].
    destruct (match_ci p t) as [m'|] eqn:Hm; simpl; [| done].
    intros [= <-]. simpl. rewrite (IH _ _ Hm). by rewrite Hab.
Qed.

Lemma match_alt_upper alts text m :
  match_alt alts text = Some m → ∃ p, p ∈ alts ∧ Str.upper m = Str.upper p.
Proof.
  induction alts as [|p alts IH]; simpl; [done |].
  destruct (match_ci p text) as [m'|] eqn:Hm.
  - intros [= <-]. exists p. split; [left | by eapply match_ci_upper].
  - intros (q & Hq & ?)%IH. exists q. split; [by right | done].
Qed.

Lemma re_search_upper alts text m :
  re_search alts text = Some m → ∃ p, p ∈ alts ∧ Str.upper m = Str.upper p.
Proof.
  induction text as [|a text IH]; simpl.
  - destruct (match_alt alts "") eqn:Hm; [| done].
    intros [= <-]. by eapply match_alt_upper.
  - destruct (match_alt alts (String a text)) eqn:Hm.
    + intros [= <-]. by eapply match_alt_upper.
    + apply IH.
Qed.

Lemma re_search_DEMS text m :
  re_search DEMS text = Some m → Str.upper m ∈ DEMS.
Proof.
  intros (p & Hp & ->)%re_search_upper.
  unfold DEMS in *. repeat (apply elem_of_cons in Hp as [-> | Hp]);
    [set_solver .. | by apply elem_of_nil in Hp].
Qed.

Lemma dict_get_key {V} (d : list (string * V)) k :
  k ∈ d.*1 → ∃ v, dict_get d k = Ok v.
Proof.
  induction d as [|[k' v'] d IH]; simpl.
  - intros Hk. by apply elem_of_nil in Hk.
  - destruct (String.eqb_spec k' k) as [-> | Hne]; [eauto |].
    intros [? | ?]%elem_of_cons; [by subst | auto].
Qed.

Lemma dict_get_raise {V} (d : list (string * V)) k e :
  dict_get d k = Raise e → e = KeyError.
Proof.
  induction d as [|[k' v'] d IH]; simpl; [by intros [= <-] |].
  destruct (String.eqb k' k); [done | auto].
Qed.

Lemma dict_set_keys {V} (d : list (string * V)) k v :
  k ∈ d.*1 → (dict_set d k v).*1 = d.*1.
Proof.
  induction d as [|[k' v'] d IH]; simpl.
  - intros Hk. by apply elem_of_nil in Hk.
  - destruct (String.eqb_spec k' k) as [-> | Hne]; [done |].
    intros [? | ?]%elem_of_cons; [by subst |]. simpl. f_equal. auto.
Qed.

Lemma dict_get_set {V} (d : list (string * V)) k v k' :
  dict_get (dict_set d k v) k'
  = if decide (k = k') then Ok v else dict_get d k'.
Proof.
  induction d as [|[k0 v0] d IH]; simpl.
  - destruct (String.eqb_spec k k') as [-> | Hne].
    + by rewrite decide_True.
    + by rewrite decide_False.
  - destruct (String.eqb_spec k0 k) as [-> | Hne]; simpl.
    + destruct (String.eqb_spec k k') as [-> | Hne'].
      * by rewrite decide_True.
      * by rewrite decide_False.
    + destruct (String.eqb_spec k0 k') as [-> | Hne'].
      * by rewrite decide_False.
      * apply IH.
Qed.

(** What makes [configure] fail on [layers] when [layerList] already holds
    some layers. *)
Definition rejects (layerList : list (string * option layer))
    (layers : list layer) : Prop :=
  (∃ l, l ∈ layers ∧ tag l = None)
  ∨ (∃ l t seen, l ∈ layers ∧ tag l = Some t
                 ∧ dict_get layerList t = Ok (Some seen))
  ∨ (∃ i j li lj, i < j ∧ layers !! i = Some li ∧ layers !! j = Some lj
                  ∧ tag li = tag lj).

Lemma configure_rejects layers : ∀ fb layerList,
  never_canceled fb → layerList.*1 = DEMS → rejects layerList layers →
  ∃ e, configure fb layerList layers = Raise e
       ∧ (upper_case_tags layers → ∃ msg, e = QgsProcessingException msg).
Proof.
  induction layers as [|l layers IH]; intros fb ll Hfb Hkeys Hrej.
  { exfalso. destruct Hrej as [(l & Hl & _) | [(l & t & s' & Hl & _)
      | (i & j & li & lj & _ & Hi & _)]].
    - by apply elem_of_nil in Hl.
    - by apply elem_of_nil in Hl.
    - by rewrite lookup_nil in Hi. }
  simpl. destruct (isCanceled_never fb Hfb) as (fb' & -> & Hfb').
  rewrite Hkeys.
  destruct (re_search DEMS (name l)) as [m|] eqn:Hm; [| by eauto].
  assert (tag l = Some (Str.upper m)) as Htag by (unfold tag; by rewrite Hm).
  pose proof (re_search_DEMS _ _ Hm) as Hin. rewrite <- Hkeys in Hin.
  destruct (dict_get_key ll _ Hin) as [seen Hseen]. rewrite Hseen. simpl.
  destruct seen as [seen|].
  - destruct (dict_get ll m) as [[other|]|e] eqn:Hother; simpl.
    + eauto.
    + eexists. split; [done |]. intros Hup.
      rewrite <- (Hup l m) in Hother; [congruence | left | done].
    + eexists. split; [done |]. intros Hup.
      rewrite <- (Hup l m) in Hother; [congruence | left | done].
  - destruct (IH fb' (dict_set ll (Str.upper m) (Some l))) as (e & -> & He).
    + done.
    + by rewrite dict_set_keys.
    + destruct Hrej as [(l' & Hl' & Ht') | [(l' & t & s' & Hl' & Ht' & Hd)
        | (i & j & li & lj & Hij & Hi & Hj & Ht)]].
      * left. exists l'. split; [| done].
        apply elem_of_cons in Hl' as [-> | ?]; [congruence | done].
      * right; left. exists l', t.
        apply elem_of_cons in Hl' as [-> | Hl']; [congruence |].
        rewrite dict_get_set. case_decide; eauto.
      * destruct i as [|i]; destruct j as [|j]; try lia; simpl in *.
        -- right; left. assert (li = l) as -> by congruence.
           exists lj, (Str.upper m), l.
           split_and!; [by eapply list_elem_of_lookup_2 | congruence |].
           rewrite dict_get_set. by rewrite decide_True.
        -- right; right. exists i, j, li, lj. split_and!; [lia | done ..].
    + exists e. split; [done |]. intros Hup. apply He.
      intros l' m' Hl'. apply Hup. by right.
Qed.

(** C6 (amended).  When the host does not cancel and some layer name holds
    no DEM name, or two layer names are filed under the same DEM (the
    leftmost DEM name found in each), the run raises an exception and hands
    no feature to the sink; with the DEM names written in upper case in the
    layer names the exception is the [QgsProcessingException]. *)
Theorem configuration_errors (fb : feedback) (layers : list layer)
    (distance : Q) :
  never_canceled fb →
  misconfigured layers →
  ∃ e, processAlgorithm fb layers distance = Raise e
       ∧ (upper_case_tags layers → ∃ msg, e = QgsProcessingException msg).
Proof.
  intros Hfb Hmis. unfold processAlgorithm.
  destruct (configure_rejects layers fb layerList_init Hfb) as (e & -> & He).
  - done.
  - destruct Hmis as [? | ?]; [by left | by right; right].
  - by exists e.
Qed.

End processAlgorithm.
End MergeSummitLayers.

(** ** Runs of the merge on small batches *)

Module MergeRuns.
Import MergeSummitLayers GroupBuilder.

(** Points with integer coordinates, and an index that searches
    exhaustively: the [neighbors] nearest features, together with those as
    far away as the last of them, and only features within [maxDistance]
    when that is positive, as [QgsSpatialIndex.nearestNeighbor] documents
    it. *)
Definition Point : Type := Z * Z.

Definition dist2 (p q : Point) : Z := ((p.1 - q.1) ^ 2 + (p.2 - q.2) ^ 2)%Z.

Definition within (d : Q) (p q : Point) : bool :=
  Qle_bool d 0 || Qle_bool (inject_Z (dist2 p q)) (d * d).

Fixpoint take_nearest (k : nat) (last : option Z) (l : list (nat * Z))
    : list nat :=
  match l with
  | [] => []
  | (i, d) :: l' =>
    match k with
    | S k' => i :: take_nearest k' (Some d) l'
    | O => if decide (last = Some d) then i :: take_nearest O last l' else []
    end
  end.

Definition nearestNeighbor (idx : list (nat * Point)) (p : Point) (k : nat)
    (d : Q) : list nat :=
  take_nearest k None
    (sorted_by (λ a b : nat * Z, (a.2 <=? b.2)%Z)
       ((λ e : nat * Point, (e.1, dist2 p e.2))
          <$> filter (λ e : nat * Point, within d p e.2 = true) idx)).

Definition vertexAt (g : list Point) (i : Z) : Point :=
  if (0 <=? i)%Z then nth (Z.to_nat i) g (0, 0)%Z else (0, 0)%Z.

(** This index answers with ids it holds, and a feature lying on the query
    point is among the nearest: every batch satisfies what the properties
    of the grouping and of the links ask of the index. *)
Lemma dist2_self p : dist2 p p = 0%Z.
Proof. unfold dist2. rewrite !Z.sub_diag. reflexivity. Qed.

Lemma dist2_nonneg p q : (0 ≤ dist2 p q)%Z.
Proof. unfold dist2. nia. Qed.

Lemma within_self d p : within d p p = true.
Proof.
  unfold within. rewrite dist2_self.
  destruct (Qle_bool d 0) eqn:Hd; [done |]. simpl.
  apply Qle_bool_iff. apply Qmult_le_0_compat;
    apply Qlt_le_weak, Qnot_le_lt; intros Hle%Qle_bool_iff; congruence.
Qed.

Lemma take_nearest_subset k last l x :
  x ∈ take_nearest k last l → x ∈ l.*1.
Proof.
  revert k last. induction l as [|[i d] l IH]; intros k last; simpl.
  - intros Hx. by apply elem_of_nil in Hx.
  - destruct k as [|k].
    + case_decide; [| intros Hx; by apply elem_of_nil in Hx].
      intros [-> | Hx]%elem_of_cons; [left | right; eauto].
    + intros [-> | Hx]%elem_of_cons; [left | right; eauto].
Qed.

Lemma take_nearest_zero k last l i :
  StronglySorted (λ a b : nat * Z, (a.2 ≤ b.2)%Z) l →
  Forall (λ e : nat * Z, (0 ≤ e.2)%Z) l →
  (i, 0%Z) ∈ l → 0 < k ∨ last = Some 0%Z →
  i ∈ take_nearest k last l.
Proof.
  intros Hs. revert k last.
  induction Hs as [|[j dj] l Hs IH Hj]; intros k last Hpos Hin Hk.
  { by apply elem_of_nil in Hin. }
  apply Forall_cons in Hpos as [Hdj Hpos]. simpl in Hdj.
  apply elem_of_cons in Hin as [[= <- <-] | Hin]; simpl.
  - destruct k as [|k]; [| left].
    destruct Hk as [? | ->]; [lia |]. rewrite decide_True by done. left.
  - assert (dj = 0%Z) as ->.
    { rewrite Forall_forall in Hj. specialize (Hj _ Hin). simpl in Hj. lia. }
    destruct k as [|k].
    + destruct Hk as [? | ->]; [lia |]. rewrite decide_True by done.
      right. apply IH; auto.
    + right. apply IH; auto.
Qed.

Lemma nearestNeighbor_ids idx p k d x :
  x ∈ nearestNeighbor idx p k d → x ∈ idx.*1.
Proof.
  unfold nearestNeighbor. intros Hx%take_nearest_subset.
  rewrite sorted_by_perm in Hx.
  apply list_elem_of_fmap in Hx as (e & -> & He).
  apply list_elem_of_fmap in He as (e' & -> & He).
  apply list_elem_of_filter in He as [_ He]. simpl.
  apply list_elem_of_fmap. by exists e'.
Qed.

Lemma nearestNeighbor_self idx i p k d :
  (i, p) ∈ idx → 0 < k → i ∈ nearestNeighbor idx p k d.
Proof.
  intros Hin Hk. unfold nearestNeighbor. apply take_nearest_zero; [| | | auto].
  - generalize ((λ e : nat * Point, (e.1, dist2 p e.2))
       <$> filter (λ e : nat * Point, within d p e.2 = true) idx).
    intros l. induction l as [|x l IH]; simpl; [constructor |].
    apply insert_by_sorted; [| | done].
    + intros a b c ??. lia.
    + intros y _. destruct (Z.leb_spec x.2 y.2); lia.
  - apply Forall_forall. intros e. rewrite sorted_by_perm.
    intros ([j q] & -> & _)%list_elem_of_fmap. apply dist2_nonneg.
  - rewrite sorted_by_perm. apply list_elem_of_fmap.
    exists (i, p). split; [by rewrite dist2_self |].
    apply list_elem_of_filter. split; [apply within_self | done].
Qed.

Lemma exhaustive_self_matching {G} (summits : list (@summit Point G)) distance :
  self_matching nearestNeighbor summits distance.
Proof.
  intros i sm Hsm. split; apply nearestNeighbor_self; try lia.
  - unfold sisummit. apply elem_of_lookup_imap. eauto.
  - unfold sicol. apply elem_of_lookup_imap. eauto.
Qed.

Lemma exhaustive_queries_in_range {G} (summits : list (@summit Point G))
    distance :
  queries_in_range nearestNeighbor summits distance.
Proof.
  intros i sm x _ [Hx | Hx]; apply nearestNeighbor_ids in Hx;
    apply list_elem_of_fmap in Hx
      as (e & -> & (j & sm' & -> & Hj)%elem_of_lookup_imap);
    by apply lookup_lt_Some in Hj.
Qed.

(** With this index every batch that is not empty is merged, and each
    record lies in a group. *)
Lemma exhaustive_merge {G} (summits : list (@summit Point G)) distance :
  summits ≠ [] →
  (∃ out, merge_summits nearestNeighbor summits distance = Ok out ∧ out ≠ [])
  ∧ ∀ i, i < length summits →
      ∃ g, dmatch (match_all nearestNeighbor summits distance) !! i = Some g
           ∧ i ∈ g.
Proof.
  intros Hne. split.
  - destruct (merge_summits_links nearestNeighbor summits distance Hne
                (exhaustive_self_matching _ _)
                (exhaustive_queries_in_range _ _)) as (out & ? & ? & _).
    by exists out.
  - intros i Hi. apply record_grouped; [apply exhaustive_self_matching | done].
Qed.

Definition line (e c : Z) (a b : Point) : @in_feature (list Point) :=
  {| hasGeometry := true; geometry := [a; b];
     Elevation := e; Col_elevation := c |}.

Definition run (fb : feedback) (layers : list (@layer (list Point)))
    (distance : Q) : result (list feature) :=
  processAlgorithm vertexAt (@length Point) nearestNeighbor fb layers distance.

Definition collect (layers : list (@layer (list Point)))
    : list (@summit Point (list Point)) :=
  match configure [] layerList_init layers with
  | Ok (fb, layerList) => ingest vertexAt (@length Point) fb layerList []
  | Raise _ => []
  end.

(** Three detections of one summit: the summit vertices coincide within
    the distance, the col vertices lie 4 apart on a line, so the first and
    the third col are 8 apart. *)
Definition chain_layers : list (@layer (list Point)) :=
  [ {| name := "SRTM"; getFeatures := [line 1500 1000 (0, 0)%Z (0, 100)%Z] |};
    {| name := "ASTER"; getFeatures := [line 1502 1003 (0, 1)%Z (4, 100)%Z] |};
    {| name := "ALOS"; getFeatures := [line 1499 999 (0, 2)%Z (8, 100)%Z] |} ].

Definition chain_summits : list (@summit Point (list Point)) :=
  Eval vm_compute in collect chain_layers.

(** Three summits far from each other, with prominences 120, 450, 300. *)
Definition three_layers : list (@layer (list Point)) :=
  [ {| name := "SRTM";
       getFeatures := [ line 1120 1000 (0, 0)%Z (0, 100)%Z;
                        line 1450 1000 (1000, 0)%Z (1000, 100)%Z;
                        line 1300 1000 (2000, 0)%Z (2000, 100)%Z ] |} ].

(** A layer whose name holds two DEM names. *)
Definition difference_layers : list (@layer (list Point)) :=
  [ {| name := "SRTM_minus_ALOS";
       getFeatures := [line 1120 1000 (0, 0)%Z (0, 100)%Z] |} ].

(** Two layers of the same DEM. *)
Definition srtm_twice : list (@layer (list Point)) :=
  [ {| name := "SRTM_north"; getFeatures := [line 1120 1000 (0, 0)%Z (0, 100)%Z] |};
    {| name := "SRTM_south"; getFeatures := [line 1450 1000 (9, 0)%Z (9, 100)%Z] |} ].

Lemma elem_of_check (x : nat) (l : list nat) :
  bool_decide (x ∈ l) = true → x ∈ l.
Proof. apply bool_decide_eq_true_1. Qed.

Lemma all_below_check (l : list nat) (n : nat) :
  forallb (λ x, x <? n) l = true → ∀ x, x ∈ l → x < n.
Proof.
  intros Hall x Hx%list_elem_of_In. rewrite forallb_forall in Hall.
  by apply Nat.ltb_lt, Hall.
Qed.

Lemma chain_self_matching : self_matching nearestNeighbor chain_summits 5.
Proof.
  intros i sm Hsm.
  destruct i as [|[|[|i]]]; simpl in Hsm; [| | | done];
    injection Hsm as <-; split; apply elem_of_check; vm_compute; reflexivity.
Defined.

Lemma chain_queries_in_range : queries_in_range nearestNeighbor chain_summits 5.
Proof.
  intros i sm x Hsm Hx.
  destruct i as [|[|[|i]]]; simpl in Hsm; [| | | done];
    injection Hsm as <-; destruct Hx as [Hx | Hx]; revert x Hx;
    apply all_below_check; vm_compute; reflexivity.
Defined.

(** Two detections 3 apart at the summit and 4 apart at the col, within a
    distance of 5: one feature with the columns of both DEMs and no
    links. *)
Example pair_run :
  (λ f, (ID f, Prominence f, dem_Elevation f !! "SRTM",
         dem_Elevation f !! "ALOS", Merge f, Cross f))
    <$$> run []
           [ {| name := "srtm"; getFeatures := [line 1500 1000 (0, 0)%Z (0, 100)%Z] |};
             {| name := "Alos30"; getFeatures := [line 1504 1002 (3, 0)%Z (4, 100)%Z] |} ]
           5
  = Ok [(Some "S0001", 1002 # 2, Some 1500%Z, Some 1504%Z, None, None)]%Q.
Proof. vm_compute. reflexivity. Qed.

(** The three detections end up in one feature, whose [Merge] value names
    the feature itself. *)
Example chain_run :
  (λ f, (ID f, Prominence f, Merge f, Cross f)) <$$> run [] chain_layers 5
  = Ok [(Some "S0001", 1499 # 3, Some "S0001", None)]%Q.
Proof. vm_compute. reflexivity. Qed.

(** The matcher on the first of the three detections: the third one is
    near at the summit only. *)
Lemma matcher_queries_chain :
  ∃ sm, chain_summits !! 0 = Some sm
    ∧ smatch (match_all nearestNeighbor chain_summits 5) !! 0 = Some [2]
    ∧ cmatch (match_all nearestNeighbor chain_summits 5) !! 0 = Some [].
Proof.
  eexists. split; [reflexivity |].
  destruct (matcher_queries nearestNeighbor chain_summits 5 0 _ eq_refl)
    as (_ & _ & Hs & Hc & _).
  split; [exact Hs | exact Hc].
Defined.

Lemma grouping_partition_chain :
  self_matching nearestNeighbor chain_summits 5
  ∧ matches_in_range nearestNeighbor chain_summits 5
  ∧ ∀ i, i < 3 →
      ∃ g, g ∈ groups (dmatch (match_all nearestNeighbor chain_summits 5))
           ∧ i ∈ g.
Proof.
  split_and!.
  - exact chain_self_matching.
  - exact (queries_matches_in_range _ _ _ chain_queries_in_range).
  - destruct (grouping_partition nearestNeighbor chain_summits 5
                chain_self_matching
                (queries_matches_in_range _ _ _ chain_queries_in_range))
      as (Hp & _).
    intros i Hi. destruct (Hp i Hi) as (g & Hg & Hig & _). by exists g.
Defined.

Lemma chain_members_valid :
  members_valid chain_summits (match_all nearestNeighbor chain_summits 5)
    [0; 1; 2].
Proof.
  intros i Hi.
  assert (i < 3) as Hlt
    by (revert i Hi; apply all_below_check; vm_compute; reflexivity).
  change (i < 3 ∧ i < 3 ∧ i < 3). by split_and!.
Defined.

Lemma aggregate_prominence_chain :
  [0; 1; 2] ≠ []
  ∧ members_valid chain_summits (match_all nearestNeighbor chain_summits 5)
      [0; 1; 2]
  ∧ ∃ f fmap,
      aggregate_group chain_summits (match_all nearestNeighbor chain_summits 5)
        0 ∅ [0; 1; 2] = Ok (f, fmap)
      ∧ (Prominence f == 1499 # 3)%Q.
Proof.
  split_and!; [discriminate | exact chain_members_valid |].
  destruct (aggregate_prominence chain_summits
              (match_all nearestNeighbor chain_summits 5) 0 ∅ [0; 1; 2]
              ltac:(discriminate) chain_members_valid)
    as (f & fmap & Hf & Hp & _).
  exists f, fmap. split; [exact Hf |].
  rewrite Hp. vm_compute. reflexivity.
Defined.

Lemma links_resolve_chain :
  chain_summits ≠ []
  ∧ self_matching nearestNeighbor chain_summits 5
  ∧ queries_in_range nearestNeighbor chain_summits 5
  ∧ ∃ out, merge_summits nearestNeighbor chain_summits 5 = Ok out ∧ out ≠ [].
Proof.
  split_and!;
    [discriminate | exact chain_self_matching | exact chain_queries_in_range |].
  destruct (links_resolve nearestNeighbor chain_summits 5
              ltac:(discriminate) chain_self_matching chain_queries_in_range)
    as (out & Hout & Hne & _).
  by exists out.
Defined.

(** The merged feature of the three detections lists its own identifier
    in [Merge]. *)
Lemma self_link_chain :
  ∃ out f, run [] chain_layers 5 = Ok out ∧ f ∈ out
    ∧ ID f = Some "S0001" ∧ "S0001" ∈ links (Merge f).
Proof.
  eexists _, _. split_and!.
  - vm_compute. reflexivity.
  - apply list_elem_of_here.
  - reflexivity.
  - apply list_elem_of_here.
Qed.

(** The summit with prominence 120 is the third in the output, the one
    with 300 the second. *)
Lemma three_summits_identifiers :
  (λ f, (Prominence f, ID f)) <$$> run [] three_layers 5
  = Ok [(450, Some "S0001"); (300, Some "S0002"); (120, Some "S0003")]%Q
  ∧ ¬ ∃ out f, run [] three_layers 5 = Ok out ∧ f ∈ out
        ∧ Prominence f = 120%Q ∧ ID f = Some "S0002".
Proof.
  split; [vm_compute; reflexivity |].
  intros (out & f & Hrun & Hf & Hp & Hid).
  assert ((Prominence f, ID f)
          ∈ [(450, Some "S0001"); (300, Some "S0002"); (120, Some "S0003")]%Q)
    as Hin.
  { assert ((λ f, (Prominence f, ID f)) <$$> run [] three_layers 5
            = Ok ((λ f, (Prominence f, ID f)) <$> out)) as Heq
      by (by rewrite Hrun).
    vm_compute in Heq. injection Heq as Heq. rewrite Heq.
    apply list_elem_of_fmap. by exists f. }
  rewrite Hp, Hid in Hin.
  repeat (apply elem_of_cons in Hin as [Hin | Hin]; [discriminate |]).
  by apply elem_of_nil in Hin.
Qed.

(** A layer named after two DEMs is filed under the leftmost name, and the
    run goes through. *)
Lemma two_names_accepted :
  Str.contains "SRTM" "SRTM_minus_ALOS" = true
  ∧ Str.contains "ALOS" "SRTM_minus_ALOS" = true
  ∧ ∃ out, run [] difference_layers 5 = Ok out ∧ out ≠ [].
Proof.
  split_and!; [reflexivity | reflexivity |].
  eexists. split; [vm_compute; reflexivity | discriminate].
Qed.

Lemma srtm_twice_upper_case : upper_case_tags srtm_twice.
Proof.
  intros l m Hl.
  repeat (apply elem_of_cons in Hl as [-> | Hl]);
    [| | by apply elem_of_nil in Hl];
    vm_compute; by intros [= <-].
Defined.

Lemma configuration_errors_srtm_twice :
  never_canceled []
  ∧ misconfigured srtm_twice
  ∧ ∃ msg, run [] srtm_twice 5 = Raise (QgsProcessingException msg).
Proof.
  assert (Hmis : misconfigured srtm_twice).
  { right. eexists 0, 1, _, _.
    split_and!; [lia | reflexivity | reflexivity | reflexivity]. }
  split_and!; [constructor | exact Hmis |].
  destruct (configuration_errors vertexAt (@length Point) nearestNeighbor
              [] srtm_twice 5 ltac:(constructor) Hmis) as (e & He & Hup).
  destruct (Hup srtm_twice_upper_case) as (msg & ->).
  by exists msg.
Defined.

(** With the DEM name in lower case the second layer of a DEM fails on the
    lookup that builds the message. *)
Example srtm_twice_lower_case :
  run [] [ {| name := "srtm_north"; getFeatures := [] |};
           {| name := "srtm_south"; getFeatures := [] |} ] 5
  = Raise KeyError.
Proof. reflexivity. Qed.

(** Cancelling before the layer with the unknown name is reached lets the
    run go on with the layers seen so far. *)
Example canceled_before_unknown :
  (λ f, ID f) <$$>
    run [false; true]
      [ {| name := "SRTM"; getFeatures := [line 1120 1000 (0, 0)%Z (0, 100)%Z] |};
        {| name := "unknown"; getFeatures := [] |} ] 5
  = Ok [Some "S0001"].
Proof. vm_compute. reflexivity. Qed.

End MergeRuns.

(** ** topo_match.py and topo_match_m.py: the layers *)

Module Topo25.

(** A feature of the summit layer (the output of the merge, so every
    feature has its [ID]); an attribute that is NULL is [None]; the
    geometry is the list of its vertices. *)
Record feature {Point : Type} := {
  fid : option nat;
  ID : string;
  Name : option string;
  Elevation : option Z;
  Col_elevation : option Z;
  Reference : option string;
  Prominence : option Z;
  Notes : option string;
  geometry : list Point
}.
Arguments feature : clear implicits.

(** A feature of the topo25 reference layer. *)
Record ref_feature {Point : Type} := {
  hasGeometry : bool;
  action : option string;
  ref : option string;
  name : option string;
  check_ele : option string;
  check_col : option string;
  Match : option string;
  r_geometry : list Point
}.
Arguments ref_feature : clear implicits.

Section attributes.
Context {Point : Type}.
Implicit Types (f : feature Point).

Definition set_fid (v : option nat) f : feature Point :=
  {| fid := v; ID := ID f; Name := Name f; Elevation := Elevation f;
     Col_elevation := Col_elevation f; Reference := Reference f;
     Prominence := Prominence f; Notes := Notes f; geometry := geometry f |}.

Definition set_Name (v : option string) f : feature Point :=
  {| fid := fid f; ID := ID f; Name := v; Elevation := Elevation f;
     Col_elevation := Col_elevation f; Reference := Reference f;
     Prominence := Prominence f; Notes := Notes f; geometry := geometry f |}.

Definition set_Elevation (v : option Z) f : feature Point :=
  {| fid := fid f; ID := ID f; Name := Name f; Elevation := v;
     Col_elevation := Col_elevation f; Reference := Reference f;
     Prominence := Prominence f; Notes := Notes f; geometry := geometry f |}.

Definition set_Col_elevation (v : option Z) f : feature Point :=
  {| fid := fid f; ID := ID f; Name := Name f; Elevation := Elevation f;
     Col_elevation := v; Reference := Reference f;
     Prominence := Prominence f; Notes := Notes f; geometry := geometry f |}.

Definition set_Reference (v : option string) f : feature Point :=
  {| fid := fid f; ID := ID f; Name := Name f; Elevation := Elevation f;
     Col_elevation := Col_elevation f; Reference := v;
     Prominence := Prominence f; Notes := Notes f; geometry := geometry f |}.

Definition set_Prominence (v : option Z) f : feature Point :=
  {| fid := fid f; ID := ID f; Name := Name f; Elevation := Elevation f;
     Col_elevation := Col_elevation f; Reference := Reference f;
     Prominence := v; Notes := Notes f; geometry := geometry f |}.

Definition set_Notes (v : option string) f : feature Point :=
  {| fid := fid f; ID := ID f; Name := Name f; Elevation := Elevation f;
     Col_elevation := Col_elevation f; Reference := Reference f;
     Prominence := Prominence f; Notes := v; geometry := geometry f |}.

Definition setGeometry (g : list Point) f : feature Point :=
  {| fid := fid f; ID := ID f; Name := Name f; Elevation := Elevation f;
     Col_elevation := Col_elevation f; Reference := Reference f;
     Prominence := Prominence f; Notes := Notes f; geometry := g |}.

(** [rf['action']] used as a string: NULL is not one. *)
Definition get_action (rf : ref_feature Point) : result string :=
  match action rf with
  | Some a => Ok a
  | None => Raise TypeError
  end.

(** [if f['Elevation'] and f['Col elevation']:
       f['Prominence'] = f['Elevation'] - f['Col elevation']] *)
Definition update_Prominence f : feature Point :=
  if truthyZ (Elevation f) && truthyZ (Col_elevation f) then
    set_Prominence
      (Some (default 0 (Elevation f) - default 0 (Col_elevation f))%Z) f
  else f.

(** [if notes: f['Notes'] = '; '.join(notes)] *)
Definition update_Notes (notes : list string) f : feature Point :=
  match notes with
  | [] => f
  | _ => set_Notes (Some (Str.join "; " notes)) f
  end.

(** [int(s)] for an attribute. *)
Definition int (s : string) : result Z := n ← Str.to_nat s; Ok (Z.of_nat n).

(** [g.vertexAt(i)]; [empty_point] is [QgsPoint()], what it gives past the
    last vertex. *)
Definition vertexAt (empty_point : Point) (g : list Point) (i : nat) : Point :=
  default empty_point (g !! i).

(** [g.moveVertex(p, i)]: nothing moves when there is no vertex [i]. *)
Definition moveVertex (p : Point) (i : nat) (g : list Point) : list Point :=
  <[i := p]> g.

(** [g.vertexAt(g.constGet().nCoordinates() - 1)] *)
Definition last_vertex (empty_point : Point) (g : list Point) : Point :=
  match length g with
  | O => empty_point
  | S n => vertexAt empty_point g n
  end.

End attributes.

Arguments update_Notes : simpl never.
Arguments update_Prominence : simpl never.

(** What the two updates leave alone. *)
Lemma fid_update_Prominence {Point} (f : feature Point) :
  fid (update_Prominence f) = fid f.
Proof. unfold update_Prominence. by case_match. Qed.

Lemma fid_update_Notes {Point} notes (f : feature Point) :
  fid (update_Notes notes f) = fid f.
Proof. unfold update_Notes. by destruct notes. Qed.

Lemma ID_update_Prominence {Point} (f : feature Point) :
  ID (update_Prominence f) = ID f.
Proof. unfold update_Prominence. by case_match. Qed.

Lemma ID_update_Notes {Point} notes (f : feature Point) :
  ID (update_Notes notes f) = ID f.
Proof. unfold update_Notes. by destruct notes. Qed.

Lemma Name_update_Prominence {Point} (f : feature Point) :
  Name (update_Prominence f) = Name f.
Proof. unfold update_Prominence. by case_match. Qed.

Lemma Name_update_Notes {Point} notes (f : feature Point) :
  Name (update_Notes notes f) = Name f.
Proof. unfold update_Notes. by destruct notes. Qed.

Lemma Elevation_update_Prominence {Point} (f : feature Point) :
  Elevation (update_Prominence f) = Elevation f.
Proof. unfold update_Prominence. by case_match. Qed.

Lemma Elevation_update_Notes {Point} notes (f : feature Point) :
  Elevation (update_Notes notes f) = Elevation f.
Proof. unfold update_Notes. by destruct notes. Qed.

Lemma Col_elevation_update_Prominence {Point} (f : feature Point) :
  Col_elevation (update_Prominence f) = Col_elevation f.
Proof. unfold update_Prominence. by case_match. Qed.

Lemma Col_elevation_update_Notes {Point} notes (f : feature Point) :
  Col_elevation (update_Notes notes f) = Col_elevation f.
Proof. unfold update_Notes. by destruct notes. Qed.

Lemma Reference_update_Prominence {Point} (f : feature Point) :
  Reference (update_Prominence f) = Reference f.
Proof. unfold update_Prominence. by case_match. Qed.

Lemma Reference_update_Notes {Point} notes (f : feature Point) :
  Reference (update_Notes notes f) = Reference f.
Proof. unfold update_Notes. by destruct notes. Qed.

Lemma Prominence_update_Notes {Point} notes (f : feature Point) :
  Prominence (update_Notes notes f) = Prominence f.
Proof. unfold update_Notes. by destruct notes. Qed.

Lemma Notes_update_Prominence {Point} (f : feature Point) :
  Notes (update_Prominence f) = Notes f.
Proof. unfold update_Prominence. by case_match. Qed.

Lemma geometry_update_Prominence {Point} (f : feature Point) :
  geometry (update_Prominence f) = geometry f.
Proof. unfold update_Prominence. by case_match. Qed.

Lemma geometry_update_Notes {Point} notes (f : feature Point) :
  geometry (update_Notes notes f) = geometry f.
Proof. unfold update_Notes. by destruct notes. Qed.

Lemma Notes_update_Notes_nil {Point} (f : feature Point) :
  Notes (update_Notes [] f) = Notes f.
Proof. done. Qed.

Lemma Notes_update_Notes_cons {Point} x l (f : feature Point) :
  Notes (update_Notes (x :: l) f) = Some (Str.join "; " (x :: l)).
Proof. done. Qed.

Lemma int_isdecimal s : Str.isdecimal s = true → ∃ v, int s = Ok v.
Proof.
  intros (n & Hn)%StrFacts.isdecimal_to_nat. exists (Z.of_nat n).
  unfold int. by rewrite Hn.
Qed.

Create Rewrite HintDb topo_fields.

#[export] Hint Rewrite
  @fid_update_Prominence @ID_update_Prominence @Name_update_Prominence
  @Elevation_update_Prominence @Col_elevation_update_Prominence
  @Reference_update_Prominence @Notes_update_Prominence
  @geometry_update_Prominence @fid_update_Notes @ID_update_Notes
  @Name_update_Notes @Elevation_update_Notes @Col_elevation_update_Notes
  @Reference_update_Notes @Prominence_update_Notes @geometry_update_Notes
  @Notes_update_Notes_nil @Notes_update_Notes_cons : topo_fields.

(** Case analysis on the tests of the reconcilers. *)
Ltac parse_int :=
  match goal with
  | H : Str.isdecimal ?s = true |- context [int ?s] =>
    let v := fresh "v" in
    let Hv := fresh "Hv" in
    destruct (int_isdecimal s H) as [v Hv]; rewrite Hv
  end.

Ltac step_if :=
  match goal with
  | |- context [if Str.contains ?p ?a then _ else _] =>
    destruct (Str.contains p a) eqn:?
  | |- context [if Str.truthy ?x then _ else _] =>
    destruct (Str.truthy x) eqn:?
  | |- context [if truthyZ ?x then _ else _] => destruct (truthyZ x) eqn:?
  | |- context [if Str.isdecimal ?x then _ else _] =>
    destruct (Str.isdecimal x) eqn:?
  | |- context [if bool_decide ?x then _ else _] =>
    destruct (bool_decide x) eqn:?
  end.

Ltac empty_check :=
  match goal with
  | H : match ?s with EmptyString => false | String _ _ => true end = false
    |- _ => destruct s; simpl in *; try done; try congruence
  end.

End Topo25.

(** ** topo_match_m.py: matching by the [Match] key *)

Module TopoMatchM.
Import Topo25.

Section topo25match.
Context {Point : Type}.

(** [QgsPoint()], what [vertexAt] gives past the last vertex. *)
Variable empty_point : Point.
Local Abbreviation vertexAt := (vertexAt empty_point).

(** [refs = dict((r['Match'], r) for r in reference.getFeatures()
                 if r['Match'])] *)
Definition refs_dict (reference : list (ref_feature Point))
    : gmap string (ref_feature Point) :=
  foldl (λ d r, if Str.truthy (Match r) then <[default "" (Match r) := r]> d
                else d) ∅ reference.

(** The variables a matched record is worked on with: the feature, the
    geometry [g] and the list [notes]. *)
Definition work : Type := feature Point * list Point * list string.

(** Lines 65-70. *)
Definition copy_reference (rf : ref_feature Point) (a : string)
    (f : feature Point) : feature Point * list string :=
  if Str.contains "move" a then (f, [])
  else (set_Reference (ref rf) f,
        if bool_decide (a = "ok" ∨ a = "move") then [] else [a]).

(** Lines 71-72. *)
Definition fill_Name (rf : ref_feature Point) (f : feature Point)
    : feature Point :=
  if Str.truthy (Name f) then f else set_Name (name rf) f.

(** Lines 73-80. *)
Definition fill_Elevation (rf : ref_feature Point) (w : work) : result work :=
  let '(f, g, notes) := w in
  if truthyZ (Elevation f) then Ok w
  else if Str.truthy (check_ele rf) then
    let s := default "" (check_ele rf) in
    '(f, notes) ←
      (if Str.isdecimal s then v ← int s; Ok (set_Elevation (Some v) f, notes)
       else Ok (f, notes ++ ["ele:" +:+ s]));
    let g := moveVertex (vertexAt (r_geometry rf) 0) 0 g in
    Ok (setGeometry g f, g, notes)
  else Ok w.

(** Lines 82-89. *)
Definition fill_Col_elevation (rf : ref_feature Point) (w : work)
    : result work :=
  let '(f, g, notes) := w in
  if truthyZ (Col_elevation f) then Ok w
  else if Str.truthy (check_col rf) then
    let s := default "" (check_col rf) in
    '(f, notes) ←
      (if Str.isdecimal s then
         v ← int s; Ok (set_Col_elevation (Some v) f, notes)
       else Ok (f, notes ++ ["col:" +:+ s]));
    let g := moveVertex (vertexAt (r_geometry rf) 1) 1 g in
    Ok (setGeometry g f, g, notes)
  else Ok w.

(** Lines 62-92: the record [f] against its reference entry [rf]. *)
Definition merge_reference (rf : ref_feature Point) (f : feature Point)
    : result (feature Point) :=
  a ← get_action rf;
  let g := geometry f in
  let '(f, notes) := copy_reference rf a f in
  let f := fill_Name rf f in
  w ← fill_Elevation rf (f, g, notes);
  '(f, g, notes) ← fill_Col_elevation rf w;
  Ok (update_Notes notes f).

(** Lines 61-95: the body of the loop over the source features. *)
Definition reconcile (refs : gmap string (ref_feature Point))
    (f : feature Point) : result (feature Point) :=
  f ← match refs !! ID f with
      | Some rf => merge_reference rf f
      | None => Ok f
      end;
  Ok (update_Prominence f).

(** The loop, left when the host cancels. *)
Fixpoint collect (fb : feedback) (refs : gmap string (ref_feature Point))
    (source : list (feature Point)) (features : list (feature Point))
    : result (list (feature Point)) :=
  match source with
  | [] => Ok features
  | f :: source' =>
    let '(canceled, fb) := isCanceled fb in
    if canceled then Ok features
    else f' ← reconcile refs f; collect fb refs source' (features ++ [f'])
  end.

(** The sort key: [(0, f['Reference']) if f['Reference']
                   else (1, -f['Prominence'])]. *)
Inductive key : Type :=
  | with_Reference (r : string)
  | by_Prominence (p : Z).

Definition sort_key (f : feature Point) : result key :=
  if Str.truthy (Reference f) then Ok (with_Reference (default "" (Reference f)))
  else
    match Prominence f with
    | Some p => Ok (by_Prominence (- p))
    | None => Raise TypeError
    end.

(** Tuples compare by their first component, then by the second. *)
Definition key_leb (a b : key) : bool :=
  match a, b with
  | with_Reference r1, with_Reference r2 => String.leb r1 r2
  | with_Reference _, by_Prominence _ => true
  | by_Prominence _, with_Reference _ => false
  | by_Prominence p1, by_Prominence p2 => (p1 <=? p2)%Z
  end.

(** [features.sort(key=...)]: the keys are taken first, then the features
    are sorted on them. *)
Definition sort_features (features : list (feature Point))
    : result (list (feature Point)) :=
  keyed ← mapR (λ f, k ← sort_key f; Ok (k, f)) features;
  Ok (sorted_by (λ a b : key * feature Point, key_leb a.1 b.1) keyed).*2.

(** Lines 99-105: what goes to the sink. *)
Definition emit (features : list (feature Point))
    : result (list (feature Point)) :=
  sorted ← sort_features features;
  Ok (imap (λ i f, set_fid (Some i) f) sorted).

Definition topo25match (fb : feedback) (source : list (feature Point))
    (reference : list (ref_feature Point)) : result (list (feature Point)) :=
  features ← collect fb (refs_dict reference) source [];
  emit features.

(** *** Properties of the key matcher *)

Local Arguments Str.join : simpl never.

(** C7 (amended).  For a source record with a reference entry under its
    [ID] (and an action that is not NULL), the reconciliation succeeds; a
    [Name], [Elevation] or [Col elevation] that is set (not NULL, empty or
    0) stays as it is, and one that is not set is filled from the reference:
    the name as it is, a check value made of decimal digits parsed, any
    other check value that is not empty left out of the attribute and put
    into the list of notes that becomes the [Notes] value. *)
Theorem fills_absent_only (refs : gmap string (ref_feature Point))
    (f : feature Point) (rf : ref_feature Point) (a : string) :
  refs !! ID f = Some rf → action rf = Some a →
  ∃ f', reconcile refs f = Ok f'
    ∧ (Str.truthy (Name f) = true → Name f' = Name f)
    ∧ (truthyZ (Elevation f) = true → Elevation f' = Elevation f)
    ∧ (truthyZ (Col_elevation f) = true → Col_elevation f' = Col_elevation f)
    ∧ (Str.truthy (Name f) = false → Name f' = name rf)
    ∧ (∀ s, truthyZ (Elevation f) = false → check_ele rf = Some s →
         Str.isdecimal s = true → ∃ v, int s = Ok v ∧ Elevation f' = Some v)
    ∧ (∀ s, truthyZ (Col_elevation f) = false → check_col rf = Some s →
         Str.isdecimal s = true →
         ∃ v, int s = Ok v ∧ Col_elevation f' = Some v)
    ∧ (∀ s, truthyZ (Elevation f) = false → check_ele rf = Some s →
         s ≠ "" → Str.isdecimal s = false →
         Elevation f' = Elevation f
         ∧ ∃ notes, "ele:" +:+ s ∈ notes
                    ∧ Notes f' = Some (Str.join "; " notes))
    ∧ (∀ s, truthyZ (Col_elevation f) = false → check_col rf = Some s →
         s ≠ "" → Str.isdecimal s = false →
         Col_elevation f' = Col_elevation f
         ∧ ∃ notes, "col:" +:+ s ∈ notes
                    ∧ Notes f' = Some (Str.join "; " notes)).
Proof.
  intros Hr Ha. unfold reconcile. rewrite Hr.
  unfold merge_reference, get_action. rewrite Ha. simpl.
  unfold copy_reference, fill_Name, fill_Elevation, fill_Col_elevation.
  repeat (first [step_if | parse_int | progress simpl]).
  all: eexists; split; [reflexivity |].
  all: autorewrite with topo_fields; simpl.
  all: split_and!; intros; try discriminate; try congruence.
  all: repeat match goal with
       | H : check_ele _ = Some _ |- _ => rewrite H in *; clear H
       | H : check_col _ = Some _ |- _ => rewrite H in *; clear H
       end; simpl in *; try congruence.
  all: try (eexists; split; [eassumption | reflexivity]).
  all: try (split; [reflexivity |]; eexists; split; [| reflexivity];
            set_solver).
  all: empty_check.
Qed.

(** Whether the key matcher copies the reference's id. *)
Lemma reconcile_Reference (refs : gmap string (ref_feature Point))
    (f : feature Point) (rf : ref_feature Point) (a : string) :
  refs !! ID f = Some rf → action rf = Some a →
  ∃ f', reconcile refs f = Ok f'
    ∧ Reference f'
      = if Str.contains "move" a then Reference f else ref rf.
Proof.
  intros Hr Ha. unfold reconcile. rewrite Hr.
  unfold merge_reference, get_action. rewrite Ha. simpl.
  unfold copy_reference, fill_Name, fill_Elevation, fill_Col_elevation.
  repeat (first [step_if | parse_int | progress simpl]).
  all: eexists; split; [reflexivity |].
  all: by autorewrite with topo_fields.
Qed.

(** The order of the sort keys. *)
Definition key_le (a b : key) : Prop := key_leb a b = true.

#[local] Instance key_le_trans : Transitive key_le.
Proof.
  intros [r1|p1] [r2|p2] [r3|p3]; unfold key_le; simpl; try done.
  - intros H1%Is_true_true H2%Is_true_true. apply Is_true_true.
    by trans r2.
  - intros H1%Z.leb_le H2%Z.leb_le. apply Z.leb_le. lia.
Qed.

Lemma key_le_total a b : key_le a b ∨ key_le b a.
Proof.
  destruct a as [r1|p1], b as [r2|p2]; unfold key_le; simpl; auto.
  - destruct (String.leb_total r1 r2); auto.
  - destruct (Z.leb_spec p1 p2); [auto |]. right. apply Z.leb_le. lia.
Qed.

Lemma sorted_by_key_sorted (l : list (key * feature Point)) :
  StronglySorted (λ a b, key_le a.1 b.1)
    (sorted_by (λ a b : key * feature Point, key_leb a.1 b.1) l).
Proof.
  induction l as [|x l IH]; simpl; [constructor |].
  apply insert_by_sorted; [| | done].
  - intros a b c. apply key_le_trans.
  - intros y _. destruct (key_leb x.1 y.1) eqn:Hle; [done |].
    destruct (key_le_total x.1 y.1) as [Hxy | Hyx]; [| done].
    unfold key_le in Hxy. congruence.
Qed.

Lemma sort_key_Ok (f : feature Point) :
  (Str.truthy (Reference f) = false → is_Some (Prominence f)) →
  ∃ k, sort_key f = Ok k.
Proof.
  intros Hf. unfold sort_key. destruct (Str.truthy (Reference f)); [eauto |].
  destruct (Hf eq_refl) as [p ->]. eauto.
Qed.

Lemma keyed_features (features : list (feature Point)) keyed :
  mapR (λ f, k ← sort_key f; Ok (k, f)) features = Ok keyed →
  keyed.*2 = features ∧ Forall (λ kf, sort_key kf.2 = Ok kf.1) keyed.
Proof.
  intros HF%mapR_Ok.
  induction HF as [|f kf fs ks Hf HF IH]; [done |].
  destruct IH as [IH1 IH2].
  destruct (sort_key f) as [k|] eqn:Hk; simplify_eq/=.
  split; [done | by constructor].
Qed.

Lemma fmap_imap_same {A B} (g : A → B) (h : nat → A → A) (l : list A) :
  (∀ i x, g (h i x) = g x) → g <$> imap h l = g <$> l.
Proof.
  intros Hgh. apply list_eq. intros i.
  rewrite !list_lookup_fmap, list_lookup_imap.
  destruct (l !! i); simpl; [by rewrite Hgh | done].
Qed.

(** C10.  When every collected feature without a [Reference] has its
    [Prominence], the features go to the sink rearranged and renumbered:
    [fid] is the position, from 0; a feature with a [Reference] never comes
    after one without; those with a [Reference] are in ascending order of
    it, those without in descending order of [Prominence].  The run is the
    collecting loop followed by this step. *)
Theorem emit_order (features : list (feature Point)) :
  (∀ f, f ∈ features → Str.truthy (Reference f) = false →
        is_Some (Prominence f)) →
  (∃ out, emit features = Ok out
    ∧ set_fid None <$> out ≡ₚ set_fid None <$> features
    ∧ (∀ i f, out !! i = Some f → fid f = Some i)
    ∧ (∀ i j f g, i < j → out !! i = Some f → out !! j = Some g →
         (Str.truthy (Reference g) = true →
            Str.truthy (Reference f) = true
            ∧ String.le (default "" (Reference f)) (default "" (Reference g)))
         ∧ (Str.truthy (Reference f) = false →
              Str.truthy (Reference g) = false
              ∧ ∃ p q, Prominence f = Some p ∧ Prominence g = Some q
                       ∧ (q ≤ p)%Z)))
  ∧ (∀ fb source reference,
       topo25match fb source reference
       = collect fb (refs_dict reference) source [] ≫= emit).
Proof.
  intros Hf. split; [| done]. unfold emit, sort_features.
  destruct (mapR_Forall (λ f, k ← sort_key f; Ok (k, f)) (λ _, True) features)
    as (keyed & Hkeyed & _ & _).
  { apply Forall_forall. intros f Hin.
    destruct (sort_key_Ok f (Hf f Hin)) as [k Hk].
    exists (k, f). by rewrite Hk. }
  rewrite Hkeyed. apply keyed_features in Hkeyed as [Hsnd Hkeys]. simpl.
  set (sorted := sorted_by (λ a b : key * feature Point, key_leb a.1 b.1)
                   keyed).
  assert (Hperm : sorted ≡ₚ keyed) by apply sorted_by_perm.
  assert (Hsorted : ∀ kf, kf ∈ sorted → sort_key kf.2 = Ok kf.1).
  { intros kf Hin. rewrite Hperm in Hin. rewrite Forall_forall in Hkeys.
    by apply Hkeys. }
  assert (Hout : ∀ i f,
            imap (λ i f, set_fid (Some i) f) sorted.*2 !! i = Some f →
            ∃ kf, sorted !! i = Some kf ∧ f = set_fid (Some i) kf.2).
  { intros i f. rewrite list_lookup_imap, list_lookup_fmap.
    destruct (sorted !! i) as [kf|]; simpl; [| done].
    intros [= <-]. eauto. }
  eexists. split; [done |]. split_and!.
  - rewrite fmap_imap_same by done. by rewrite Hperm, Hsnd.
  - intros i f (kf & _ & ->)%Hout. done.
  - intros i j f g Hij (kf & Hi & ->)%Hout (kg & Hj & ->)%Hout. simpl.
    pose proof (StronglySorted_lookup _ _ i j _ _
                  (sorted_by_key_sorted keyed) Hi Hj Hij) as Hle.
    pose proof (Hsorted kf ltac:(by eapply list_elem_of_lookup_2)) as Hkf.
    pose proof (Hsorted kg ltac:(by eapply list_elem_of_lookup_2)) as Hkg.
    unfold sort_key in Hkf, Hkg. unfold key_le in Hle. simpl in Hle.
    destruct (Str.truthy (Reference kf.2)), (Str.truthy (Reference kg.2));
      repeat case_match; simplify_eq;
      rewrite <- ?Hkf, <- ?Hkg in *; simpl in Hle; try done.
    + split; [| done]. intros _. split; [done |]. by apply Is_true_true.
    + split; [done |]. intros _. split; [done |].
      eexists _, _. split_and!; [done | done |]. apply Z.leb_le in Hle. lia.
Qed.

End topo25match.
End TopoMatchM.

(** ** topo_match.py: matching by position *)

Module TopoMatch.
Import Topo25.

Section topo25match.
Context {Point : Type}.

Variable empty_point : Point.
Local Abbreviation vertexAt := (vertexAt empty_point).

(** [QgsSpatialIndex.nearestNeighbor(point, neighbors, maxDistance)]; an
    index is the list of the features added to it, in order. *)
Variable nearestNeighbor : list (nat * Point) → Point → nat → Q → list nat.

(** Lines 60-84: the reference features that are indexed. *)
Definition indexed (f : ref_feature Point) : bool :=
  hasGeometry f && negb (bool_decide (action f = Some "delete")).

Definition ref_list (reference : list (ref_feature Point))
    : list (ref_feature Point) :=
  filter (λ f, indexed f = true) reference.

Definition summits (refs : list (ref_feature Point)) : list (nat * Point) :=
  imap (λ i f, (i, vertexAt (r_geometry f) 0)) refs.

Definition cols (refs : list (ref_feature Point)) : list (nat * Point) :=
  imap (λ i f, (i, last_vertex empty_point (r_geometry f))) refs.

(** The variables that live across the iterations of the loop over the
    source features; [notes] is unbound ([None]) until an iteration assigns
    it. *)
Record state := {
  notes : option (list string);
  matched : gset nat;
  candidate : gmap nat string;
  sink : list (feature Point)
}.

Definition addFeature (f : feature Point) (st : state) : state :=
  {| notes := notes st; matched := matched st; candidate := candidate st;
     sink := sink st ++ [f] |}.

(** Lines 103-108. *)
Definition copy_reference (i : nat) (rf : ref_feature Point) (a : string)
    (f : feature Point) (st : state) : feature Point * state :=
  if Str.contains "switch" a then
    (f, {| notes := Some []; matched := matched st;
           candidate := candidate st; sink := sink st |})
  else
    (set_Reference (ref rf) f,
     {| notes := Some (if bool_decide (a = "ok") then [] else [a]);
        matched := {[i]} ∪ matched st;
        candidate := candidate st; sink := sink st |}).

Definition append_note (s : string) (st : state) : result state :=
  match notes st with
  | Some l =>
    Ok {| notes := Some (l ++ [s]); matched := matched st;
          candidate := candidate st; sink := sink st |}
  | None => Raise UnboundLocalError
  end.

(** Lines 109-110. *)
Definition fill_Name (rf : ref_feature Point) (f : feature Point)
    : feature Point :=
  if Str.truthy (Name f) then f else set_Name (name rf) f.

(** Lines 111-118; [g] is the geometry taken from the feature at the top of
    the iteration. *)
Definition fill_Elevation (rf : ref_feature Point)
    (w : feature Point * list Point * state)
    : result (feature Point * list Point * state) :=
  let '(f, g, st) := w in
  if truthyZ (Elevation f) then Ok w
  else if Str.truthy (check_ele rf) then
    let s := default "" (check_ele rf) in
    if Str.isdecimal s then
      v ← int s;
      let g := moveVertex (vertexAt (r_geometry rf) 0) 0 g in
      Ok (setGeometry g (set_Elevation (Some v) f), g, st)
    else
      st ← append_note ("ele:" +:+ s) st; Ok (f, g, st)
  else Ok w.

(** Lines 119-126. *)
Definition fill_Col_elevation (rf : ref_feature Point)
    (w : feature Point * list Point * state)
    : result (feature Point * list Point * state) :=
  let '(f, g, st) := w in
  if truthyZ (Col_elevation f) then Ok w
  else if Str.truthy (check_col rf) then
    let s := default "" (check_col rf) in
    if Str.isdecimal s then
      v ← int s;
      let g := moveVertex (vertexAt (r_geometry rf) 1) 1 g in
      Ok (setGeometry g (set_Col_elevation (Some v) f), g, st)
    else
      st ← append_note ("col:" +:+ s) st; Ok (f, g, st)
  else Ok w.

(** Lines 100-126: the reference [i] is the nearest at both ends. *)
Definition merge_reference (refs : list (ref_feature Point)) (i : nat)
    (f : feature Point) (st : state) : result (feature Point * state) :=
  rf ← getindex refs i;
  a ← get_action rf;
  let '(f, st) := copy_reference i rf a f st in
  let f := fill_Name rf f in
  w ← fill_Elevation rf (f, geometry f, st);
  '(f, g, st) ← fill_Col_elevation rf w;
  Ok (f, st).

(** Line 128. *)
Definition add_candidate (i : nat) (f : feature Point) (st : state) : state :=
  {| notes := notes st; matched := matched st;
     candidate := <[i := ID f]> (candidate st); sink := sink st |}.

(** Lines 132-133: [notes] is read here. *)
Definition write_Notes (f : feature Point) (st : state)
    : result (feature Point) :=
  match notes st with
  | Some l => Ok (update_Notes l f)
  | None => Raise UnboundLocalError
  end.

(** Lines 93-135: the body of the loop over the source features. *)
Definition step (refs : list (ref_feature Point)) (st : state)
    (f : feature Point) : result state :=
  let g := geometry f in
  match nearestNeighbor (summits refs) (vertexAt g 0) 1 (5 # 1000) with
  | [] => Ok (addFeature f st)
  | i :: _ =>
    let j := nearestNeighbor (cols refs) (vertexAt g 1) 1 (1 # 100) in
    '(f, st) ←
      (if bool_decide (i ∈ j) then merge_reference refs i f st
       else Ok (f, add_candidate i f st));
    let f := update_Prominence f in
    f ← write_Notes f st;
    Ok (addFeature f st)
  end.

Fixpoint loop (fb : feedback) (refs : list (ref_feature Point)) (st : state)
    (source : list (feature Point)) : result state :=
  match source with
  | [] => Ok st
  | f :: source' =>
    let '(canceled, fb) := isCanceled fb in
    if canceled then Ok st
    else st ← step refs st f; loop fb refs st source'
  end.

(** Lines 138-143: the reference features left over, each with the [ID] of
    the source feature it was a candidate for. *)
Definition remaining (refs : list (ref_feature Point)) (st : state)
    : list (ref_feature Point * option string) :=
  omap (λ e : nat * ref_feature Point,
          if bool_decide (e.1 ∈ matched st) then None
          else Some (e.2, candidate st !! e.1))
       (imap (λ i f, (i, f)) refs).

Definition init : state :=
  {| notes := None; matched := ∅; candidate := ∅; sink := [] |}.

Definition topo25match (fb : feedback) (source : list (feature Point))
    (reference : list (ref_feature Point))
    : result (list (feature Point)
              * list (ref_feature Point * option string)) :=
  let refs := ref_list reference in
  st ← loop fb refs init source;
  Ok (sink st, remaining refs st).

(** *** Properties of the position matcher *)

Local Arguments Str.join : simpl never.

Local Abbreviation squery_ refs f :=
  (nearestNeighbor (summits refs) (vertexAt (geometry f) 0) 1 (5 # 1000)).
Local Abbreviation cquery_ refs f :=
  (nearestNeighbor (cols refs) (vertexAt (geometry f) 1) 1 (1 # 100)).

(** The source feature has a nearest reference summit [i] within the
    summit tolerance, and [i] is not its nearest reference col within the
    col tolerance. *)
Definition summit_only (refs : list (ref_feature Point)) (f : feature Point)
    (i : nat) : Prop :=
  (∃ rest, squery_ refs f = i :: rest) ∧ i ∉ cquery_ refs f.

(** The reference [i] is the nearest at both ends. *)
Definition both_ends (refs : list (ref_feature Point)) (f : feature Point)
    (i : nat) : Prop :=
  (∃ rest, squery_ refs f = i :: rest) ∧ i ∈ cquery_ refs f.

(** No reference summit within the summit tolerance. *)
Definition no_summit (refs : list (ref_feature Point)) (f : feature Point)
    : Prop :=
  squery_ refs f = [].

Lemma step_summit_only refs f i st :
  summit_only refs f i →
  step refs st f
  = f' ← write_Notes (update_Prominence f) (add_candidate i f st);
    Ok (addFeature f' (add_candidate i f st)).
Proof.
  intros [[rest Hs] Hc]. unfold step. rewrite Hs.
  by rewrite bool_decide_eq_false_2.
Qed.

Lemma loop_unbound refs f i post pre : ∀ fb st,
  summit_only refs f i → never_canceled fb → notes st = None →
  Forall (no_summit refs) pre →
  loop fb refs st (pre ++ f :: post) = Raise UnboundLocalError.
Proof.
  induction pre as [|f0 pre IH]; intros fb st Hf Hfb Hst Hpre; simpl.
  - destruct (isCanceled_never fb Hfb) as (fb' & -> & _).
    rewrite (step_summit_only _ _ i) by done.
    unfold write_Notes. simpl. by rewrite Hst.
  - destruct (isCanceled_never fb Hfb) as (fb' & -> & Hfb').
    apply Forall_cons in Hpre as [H0 Hpre].
    unfold step. unfold no_summit in H0. rewrite H0. simpl.
    by apply IH.
Qed.

(** C9.  For a source record that has a nearest reference summit which is
    not its nearest reference col, the iteration reads [notes] without
    assigning it: while [notes] is unbound the iteration raises
    [UnboundLocalError] (so does the run, when no record before it had a
    reference summit in reach), and otherwise the notes of an earlier
    record are what the iteration sees, and when there are any they become
    the [Notes] value of this record. *)
Theorem notes_unbound (refs : list (ref_feature Point)) (f : feature Point)
    (i : nat) :
  summit_only refs f i →
  (∀ st, notes st = None → step refs st f = Raise UnboundLocalError)
  ∧ (∀ st l, notes st = Some l →
       ∃ f', step refs st f
             = Ok {| notes := Some l; matched := matched st;
                     candidate := <[i := ID f]> (candidate st);
                     sink := sink st ++ [f'] |}
         ∧ f' = update_Notes l (update_Prominence f)
         ∧ (l ≠ [] → Notes f' = Some (Str.join "; " l)))
  ∧ (∀ fb pre post reference,
       refs = ref_list reference → never_canceled fb →
       Forall (no_summit refs) pre →
       topo25match fb (pre ++ f :: post) reference = Raise UnboundLocalError).
Proof.
  intros Hf. split_and!.
  - intros st Hst. rewrite (step_summit_only _ _ i) by done.
    unfold write_Notes. simpl. by rewrite Hst.
  - intros st l Hst. rewrite (step_summit_only _ _ i) by done.
    unfold write_Notes. simpl. rewrite Hst. simpl.
    eexists. split; [| split; [reflexivity |]].
    + unfold addFeature, add_candidate. simpl. by rewrite Hst.
    + intros Hl. destruct l; [done |]. by autorewrite with topo_fields.
  - intros fb pre post reference -> Hfb Hpre. unfold topo25match.
    by rewrite (loop_unbound _ f i post pre).
Qed.

(** Whether the position matcher copies the reference's id. *)
Lemma step_Reference (refs : list (ref_feature Point)) i rf a f st :
  both_ends refs f i → refs !! i = Some rf → action rf = Some a →
  ∃ f' st', step refs st f = Ok st'
    ∧ sink st' = sink st ++ [f']
    ∧ Reference f'
      = (if Str.contains "switch" a then Reference f else ref rf).
Proof.
  intros [[rest Hs] Hc] Hrf Ha.
  unfold step. rewrite Hs, bool_decide_eq_true_2 by done.
  unfold merge_reference, getindex, get_action.
  rewrite Hrf. simpl. rewrite Ha. simpl.
  unfold copy_reference, fill_Name, fill_Elevation, fill_Col_elevation.
  repeat (first [step_if | parse_int | progress simpl]).
  all: eexists _, _; split; [reflexivity |]; simpl.
  all: split; [reflexivity |].
  all: by autorewrite with topo_fields.
Qed.

End topo25match.
End TopoMatch.

(** ** The two matchers side by side *)

Module Reconcilers.
Import Topo25.

(** C8 (amended).  Each matcher holds back the reference's id for one
    action only.  By position, a reference whose action holds "switch"
    leaves [Reference] as it was, and any other matched reference (one
    marked "move" too) sets it to the reference's [ref].  By key, a
    reference whose action holds "move" leaves [Reference] as it was, and
    any other (one marked "switch" too) sets it. *)
Theorem reference_propagation {Point : Type} (empty_point : Point)
    (nearestNeighbor : list (nat * Point) → Point → nat → Q → list nat) :
  (∀ (refs : list (ref_feature Point)) i rf a f st,
     TopoMatch.both_ends empty_point nearestNeighbor refs f i →
     refs !! i = Some rf → action rf = Some a →
     ∃ f' st',
       TopoMatch.step empty_point nearestNeighbor refs st f = Ok st'
       ∧ TopoMatch.sink st' = TopoMatch.sink st ++ [f']
       ∧ Reference f'
         = (if Str.contains "switch" a then Reference f else ref rf))
  ∧ (∀ (refs : gmap string (ref_feature Point)) f rf a,
       refs !! ID f = Some rf → action rf = Some a →
       ∃ f', TopoMatchM.reconcile empty_point refs f = Ok f'
         ∧ Reference f'
           = (if Str.contains "move" a then Reference f else ref rf))
  ∧ Str.contains "switch" "move" = false
  ∧ Str.contains "move" "switch" = false.
Proof.
  split_and!; [| | done | done].
  - intros refs i rf a f st. apply TopoMatch.step_Reference.
  - intros refs f rf a. apply TopoMatchM.reconcile_Reference.
Qed.

End Reconcilers.

(** ** Runs of the two matchers on small layers *)

Module TopoRuns.
Import Topo25 MergeRuns.

Definition origin : Point := (0, 0)%Z.

Definition summit (id : string) (name : option string) (e c : option Z)
    (notes : option string) (a b : Point) : feature Point :=
  {| fid := None; ID := id; Name := name; Elevation := e; Col_elevation := c;
     Reference := None; Prominence := None; Notes := notes;
     geometry := [a; b] |}.

Definition topo (act r n : string) (ce cc m : option string) (a b : Point)
    : ref_feature Point :=
  {| hasGeometry := true; action := Some act; ref := Some r; name := Some n;
     check_ele := ce; check_col := cc; Match := m; r_geometry := [a; b] |}.

Definition by_position :=
  TopoMatch.topo25match origin nearestNeighbor.

Definition by_key := TopoMatchM.topo25match origin.

(** *** By key *)

(** A record with a name and notes of its own and an elevation of 0,
    against an entry with a parsable elevation and a col remark. *)
Definition surveyed : feature Point :=
  summit "S0001" (Some "Piatra") (Some 0%Z) None (Some "surveyed 2019")
         (10, 10)%Z (10, 90)%Z.

Definition awaiting : ref_feature Point :=
  topo "awaiting survey" "T25-001" "Varful" (Some "1502") (Some "ca. 1000")
       (Some "S0001") (11, 11)%Z (12, 92)%Z.

Lemma fills_absent_only_surveyed :
  TopoMatchM.refs_dict [awaiting] !! ID surveyed = Some awaiting
  ∧ action awaiting = Some "awaiting survey"
  ∧ ∃ f', TopoMatchM.reconcile origin (TopoMatchM.refs_dict [awaiting]) surveyed
          = Ok f'
      ∧ Name f' = Some "Piatra".
Proof.
  assert (Hr : TopoMatchM.refs_dict [awaiting] !! ID surveyed = Some awaiting)
    by (vm_compute; reflexivity).
  split_and!; [exact Hr | reflexivity |].
  destruct (TopoMatchM.fills_absent_only origin _ surveyed awaiting _
              Hr eq_refl) as (f' & Hf' & HName & _).
  exists f'. split; [exact Hf' |]. exact (HName eq_refl).
Defined.

(** The notes the record came with are replaced, and so is its elevation
    of 0. *)
Lemma notes_overwritten :
  ∃ f', TopoMatchM.reconcile origin (TopoMatchM.refs_dict [awaiting]) surveyed
        = Ok f'
    ∧ Notes surveyed = Some "surveyed 2019"
    ∧ Notes f' = Some "awaiting survey; col:ca. 1000"
    ∧ Elevation surveyed = Some 0%Z
    ∧ Elevation f' = Some 1502%Z.
Proof. eexists. split_and!; [vm_compute; reflexivity | done ..]. Qed.

(** Four records, two of them with a reference entry. *)
Definition four_summits : list (feature Point) :=
  [ summit "S0001" None (Some 1500%Z) (Some 1000%Z) None (10, 10)%Z (10, 90)%Z;
    summit "S0002" None (Some 1400%Z) (Some 1000%Z) None (20, 10)%Z (20, 90)%Z;
    summit "S0003" None (Some 1900%Z) (Some 1000%Z) None (30, 10)%Z (30, 90)%Z;
    summit "S0004" None (Some 1100%Z) (Some 1000%Z) None (40, 10)%Z (40, 90)%Z ].

Definition two_entries : list (ref_feature Point) :=
  [ topo "ok" "T25-009" "Varful" None None (Some "S0002") (20, 10)%Z (20, 90)%Z;
    topo "ok" "T25-004" "Dealul" None None (Some "S0004") (40, 10)%Z (40, 90)%Z ].

Definition four_collected : list (feature Point) :=
  Eval vm_compute in
    match TopoMatchM.collect origin []
            (TopoMatchM.refs_dict two_entries) four_summits [] with
    | Ok l => l
    | Raise _ => []
    end.

Example by_key_four :
  (λ f, (fid f, ID f, Reference f, Prominence f))
    <$$> by_key [] four_summits two_entries
  = Ok [ (Some 0, "S0004", Some "T25-004", Some 100%Z);
         (Some 1, "S0002", Some "T25-009", Some 400%Z);
         (Some 2, "S0003", None, Some 900%Z);
         (Some 3, "S0001", None, Some 500%Z) ].
Proof. vm_compute. reflexivity. Qed.

Lemma four_collected_prominence :
  ∀ f, f ∈ four_collected → Str.truthy (Reference f) = false →
       is_Some (Prominence f).
Proof.
  intros f Hf _.
  repeat (apply elem_of_cons in Hf as [-> | Hf]; [by eexists |]).
  by apply elem_of_nil in Hf.
Defined.

Lemma emit_order_four :
  (∀ f, f ∈ four_collected → Str.truthy (Reference f) = false →
        is_Some (Prominence f))
  ∧ ∃ out, TopoMatchM.emit four_collected = Ok out
      ∧ ∀ i f, out !! i = Some f → fid f = Some i.
Proof.
  split; [exact four_collected_prominence |].
  destruct (TopoMatchM.emit_order origin four_collected
              four_collected_prominence)
    as [(out & Hout & _ & Hfid & _) _].
  exists out. split; [exact Hout | exact Hfid].
Defined.

(** A record without [Reference] and without [Prominence] stops the sort. *)
Example by_key_no_prominence :
  by_key [] [summit "S0001" None None (Some 1000%Z) None (10, 10)%Z (10, 90)%Z]
    []
  = Raise TypeError.
Proof. vm_compute. reflexivity. Qed.

(** *** By position *)

(** The summit of the record lies on the reference summit, the cols are
    far apart. *)
Definition drifted : feature Point :=
  summit "S0002" None (Some 1400%Z) (Some 1000%Z) None
         (500, 10)%Z (500, 90)%Z.

Definition dealul : ref_feature Point :=
  topo "ok" "T25-002" "Dealul" None None None (500, 10)%Z (560, 90)%Z.

(** A record that lies on its reference at both ends; the reference asks
    for a check. *)
Definition agreed : feature Point :=
  summit "S0001" None (Some 1500%Z) (Some 1000%Z) None (10, 10)%Z (10, 90)%Z.

Definition varful : ref_feature Point :=
  topo "check height" "T25-001" "Varful" None None None (10, 10)%Z (10, 90)%Z.

Lemma drifted_summit_only :
  TopoMatch.summit_only origin nearestNeighbor [varful; dealul] drifted 1.
Proof.
  split.
  - exists []. vm_compute. reflexivity.
  - apply (bool_decide_eq_false_1 _). vm_compute. reflexivity.
Defined.

Lemma notes_unbound_drifted :
  TopoMatch.summit_only origin nearestNeighbor [varful; dealul] drifted 1
  ∧ by_position [] [drifted] [varful; dealul] = Raise UnboundLocalError
  ∧ ∃ out rem f,
      by_position [] [agreed; drifted] [varful; dealul] = Ok (out, rem)
      ∧ out !! 1 = Some f ∧ ID f = "S0002"
      ∧ Notes f = Some "check height".
Proof.
  split; [exact drifted_summit_only |].
  destruct (TopoMatch.notes_unbound origin nearestNeighbor
              [varful; dealul] drifted 1 drifted_summit_only)
    as (_ & _ & Hrun).
  split.
  - apply (Hrun [] [] [] [varful; dealul]); [reflexivity | constructor ..].
  - eexists _, _, _. split_and!; [vm_compute; reflexivity | reflexivity ..].
Defined.

(** *** The action markers *)

Definition moved : ref_feature Point :=
  topo "move" "T25-001" "Varful" None None (Some "S0001") (10, 10)%Z (10, 90)%Z.

Definition switched : ref_feature Point :=
  topo "switch" "T25-001" "Varful" None None (Some "S0001")
       (10, 10)%Z (10, 90)%Z.

(** By position an entry marked "move" hands its id over; by key an entry
    marked "switch" does. *)
Lemma move_and_switch_copied :
  (∃ out rem f, by_position [] [agreed] [moved] = Ok (out, rem)
     ∧ f ∈ out ∧ Reference agreed = None ∧ Reference f = ref moved)
  ∧ (∃ out f, by_key [] [agreed] [switched] = Ok out
       ∧ f ∈ out ∧ Reference agreed = None ∧ Reference f = ref switched).
Proof.
  split.
  - eexists _, _, _.
    split_and!;
      [vm_compute; reflexivity | apply list_elem_of_here | done | done].
  - eexists _, _.
    split_and!;
      [vm_compute; reflexivity | apply list_elem_of_here | done | done].
Qed.

(** By position an entry marked "switch" keeps its id and stays in the
    remainder. *)
Example by_position_switch :
  match by_position [] [agreed] [switched] with
  | Ok (out, rem) => (Reference <$> out, length rem)
  | Raise _ => ([], 0)
  end = ([None], 1).
Proof. vm_compute. reflexivity. Qed.

End TopoRuns.

(** ** merge_landserf.py: the layer list and the collected summits *)

Module MergeLayers.
Import MergeSummitLayers GroupBuilder.

Section layers.
Context {Geometry : Type}.
Implicit Types (l : @layer Geometry) (layers : list (@layer Geometry)).
Implicit Types (ll : list (string * option (@layer Geometry))).

(** [layerList[m.group(0).upper()] = layer] *)
Definition file_layer ll l : list (string * option layer) :=
  dict_set ll (default "" (tag l)) (Some l).

(** Every layer name holds a DEM name, and no two layers are filed under
    the same DEM. *)
Definition well_configured layers : Prop :=
  Forall (λ l, is_Some (tag l)) layers ∧ NoDup (tag <$> layers).

Lemma not_misconfigured layers :
  ¬ misconfigured layers ↔ well_configured layers.
Proof.
  split.
  - intros Hn. split.
    + apply Forall_forall. intros l Hl.
      destruct (tag l) eqn:Ht; [done |]. destruct Hn. left. eauto.
    + apply NoDup_alt. intros i j t Hi Hj.
      rewrite list_lookup_fmap in Hi, Hj.
      destruct (layers !! i) as [li|] eqn:Hli; [| done].
      destruct (layers !! j) as [lj|] eqn:Hlj; [| done].
      simpl in Hi, Hj.
      destruct (Nat.lt_trichotomy i j) as [Hlt | [-> | Hlt]]; [| done |].
      * destruct Hn. right. exists i, j, li, lj. split_and!; try done.
        congruence.
      * destruct Hn. right. exists j, i, lj, li. split_and!; try done.
        congruence.
  - intros [Hall Hnd] [(l & Hl & Ht) | (i & j & li & lj & Hij & Hi & Hj & Ht)].
    + rewrite Forall_forall in Hall. destruct (Hall l Hl) as [t Ht'].
      congruence.
    + assert (i = j); [| lia].
      apply (proj1 (NoDup_alt (tag <$> layers)) Hnd i j (tag li)).
      * by rewrite list_lookup_fmap, Hi.
      * by rewrite list_lookup_fmap, Hj, Ht.
Qed.

Lemma dict_get_absent {V} (d : list (string * V)) k :
  k ∉ d.*1 → dict_get d k = Raise KeyError.
Proof.
  induction d as [|[k' v'] d IH]; simpl; [done |].
  intros Hk. apply not_elem_of_cons in Hk as [Hne Hk].
  destruct (String.eqb_spec k' k) as [Heq | _]; [congruence | auto].
Qed.

Lemma dict_ext {V} (d1 d2 : list (string * V)) :
  d1.*1 = d2.*1 → NoDup d1.*1 → (∀ k, dict_get d1 k = dict_get d2 k) →
  d1 = d2.
Proof.
  revert d2. induction d1 as [|[k v] d1 IH]; intros [|[k2 v2] d2];
    rewrite ?fmap_cons; try done.
  intros Hkeys [Hk Hnd]%NoDup_cons Hget.
  apply (inj2 cons) in Hkeys as [Heq Hkeys]. simpl in Heq. subst k2.
  pose proof (Hget k) as Hv. simpl in Hv. rewrite String.eqb_refl in Hv.
  injection Hv as <-. f_equal. apply IH; [done | done |].
  intros k'. specialize (Hget k'). simpl in Hget.
  destruct (String.eqb_spec k k') as [Heq | Hne]; [| done].
  subst k'. rewrite (dict_get_absent d1) by done.
  by rewrite (dict_get_absent d2) by (by rewrite <- Hkeys).
Qed.

Lemma file_layer_keys ll l t :
  tag l = Some t → t ∈ ll.*1 → (file_layer ll l).*1 = ll.*1.
Proof. intros Ht Hin. unfold file_layer. rewrite Ht. by apply dict_set_keys. Qed.

Lemma foldl_file_layer_keys layers : ∀ ll,
  Forall (λ l, ∃ t, tag l = Some t ∧ t ∈ ll.*1) layers →
  (foldl file_layer ll layers).*1 = ll.*1.
Proof.
  induction layers as [|l layers IH]; intros ll Hall; simpl; [done |].
  apply Forall_cons in Hall as [(t & Ht & Hin) Hall].
  rewrite IH.
  - by apply (file_layer_keys _ _ t).
  - eapply Forall_impl; [exact Hall |]. intros l' (t' & Ht' & Hin').
    exists t'. split; [done |]. by rewrite (file_layer_keys _ _ t).
Qed.

(** What is filed under a DEM after the layers were gone through. *)
Lemma dict_get_foldl_file_layer layers : ∀ ll dem lay,
  Forall (λ l, is_Some (tag l)) layers → NoDup (tag <$> layers) →
  dict_get (foldl file_layer ll layers) dem = Ok (Some lay)
  ↔ (lay ∈ layers ∧ tag lay = Some dem)
    ∨ ((Some dem ∉ tag <$> layers) ∧ dict_get ll dem = Ok (Some lay)).
Proof.
  induction layers as [|l layers IH]; intros ll dem lay Hall Hnd;
    cbn [foldl].
  - split; [intros ?; right; split; [apply not_elem_of_nil | done] |].
    intros [[Hl _] | [_ ?]]; [by apply elem_of_nil in Hl | done].
  - apply Forall_cons in Hall as [[t Ht] Hall].
    rewrite fmap_cons in Hnd. apply NoDup_cons in Hnd as [Hl Hnd].
    rewrite (IH _ _ _ Hall Hnd).
    assert (file_layer ll l = dict_set ll t (Some l)) as ->
      by (unfold file_layer; by rewrite Ht).
    rewrite dict_get_set. rewrite fmap_cons, Ht, not_elem_of_cons.
    rewrite Ht in Hl. split.
    + intros [[Hin Htag] | [Hnin Hget]].
      * left. split; [by right | done].
      * destruct (decide (t = dem)) as [-> | Hne].
        -- injection Hget as <-. left. split; [left | done].
        -- right. split_and!; [congruence | done | done].
    + intros [[[-> | Hin]%elem_of_cons Htag] | [[Hne Hnin] Hget]].
      * right. assert (t = dem) as -> by congruence.
        split; [done |]. by rewrite decide_True.
      * by left.
      * right. split; [done |]. rewrite decide_False; [done |].
        intros ->. by apply Hne.
Qed.

Lemma configure_files layers : ∀ fb ll,
  never_canceled fb → ll.*1 = DEMS →
  Forall (λ l, ∃ t, tag l = Some t ∧ dict_get ll t = Ok None) layers →
  NoDup (tag <$> layers) →
  ∃ fb', configure fb ll layers = Ok (fb', foldl file_layer ll layers)
         ∧ never_canceled fb'.
Proof.
  induction layers as [|l layers IH]; intros fb ll Hfb Hkeys Hall Hnd;
    cbn [foldl configure].
  - by exists fb.
  - destruct (isCanceled_never fb Hfb) as (fb' & -> & Hfb').
    apply Forall_cons in Hall as [(t & Ht & Hget) Hall].
    rewrite fmap_cons in Hnd. apply NoDup_cons in Hnd as [Hl Hnd].
    assert (file_layer ll l = dict_set ll t (Some l)) as ->
      by (unfold file_layer; by rewrite Ht).
    rewrite Hkeys. pose proof Ht as Htag. unfold tag in Ht.
    destruct (re_search DEMS (name l)) as [m|] eqn:Hm; [| done].
    injection Ht as <-. rewrite Hget. simpl.
    apply IH; [done | | | done].
    + rewrite dict_set_keys; [done |]. rewrite Hkeys.
      by eapply re_search_DEMS.
    + apply Forall_forall. intros l' Hl'. rewrite Forall_forall in Hall.
      destruct (Hall l' Hl') as (t' & Ht' & Hget'). exists t'.
      split; [done |]. rewrite dict_get_set, decide_False; [done |].
      intros <-. apply Hl. rewrite Htag, <- Ht'.
      apply list_elem_of_fmap. by exists l'.
Qed.

Lemma dict_get_layerList_init dem :
  dem ∈ DEMS → dict_get (@layerList_init Geometry) dem = Ok None.
Proof.
  unfold DEMS. intros Hd.
  repeat (apply elem_of_cons in Hd as [-> | Hd]; [done |]).
  by apply elem_of_nil in Hd.
Qed.

Lemma tag_DEMS l t : tag l = Some t → t ∈ DEMS.
Proof.
  unfold tag. destruct (re_search DEMS (name l)) as [m|] eqn:Hm; [| done].
  intros [= <-]. by eapply re_search_DEMS.
Qed.

Lemma configure_well_configured fb layers :
  never_canceled fb → well_configured layers →
  ∃ fb', configure fb layerList_init layers
         = Ok (fb', foldl file_layer layerList_init layers)
         ∧ never_canceled fb'.
Proof.
  intros Hfb [Hall Hnd]. apply configure_files; [done | done | | done].
  eapply Forall_impl; [exact Hall |]. intros l [t Ht]. exists t.
  split; [done |]. apply dict_get_layerList_init. by eapply tag_DEMS.
Qed.

Lemma filed_keys layers :
  Forall (λ l, is_Some (tag l)) layers →
  (foldl file_layer layerList_init layers).*1 = DEMS.
Proof.
  intros Hall. rewrite foldl_file_layer_keys; [done |].
  eapply Forall_impl; [exact Hall |]. intros l [t Ht]. exists t.
  split; [done |]. by eapply tag_DEMS.
Qed.

Lemma filed_layers layers dem lay :
  well_configured layers →
  dict_get (foldl file_layer layerList_init layers) dem = Ok (Some lay)
  ↔ lay ∈ layers ∧ tag lay = Some dem.
Proof.
  intros [Hall Hnd]. rewrite dict_get_foldl_file_layer by done. split.
  - intros [? | [_ Hget]]; [done |].
    destruct (decide (dem ∈ DEMS)) as [Hd | Hd].
    + by rewrite dict_get_layerList_init in Hget.
    + by rewrite dict_get_absent in Hget.
  - by left.
Qed.

Lemma filed_perm layers layers' :
  well_configured layers → layers ≡ₚ layers' →
  foldl file_layer layerList_init layers
  = foldl file_layer layerList_init layers'.
Proof.
  intros Hwc Hp.
  assert (Hwc' : well_configured layers').
  { destruct Hwc as [Hall Hnd]. split; by rewrite <- Hp. }
  apply dict_ext.
  - rewrite !filed_keys; [done | apply Hwc' | apply Hwc].
  - rewrite filed_keys by apply Hwc. unfold DEMS.
    apply (bool_decide_unpack _). by vm_compute.
  - intros dem.
    destruct (decide (dem ∈ DEMS)) as [Hd | Hd].
    2: { rewrite !dict_get_absent; [done | |];
         rewrite filed_keys; [done | apply Hwc' | done | apply Hwc]. }
    destruct (dict_get_key (foldl file_layer layerList_init layers) dem)
      as [v Hv]; [by rewrite filed_keys by apply Hwc |].
    destruct (dict_get_key (foldl file_layer layerList_init layers') dem)
      as [v' Hv']; [by rewrite filed_keys by apply Hwc' |].
    rewrite Hv, Hv'. f_equal.
    destruct v as [lay|], v' as [lay'|]; [| | | done].
    + apply filed_layers in Hv as [Hin Ht]; [| done].
      rewrite Hp in Hin.
      assert (dict_get (foldl file_layer layerList_init layers') dem
              = Ok (Some lay)) as Hv2 by (by apply filed_layers).
      congruence.
    + apply filed_layers in Hv as [Hin Ht]; [| done].
      rewrite Hp in Hin.
      assert (dict_get (foldl file_layer layerList_init layers') dem
              = Ok (Some lay)) as Hv2 by (by apply filed_layers).
      congruence.
    + apply filed_layers in Hv' as [Hin Ht]; [| done].
      rewrite <- Hp in Hin.
      assert (dict_get (foldl file_layer layerList_init layers) dem
              = Ok (Some lay')) as Hv2 by (by apply filed_layers).
      congruence.
Qed.

Lemma configure_keys layers : ∀ fb ll fb' ll',
  ll.*1 = DEMS → configure fb ll layers = Ok (fb', ll') → ll'.*1 = DEMS.
Proof.
  induction layers as [|l layers IH]; intros fb ll fb' ll' Hkeys; simpl.
  - by intros [= _ <-].
  - destruct (isCanceled fb) as [[|] fb1]; [by intros [= _ <-] |].
    rewrite Hkeys.
    destruct (re_search DEMS (name l)) as [m|] eqn:Hm; [| done].
    destruct (dict_get ll (Str.upper m)) as [[seen|]|e]; simpl; [| | done].
    + destruct (dict_get ll m) as [[other|]|e]; done.
    + apply IH. rewrite dict_set_keys; [done |]. rewrite Hkeys.
      by eapply re_search_DEMS.
Qed.

(** Every layer in the layer list is one of the layers given, filed under
    the DEM its name holds. *)
Lemma configure_filed layers : ∀ fb ll fb' ll' dem lay,
  ll.*1 = DEMS → configure fb ll layers = Ok (fb', ll') →
  dict_get ll' dem = Ok (Some lay) →
  dict_get ll dem = Ok (Some lay) ∨ (lay ∈ layers ∧ tag lay = Some dem).
Proof.
  induction layers as [|l layers IH]; intros fb ll fb' ll' dem lay Hkeys; simpl.
  - intros [= _ <-]. by left.
  - destruct (isCanceled fb) as [[|] fb1]; [intros [= _ <-]; by left |].
    rewrite Hkeys.
    destruct (re_search DEMS (name l)) as [m|] eqn:Hm; [| done].
    destruct (dict_get ll (Str.upper m)) as [[seen|]|e]; simpl; [| | done].
    + destruct (dict_get ll m) as [[other|]|e]; done.
    + intros Hc Hget.
      destruct (IH _ _ _ _ dem lay ltac:(rewrite dict_set_keys; [done |];
                  rewrite Hkeys; by eapply re_search_DEMS) Hc Hget)
        as [Hd | [Hin Ht]].
      * rewrite dict_get_set in Hd.
        destruct (decide (Str.upper m = dem)) as [<- | Hne]; [| by left].
        injection Hd as <-. right. split; [left |].
        unfold tag. by rewrite Hm.
      * right. split; [by right | done].
Qed.

End layers.

Section runs.
Context `{PySet}.
Context {Point Geometry : Type}.
Variable vertexAt : Geometry → Z → Point.
Variable nCoordinates : Geometry → nat.
Variable nearestNeighbor : list (nat * Point) → Point → nat → Q → list nat.

Local Abbreviation ingest_ := (ingest vertexAt nCoordinates).
Local Abbreviation run_ :=
  (processAlgorithm vertexAt nCoordinates nearestNeighbor).
Local Abbreviation merge_ := (merge_summits nearestNeighbor).
Local Abbreviation match_ := (match_all nearestNeighbor).

(** The entry of [summits] made for the feature [f] of the layer filed
    under [dem]. *)
Definition summit_of (dem : string) (f : @in_feature Geometry)
    : @summit Point Geometry :=
  {| sm_dem := dem; sm_elevation := Elevation f;
     sm_col_elevation := Col_elevation f; sm_g := geometry f;
     sm_gs := vertexAt (geometry f) 0;
     sm_gc := vertexAt (geometry f)
                (Z.of_nat (nCoordinates (geometry f)) - 1) |}.

(** The entries made for one item of the layer list. *)
Definition layer_summits (item : string * option (@layer Geometry))
    : list (@summit Point Geometry) :=
  match item.2 with
  | Some l =>
    summit_of item.1 <$> filter (λ f, hasGeometry f = true) (getFeatures l)
  | None => []
  end.

Lemma foldl_ingest_feature dem fs : ∀ acc,
  foldl (ingest_feature vertexAt nCoordinates dem) acc fs
  = acc ++ (summit_of dem <$> filter (λ f, hasGeometry f = true) fs).
Proof.
  induction fs as [|f fs IH]; intros acc; simpl.
  - by rewrite app_nil_r.
  - rewrite IH. unfold ingest_feature. rewrite filter_cons.
    destruct (hasGeometry f) eqn:Hg.
    + rewrite decide_True by done. rewrite fmap_cons, <- app_assoc. done.
    + rewrite decide_False by done. done.
Qed.

(** Cancelling is looked at between two layers only: what was collected
    is made of whole layers, those of the first items of the layer list. *)
Lemma ingest_take items : ∀ fb acc,
  ∃ k, ingest_ fb items acc = acc ++ (take k items ≫= layer_summits)
       ∧ (never_canceled fb → k = length items).
Proof.
  induction items as [|[dem lay] items IH]; intros fb acc; simpl.
  - exists 0. by rewrite app_nil_r.
  - destruct fb as [|[|] fb]; simpl.
    + destruct lay as [l|].
      * destruct (IH [] (foldl (ingest_feature vertexAt nCoordinates dem)
                           acc (getFeatures l))) as (k & -> & Hk).
        exists (S k). rewrite foldl_ingest_feature, <- app_assoc.
        split; [done |]. intros _. f_equal. apply Hk. constructor.
      * destruct (IH [] acc) as (k & -> & Hk).
        exists (S k). split; [done |]. intros _. f_equal. apply Hk.
        constructor.
    + exists 0. rewrite app_nil_r. split; [done |].
      intros Hfb. by apply Forall_cons in Hfb as [? _].
    + destruct lay as [l|].
      * destruct (IH fb (foldl (ingest_feature vertexAt nCoordinates dem)
                           acc (getFeatures l))) as (k & -> & Hk).
        exists (S k). rewrite foldl_ingest_feature, <- app_assoc.
        split; [done |]. intros Hfb. f_equal. apply Hk.
        by apply Forall_cons in Hfb as [_ ?].
      * destruct (IH fb acc) as (k & -> & Hk).
        exists (S k). split; [done |]. intros Hfb. f_equal. apply Hk.
        by apply Forall_cons in Hfb as [_ ?].
Qed.

Lemma ingest_never fb items :
  never_canceled fb → ingest_ fb items [] = items ≫= layer_summits.
Proof.
  intros Hfb. destruct (ingest_take items fb []) as (k & -> & Hk).
  rewrite (Hk Hfb), firstn_all. done.
Qed.

Lemma layer_summits_dem item sm :
  sm ∈ layer_summits item → sm_dem sm = item.1 ∧ is_Some item.2.
Proof.
  unfold layer_summits. destruct item as [dem [l|]]; simpl.
  - intros (f & -> & _)%list_elem_of_fmap. eauto.
  - intros Hsm. by apply elem_of_nil in Hsm.
Qed.

Lemma collected_dem items sm :
  sm ∈ items ≫= layer_summits →
  ∃ p lay, items !! p = Some (sm_dem sm, Some lay).
Proof.
  intros (item & Hsm & (p & Hp)%list_elem_of_lookup)%list_elem_of_bind.
  apply layer_summits_dem in Hsm as [Hd [lay Hl]].
  exists p, lay. rewrite Hp. destruct item; simpl in *. by subst.
Qed.

(** The summits are collected in the order of the layer list. *)
Lemma collected_order items : ∀ i j a b,
  (items ≫= layer_summits) !! i = Some a →
  (items ≫= layer_summits) !! j = Some b → i ≤ j →
  ∃ p q, items.*1 !! p = Some (sm_dem a) ∧ items.*1 !! q = Some (sm_dem b)
         ∧ p ≤ q.
Proof.
  induction items as [|item items IH]; intros i j a b; [done |].
  rewrite bind_cons. intros Hi Hj Hij.
  apply lookup_app_Some in Hi as [Hi | [Hlen Hi]].
  - apply list_elem_of_lookup_2, layer_summits_dem in Hi as [Ha _].
    apply lookup_app_Some in Hj as [Hj | [_ Hj]].
    + apply list_elem_of_lookup_2, layer_summits_dem in Hj as [Hb _].
      exists 0, 0. simpl. by rewrite Ha, Hb.
    + apply list_elem_of_lookup_2, collected_dem in Hj as (q & lay & Hq).
      exists 0, (S q). simpl. rewrite Ha, list_lookup_fmap, Hq.
      split_and!; [done | done | lia].
  - apply lookup_app_Some in Hj as [Hj%lookup_lt_Some | [_ Hj]]; [lia |].
    destruct (IH _ _ _ _ Hi Hj ltac:(lia)) as (p & q & Hp & Hq & Hpq).
    exists (S p), (S q). split_and!; [done | done | lia].
Qed.

Lemma ingest_configured fb layers fb' ll :
  configure fb layerList_init layers = Ok (fb', ll) →
  ∃ k, ingest_ fb' ll [] = take k ll ≫= layer_summits ∧ ll.*1 = DEMS.
Proof.
  intros Hc. destruct (ingest_take ll fb' []) as (k & Hk & _).
  exists k. split; [done |].
  by apply (configure_keys layers fb layerList_init fb' ll).
Qed.

(** The record indices follow the order of the DEM list. *)
Lemma ingest_order fb layers fb' ll i j a b :
  configure fb layerList_init layers = Ok (fb', ll) →
  ingest_ fb' ll [] !! i = Some a → ingest_ fb' ll [] !! j = Some b →
  i ≤ j →
  ∃ u v, DEMS !! u = Some (sm_dem a) ∧ DEMS !! v = Some (sm_dem b) ∧ u ≤ v.
Proof.
  intros (k & -> & Hkeys)%ingest_configured Hi Hj Hij.
  destruct (collected_order _ _ _ _ _ Hi Hj Hij) as (p & q & Hp & Hq & Hpq).
  rewrite fmap_take, Hkeys in Hp, Hq.
  apply lookup_take_Some in Hp as [Hp _], Hq as [Hq _]. eauto.
Qed.

(** A group is a tuple in ascending order without repetition. *)
Lemma group_ascending (d : gmap nat (list nat)) E m p q i j :
  chained E d → m ∈ groups d →
  p < q → m !! p = Some i → m !! q = Some j → i < j.
Proof.
  intros Hc (x & Hx)%elem_of_groups Hpq Hi Hj.
  destruct (chained_tuple _ _ Hc _ _ Hx) as (M & ->).
  unfold sorted_tuple, sorted_nat in *.
  assert (i ≤ j).
  { eapply (StronglySorted_lookup (≤)); [| exact Hi | exact Hj | done].
    apply StronglySorted_merge_sort; apply _. }
  assert (i ≠ j); [| lia].
  intros <-.
  assert (NoDup (merge_sort (≤) (set_iter M))) as Hnd.
  { rewrite merge_sort_Permutation. apply NoDup_set_iter. }
  pose proof (NoDup_lookup _ _ _ _ Hnd Hi Hj). lia.
Qed.

(** *** The schema and the geometry of a merged feature (lines 175-185,
    218-221 and 292-303) *)

Definition base_fields : list string :=
  ["fid"; "ID"; "Name"; "Elevation"; "Col elevation"; "Reference";
   "Prominence"; "Merge"; "Cross"; "Notes"].

(** [for dem in layerList: if layerList[dem]: fields.append(...)] *)
Definition dem_fields (ll : list (string * option (@layer Geometry)))
    : list string :=
  item ← ll;
  match item.2 with
  | Some _ => [item.1 +:+ " Elevation"; item.1 +:+ " Col elevation"]
  | None => []
  end.

Definition fields (ll : list (string * option (@layer Geometry)))
    : list string :=
  base_fields ++ dem_fields ll.

(** [p.asPoint().x()] and [p.asPoint().y()]; the coordinates are taken as
    rationals. *)
Variable px py : Point → Q.

(** [sum(...)] starts from 0 and adds from the left. *)
Definition sumQ (l : list Q) : Q := foldl Qplus 0%Q l.

Definition meanXY (points : list Point) : result (Q * Q) :=
  match points with
  | [] => Raise ZeroDivisionError
  | _ =>
    let n := inject_Z (Z.of_nat (length points)) in
    Ok (sumQ (px <$> points) / n, sumQ (py <$> points) / n)%Q
  end.

(** The parts handed to [QgsGeometry.collectGeometry]: the line between
    the two mean points, then the geometries of the members. *)
Inductive part : Type :=
  | mean_line (s c : Q * Q)
  | member (g : Geometry).

Definition group_geometry (summits : list (@summit Point Geometry))
    (m : list nat) : result (list part) :=
  gs ← mapR (λ i, sm ← getindex summits i; Ok (sm_gs sm)) m;
  s ← meanXY gs;
  gc ← mapR (λ i, sm ← getindex summits i; Ok (sm_gc sm)) m;
  c ← meanXY gc;
  g ← mapR (λ i, sm ← getindex summits i; Ok (sm_g sm)) m;
  Ok (mean_line s c :: (member <$> g)).

Lemma mapR_getindex {A B} (f : A → B) (l : list A) (m : list nat) out :
  mapR (λ i, a ← getindex l i; Ok (f a)) m = Ok out →
  length out = length m
  ∧ ∀ p i, m !! p = Some i → ∃ a, l !! i = Some a ∧ out !! p = Some (f a).
Proof.
  intros HF%mapR_Ok. split; [symmetry; by eapply Forall2_length |].
  intros p i Hp.
  destruct (Forall2_lookup_l _ _ _ _ _ HF Hp) as (b & Hb & Hget).
  unfold getindex in Hget. destruct (l !! i) as [a|]; [| done].
  simpl in Hget. injection Hget as <-. eauto.
Qed.

Lemma mapR_getindex_Ok {A B} (f : A → B) (l : list A) (m : list nat) :
  (∀ i, i ∈ m → i < length l) →
  ∃ out, mapR (λ i, a ← getindex l i; Ok (f a)) m = Ok out
         ∧ length out = length m.
Proof.
  intros Hm.
  destruct (mapR_Forall (λ i, a ← getindex l i; Ok (f a)) (λ _, True) m)
    as (out & Hout & _ & Hlen); [| eauto].
  apply Forall_forall. intros i Hi.
  destruct (getindex_lt l i (Hm i Hi)) as (a & _ & ->). by exists (f a).
Qed.

Lemma meanXY_Ok points :
  points ≠ [] → ∃ s, meanXY points = Ok s.
Proof. destruct points; [done | eauto]. Qed.

Lemma dict_get_elem_of {V} (d : list (string * V)) k v :
  NoDup d.*1 → (k, v) ∈ d → dict_get d k = Ok v.
Proof.
  induction d as [|[k' v'] d IH]; rewrite ?fmap_cons; simpl.
  - intros _ Hin. by apply elem_of_nil in Hin.
  - intros [Hk Hnd]%NoDup_cons [[= <- <-] | Hin]%elem_of_cons.
    + by rewrite String.eqb_refl.
    + destruct (String.eqb_spec k' k) as [Heq | _]; [| auto].
      subst k'. destruct Hk. apply list_elem_of_fmap. by exists (k, v).
Qed.

Lemma NoDup_DEMS : NoDup DEMS.
Proof. apply (bool_decide_unpack _). by vm_compute. Qed.

(** The layers of the layer list are layers that were given. *)
Lemma configured_layers fb (layers : list (@layer Geometry)) fb' ll dem lay :
  configure fb layerList_init layers = Ok (fb', ll) →
  (dem, Some lay) ∈ ll → lay ∈ layers ∧ tag lay = Some dem.
Proof.
  intros Hc Hin.
  pose proof (configure_keys layers fb layerList_init fb' ll eq_refl Hc)
    as Hkeys.
  assert (dict_get ll dem = Ok (Some lay)) as Hget.
  { apply dict_get_elem_of; [| done]. rewrite Hkeys. apply NoDup_DEMS. }
  destruct (configure_filed layers fb layerList_init fb' ll dem lay
              eq_refl Hc Hget) as [Hd | ?]; [| done].
  destruct (decide (dem ∈ DEMS)) as [Hdem | Hdem].
  - by rewrite dict_get_layerList_init in Hd.
  - by rewrite dict_get_absent in Hd.
Qed.

Lemma set_iter_empty `{Countable A} : set_iter (∅ : gset A) = [].
Proof.
  apply Permutation_nil_r. by rewrite set_iter_perm, elements_empty.
Qed.

Lemma length_set_iter `{Countable A} (X : gset A) :
  length (set_iter X) = size X.
Proof. by rewrite set_iter_perm. Qed.

Lemma aggregate_length (summits : list (@summit Point Geometry)) st dm :
  ∀ features fmap features' fmap',
  aggregate summits st features fmap dm = Ok (features', fmap') →
  length features' = length features + length dm.
Proof.
  induction dm as [|m dm IH]; intros features fmap features' fmap'; simpl.
  - intros [= <- _]. lia.
  - destruct (aggregate_group summits st (length features) fmap m)
      as [[f fmap1]|e]; simpl; [| done].
    intros Hq%IH. rewrite length_app in Hq. simpl in *. lia.
Qed.

Lemma merge_summits_nil d :
  merge_ ([] : list (@summit Point Geometry)) d = Raise ValueError.
Proof.
  unfold merge_summits, match_all. simpl.
  assert (groups (∅ : gmap nat (list nat)) = ∅) as ->.
  { unfold groups. by rewrite map_to_list_empty. }
  by rewrite set_iter_empty.
Qed.

(** *** Properties of the layer list *)

(** X1.  When the host does not cancel and the layers are not
    misconfigured (every layer name holds a DEM name and no two layers are
    filed under the same DEM), the first loop accepts them: the layer list
    keeps its five keys in the order SRTM, ASTER, ALOS, TDX, GLO30, and the
    layer found under a DEM is the one layer whose name holds that DEM
    name, so every layer given is in the list. *)
Theorem configure_accepts (fb : feedback) (layers : list (@layer Geometry)) :
  never_canceled fb → ¬ misconfigured layers →
  ∃ fb' ll, configure fb layerList_init layers = Ok (fb', ll)
    ∧ never_canceled fb'
    ∧ ll.*1 = DEMS
    ∧ (∀ dem lay, dict_get ll dem = Ok (Some lay)
                  ↔ lay ∈ layers ∧ tag lay = Some dem)
    ∧ (∀ lay, lay ∈ layers →
         ∃ dem, dem ∈ DEMS ∧ dict_get ll dem = Ok (Some lay)).
Proof.
  intros Hfb Hwc%not_misconfigured.
  destruct (configure_well_configured fb layers Hfb Hwc) as (fb' & Hc & Hfb').
  eexists _, _. split; [exact Hc |]. split_and!.
  - done.
  - apply filed_keys, Hwc.
  - intros dem lay. by apply filed_layers.
  - intros lay Hlay. pose proof Hwc as [Hall Hnd].
    rewrite Forall_forall in Hall. destruct (Hall lay Hlay) as [dem Hdem].
    exists dem. split; [by eapply tag_DEMS |]. by apply filed_layers.
Qed.

(** X2.  The order in which the layers are given does not matter: when the
    host does not cancel and the layers are not misconfigured, the run over
    the layers and the run over the same layers in any other order hand the
    same features to the sink (or fail the same way).  The destination CRS,
    taken from the first layer with a valid CRS when none is given, is not
    part of this. *)
Theorem layer_order_irrelevant (fb fb' : feedback)
    (layers layers' : list (@layer Geometry)) (distance : Q) :
  never_canceled fb → never_canceled fb' →
  ¬ misconfigured layers → layers ≡ₚ layers' →
  run_ fb layers distance = run_ fb' layers' distance.
Proof.
  intros Hfb Hfb' Hwc%not_misconfigured Hp.
  assert (Hwc' : well_configured layers').
  { destruct Hwc as [Hall Hnd]. split; by rewrite <- Hp. }
  unfold processAlgorithm.
  destruct (configure_well_configured fb layers Hfb Hwc) as (fb1 & -> & Hfb1).
  destruct (configure_well_configured fb' layers' Hfb' Hwc')
    as (fb2 & -> & Hfb2).
  simpl. rewrite !ingest_never by done.
  by rewrite (filed_perm layers layers').
Qed.

(** X3.  The parts of a merged geometry are in a known order.  After the
    layers were accepted, the members of a group are in ascending order of
    their record index, and the record indices follow the DEM list, so a
    member from an earlier DEM of the list comes before a member from a
    later one; the geometry is the line between the mean summit and the
    mean col followed by the members' geometries in this order, one part
    for each member, and it is built for every group when the index
    answers with ids of collected records.  For a group of one record the
    line joins the record's own summit and col. *)
Theorem parts_in_known_order (fb : feedback) (layers : list (@layer Geometry))
    (distance : Q) (fb' : feedback) ll :
  configure fb layerList_init layers = Ok (fb', ll) →
  let summits := ingest_ fb' ll [] in
  ∀ m, m ∈ groups (dmatch (match_ summits distance)) →
    (∀ p q i j, p < q → m !! p = Some i → m !! q = Some j →
       i < j
       ∧ ∀ a b, summits !! i = Some a → summits !! j = Some b →
           ∃ u v, DEMS !! u = Some (sm_dem a) ∧ DEMS !! v = Some (sm_dem b)
                  ∧ u ≤ v)
    ∧ (∀ parts, group_geometry summits m = Ok parts →
         length parts = S (length m)
         ∧ (∃ s c, parts !! 0 = Some (mean_line s c))
         ∧ ∀ p i, m !! p = Some i →
             ∃ sm, summits !! i = Some sm
                   ∧ parts !! S p = Some (member (sm_g sm)))
    ∧ (matches_in_range nearestNeighbor summits distance →
         ∃ parts, group_geometry summits m = Ok parts)
    ∧ (∀ i sm, m = [i] → summits !! i = Some sm →
         ∃ s c, group_geometry summits m
                = Ok [mean_line s c; member (sm_g sm)]
           ∧ (s.1 == px (sm_gs sm) ∧ s.2 == py (sm_gs sm)
              ∧ c.1 == px (sm_gc sm) ∧ c.2 == py (sm_gc sm))%Q).
Proof.
  intros Hc summits m Hm.
  pose proof (match_all_chained nearestNeighbor summits distance) as Hch.
  split_and!.
  - intros p q i j Hpq Hi Hj.
    assert (i < j) as Hij by (by eapply group_ascending).
    split; [done |]. intros a b Ha Hb.
    eapply (ingest_order fb layers fb' ll i j); [done | done | done | lia].
  - intros parts. unfold group_geometry.
    destruct (mapR (λ i, sm ← getindex summits i; Ok (sm_gs sm)) m)
      as [gs|]; simpl; [| done].
    destruct (meanXY gs) as [s|]; simpl; [| done].
    destruct (mapR (λ i, sm ← getindex summits i; Ok (sm_gc sm)) m)
      as [gc|]; simpl; [| done].
    destruct (meanXY gc) as [c|]; simpl; [| done].
    destruct (mapR (λ i, sm ← getindex summits i; Ok (sm_g sm)) m)
      as [g|] eqn:Hg; simpl; [| done].
    intros [= <-]. apply mapR_getindex in Hg as [Hlen Hg].
    split_and!.
    + simpl. by rewrite length_fmap, Hlen.
    + by exists s, c.
    + intros p i Hp. destruct (Hg p i Hp) as (sm & Hsm & Hout).
      exists sm. split; [done |]. simpl. by rewrite list_lookup_fmap, Hout.
  - intros Hrange.
    assert (Hin : ∀ i, i ∈ m → i < length summits).
    { intros i Hi. apply elem_of_groups in Hm as (x & Hx).
      apply (grouped_in_range nearestNeighbor summits distance i m Hrange).
      by apply (chained_closed _ _ Hch x). }
    assert (m ≠ []) as Hne.
    { intros ->. apply elem_of_groups in Hm as (x & Hx).
      apply (chained_self _ _ Hch) in Hx. by apply elem_of_nil in Hx. }
    unfold group_geometry.
    destruct (mapR_getindex_Ok sm_gs summits m Hin) as (gs & -> & Hgs).
    simpl. destruct (meanXY_Ok gs) as [s ->].
    { intros ->. destruct m; simpl in *; [done | lia]. }
    simpl.
    destruct (mapR_getindex_Ok sm_gc summits m Hin) as (gc & -> & Hgc).
    simpl. destruct (meanXY_Ok gc) as [c ->].
    { intros ->. destruct m; simpl in *; [done | lia]. }
    simpl.
    destruct (mapR_getindex_Ok sm_g summits m Hin) as (g & -> & Hg).
    simpl. eauto.
  - intros i sm -> Hsm. unfold group_geometry, getindex. simpl.
    rewrite Hsm. simpl. eexists _, _. split; [reflexivity |].
    unfold sumQ. simpl. split_and!; field.
Qed.

(** *** Properties of the per-DEM columns *)

(** The DEM of the record [i]. *)
Definition dem_at (summits : list (@summit Point Geometry)) (i : nat)
    : string :=
  from_option sm_dem "" (summits !! i).

Lemma member_step_inv (summits : list (@summit Point Geometry)) st k a i a' :
  member_step summits st k a i = Ok a' →
  ∃ sm, summits !! i = Some sm
    ∧ acc_Elevation a' = <[sm_dem sm := sm_elevation sm]> (acc_Elevation a)
    ∧ acc_Col_elevation a'
      = <[sm_dem sm := sm_col_elevation sm]> (acc_Col_elevation a).
Proof.
  unfold member_step, getindex.
  destruct (summits !! i) as [sm|]; simpl; [| done].
  destruct (smatch st !! i) as [si|]; simpl; [| done].
  destruct (cmatch st !! i) as [ci|]; simpl; [| done].
  intros [= <-]. by exists sm.
Qed.

(** The columns after the loop over the members: for each DEM the values
    of the last member from it. *)
Lemma foldlR_member_step_columns (summits : list (@summit Point Geometry))
    st k m : ∀ a a',
  foldlR (member_step summits st k) a m = Ok a' →
  (∀ i, i ∈ m → i < length summits)
  ∧ ∀ dem,
      acc_Elevation a' !! dem
      = match last (filter (λ i, dem_at summits i = dem) m) with
        | Some i => Some (elevation_at summits i)
        | None => acc_Elevation a !! dem
        end
      ∧ acc_Col_elevation a' !! dem
        = match last (filter (λ i, dem_at summits i = dem) m) with
          | Some i => Some (col_elevation_at summits i)
          | None => acc_Col_elevation a !! dem
          end.
Proof.
  induction m as [|i m IH]; intros a a'; simpl.
  - intros [= <-]. split; [| done]. intros i Hi. by apply elem_of_nil in Hi.
  - destruct (member_step summits st k a i) as [a1|] eqn:Hstep; simpl;
      [| done].
    intros Hfold. destruct (IH _ _ Hfold) as [Hin Hcol].
    apply member_step_inv in Hstep as (sm & Hsm & HE & HC).
    split.
    + intros j [-> | Hj]%elem_of_cons; [| auto].
      by eapply lookup_lt_Some.
    + intros dem. destruct (Hcol dem) as [-> ->].
      rewrite filter_cons.
      assert (dem_at summits i = sm_dem sm) as Hdi
        by (unfold dem_at; by rewrite Hsm).
      rewrite HE, HC.
      destruct (decide (dem_at summits i = dem)) as [Hd | Hd].
      * rewrite last_cons.
        destruct (last (filter (λ i, dem_at summits i = dem) m)); [done |].
        unfold elevation_at, col_elevation_at. rewrite Hsm. simpl.
        rewrite <- Hd, Hdi. by rewrite !lookup_insert_eq.
      * destruct (last (filter (λ i, dem_at summits i = dem) m)); [done |].
        rewrite !lookup_insert_ne; [done | congruence | congruence].
Qed.

Lemma NoDup_fields ll : ll.*1 = DEMS → NoDup (fields ll).
Proof.
  intros Hkeys. unfold fields, dem_fields.
  destruct ll as [|[k1 v1] [|[k2 v2] [|[k3 v3] [|[k4 v4] [|[k5 v5] [|]]]]]];
    try discriminate.
  injection Hkeys as -> -> -> -> ->.
  destruct v1, v2, v3, v4, v5; apply (bool_decide_unpack _); by vm_compute.
Qed.

Lemma elem_of_dem_fields ll dem lay :
  (dem, Some lay) ∈ ll →
  dem +:+ " Elevation" ∈ fields ll ∧ dem +:+ " Col elevation" ∈ fields ll.
Proof.
  intros Hin. unfold fields, dem_fields.
  split; apply elem_of_app; right; apply list_elem_of_bind;
    exists (dem, Some lay); (split; [| done]); simpl; set_solver.
Qed.

(** X4.  The columns a merged feature gets are columns of the schema.
    After the layers were accepted, the schema holds no field name twice,
    and for each DEM a merged feature has values for, the fields
    [<DEM> Elevation] and [<DEM> Col elevation] were appended to it. *)
Theorem columns_declared (fb : feedback) (layers : list (@layer Geometry))
    (fb' : feedback) ll st k fmap m f fmap' :
  configure fb layerList_init layers = Ok (fb', ll) →
  aggregate_group (ingest_ fb' ll []) st k fmap m = Ok (f, fmap') →
  NoDup (fields ll)
  ∧ ∀ dem, is_Some (dem_Elevation f !! dem)
           ∨ is_Some (dem_Col_elevation f !! dem) →
      dem ∈ DEMS
      ∧ dem +:+ " Elevation" ∈ fields ll
      ∧ dem +:+ " Col elevation" ∈ fields ll.
Proof.
  intros Hc Hagg.
  destruct (ingest_configured _ _ _ _ Hc) as (n & Hing & Hkeys).
  split; [by apply NoDup_fields |].
  unfold aggregate_group in Hagg.
  destruct (foldlR _ _ m) as [a|] eqn:Hfold; simpl in Hagg; [| done].
  destruct m as [|i0 m0] eqn:Hm; [done |]. rewrite <- Hm in *.
  injection Hagg as <- _. simpl.
  apply foldlR_member_step_columns in Hfold as [Hin Hcol]. simpl in Hcol.
  intros dem Hdem.
  assert (∃ i, i ∈ m ∧ dem_at (ingest_ fb' ll []) i = dem) as (i & Hi & Hd).
  { destruct (Hcol dem) as [HE HC]. rewrite HE, HC in Hdem.
    destruct (last (filter (λ i, dem_at (ingest_ fb' ll []) i = dem) m))
      as [i|] eqn:Hlast.
    - apply last_Some_elem_of, list_elem_of_filter in Hlast as [??].
      by exists i.
    - rewrite !lookup_empty in Hdem. by destruct Hdem as [[] | []]. }
  destruct (lookup_lt_is_Some_2 _ i (Hin i Hi)) as [sm Hsm].
  unfold dem_at in Hd. rewrite Hsm in Hd. simpl in Hd. subst dem.
  rewrite Hing in Hsm.
  apply list_elem_of_lookup_2, collected_dem in Hsm as (p & lay & Hp).
  apply lookup_take_Some in Hp as [Hp _].
  split.
  - rewrite <- Hkeys. apply list_elem_of_fmap.
    exists (sm_dem sm, Some lay). split; [done |].
    by eapply list_elem_of_lookup_2.
  - eapply elem_of_dem_fields. by eapply list_elem_of_lookup_2.
Qed.

(** X5.  When a group has several members from one DEM, the columns of
    that DEM show the last of them (the one with the highest record
    index): whenever a merged feature is built for the members [m], its
    [<DEM> Elevation] and [<DEM> Col elevation] are the values of the last
    member of [m] from that DEM, and NULL when no member is from it. *)
Theorem columns_last_member (summits : list (@summit Point Geometry))
    st k fmap m f fmap' :
  aggregate_group summits st k fmap m = Ok (f, fmap') →
  ∀ dem,
    dem_Elevation f !! dem
    = elevation_at summits
        <$> last (filter (λ i, dem_at summits i = dem) m)
    ∧ dem_Col_elevation f !! dem
      = col_elevation_at summits
          <$> last (filter (λ i, dem_at summits i = dem) m).
Proof.
  intros Hagg. unfold aggregate_group in Hagg.
  destruct (foldlR _ _ m) as [a|] eqn:Hfold; simpl in Hagg; [| done].
  destruct m as [|i0 m0] eqn:Hm; [done |]. rewrite <- Hm in *.
  injection Hagg as <- _. simpl.
  apply foldlR_member_step_columns in Hfold as [_ Hcol]. simpl in Hcol.
  intros dem. destruct (Hcol dem) as [-> ->].
  by destruct (last (filter (λ i, dem_at summits i = dem) m)).
Qed.

(** *** Properties of the groups *)

(** X6.  Whatever the two indexes answer, the groups of [dm] are tuples in
    strictly ascending order that are not empty and do not overlap: every
    member of a group has this group as its entry of [dmatch], and two
    groups with a common member are the same group. *)
Theorem groups_disjoint (summits : list (@summit Point Geometry))
    (distance : Q) (g : list nat) :
  g ∈ groups (dmatch (match_ summits distance)) →
  g ≠ []
  ∧ (∀ p q i j, p < q → g !! p = Some i → g !! q = Some j → i < j)
  ∧ (∀ x, x ∈ g → dmatch (match_ summits distance) !! x = Some g)
  ∧ (∀ g' x, g' ∈ groups (dmatch (match_ summits distance)) →
       x ∈ g → x ∈ g' → g' = g).
Proof.
  intros Hg.
  pose proof (match_all_chained nearestNeighbor summits distance) as Hch.
  pose proof Hg as (y & Hy)%elem_of_groups.
  split_and!.
  - intros ->. apply (chained_self _ _ Hch) in Hy. by apply elem_of_nil in Hy.
  - intros p q i j. by eapply group_ascending.
  - intros x Hx. by apply (chained_closed _ _ Hch y).
  - intros g' x (y' & Hy')%elem_of_groups Hx Hx'.
    pose proof (chained_closed _ _ Hch _ _ _ Hy Hx).
    pose proof (chained_closed _ _ Hch _ _ _ Hy' Hx'). congruence.
Qed.

(** *** Properties of the whole run *)

Lemma bind_all_nil {A B} (f : A → list B) (l : list A) :
  Forall (λ x, f x = []) l → l ≫= f = [].
Proof.
  induction 1 as [|x l Hx _ IH]; [done |]. by rewrite bind_cons, Hx, IH.
Qed.

Lemma filter_none {A} (P : A → Prop) `{∀ x, Decision (P x)} (l : list A) :
  Forall (λ x, ¬ P x) l → filter P l = [].
Proof.
  induction 1 as [|x l Hx _ IH]; [done |].
  by rewrite filter_cons, decide_False, IH.
Qed.

(** X7.  When no feature of the layers has a geometry (or no layer is
    given), nothing is collected and the run does not hand an empty list
    to the sink: it stops with the [ValueError] of the unpacking
    assignment on line 324, unless the layers were rejected before. *)
Theorem nothing_to_merge (fb : feedback) (layers : list (@layer Geometry))
    (distance : Q) :
  (∀ l f, l ∈ layers → f ∈ getFeatures l → hasGeometry f = false) →
  run_ fb layers distance = Raise ValueError
  ∨ ∃ e, configure fb layerList_init layers = Raise e
         ∧ run_ fb layers distance = Raise e.
Proof.
  intros Hno. unfold processAlgorithm.
  destruct (configure fb layerList_init layers) as [[fb' ll]|e] eqn:Hc;
    simpl; [left | right; eauto].
  destruct (ingest_configured _ _ _ _ Hc) as (n & -> & _).
  assert (take n ll ≫= layer_summits = []) as ->;
    [| apply merge_summits_nil].
  apply bind_all_nil, Forall_forall.
  intros [dem [lay|]] (p & Hin%list_elem_of_lookup_2 & _)%elem_of_take;
    [| done].
  unfold layer_summits. simpl.
  destruct (configured_layers _ _ _ _ _ _ Hc Hin) as [Hlay _].
  rewrite filter_none; [done |].
  apply Forall_forall. intros f Hf. by rewrite (Hno lay f).
Qed.

(** X8.  A run that succeeds hands the sink one feature for each group,
    and at least one: the batch was not empty. *)
Theorem one_feature_per_group (summits : list (@summit Point Geometry))
    (distance : Q) out :
  merge_ summits distance = Ok out →
  length out = size (groups (dmatch (match_ summits distance)))
  ∧ out ≠ [] ∧ summits ≠ [].
Proof.
  intros Hrun.
  assert (summits ≠ []) as Hne.
  { intros ->. by rewrite merge_summits_nil in Hrun. }
  unfold merge_summits in Hrun.
  destruct (aggregate _ _ _ _ _) as [[features fmap]|] eqn:Hagg;
    simpl in Hrun; [| done].
  apply aggregate_length in Hagg. simpl in Hagg.
  rewrite length_set_iter in Hagg.
  unfold unzip_ranked in Hrun.
  assert (length (ranked features) = length features) as Hlen
    by (by rewrite ranked_perm, length_enumerate).
  destruct (ranked features) as [|e r] eqn:Hr; [done |].
  assert (mapR (finish fmap (invert (e :: r).*1)) (enumerate (e :: r).*2)
          = Ok out) as Hout by exact Hrun.
  apply mapR_Ok, Forall2_length in Hout.
  rewrite length_enumerate, length_fmap in Hout. simpl in Hout, Hlen.
  split_and!; [lia | | done].
  intros ->. simpl in Hout. lia.
Qed.

End runs.
End MergeLayers.

(** ** Runs of the merge: the layer list and the merged features *)

Module MergeLayerRuns.
Import MergeSummitLayers GroupBuilder MergeRuns MergeLayers.

Definition px (p : Point) : Q := inject_Z p.1.
Definition py (p : Point) : Q := inject_Z p.2.

Lemma chain_not_misconfigured : ¬ misconfigured chain_layers.
Proof.
  apply not_misconfigured. split.
  - repeat constructor; by eexists.
  - apply (bool_decide_unpack _). by vm_compute.
Defined.

(** The three layers of the chain are accepted, each under its DEM. *)
Lemma configure_accepts_chain :
  never_canceled [] ∧ ¬ misconfigured chain_layers
  ∧ ∃ fb' ll, configure [] layerList_init chain_layers = Ok (fb', ll)
      ∧ ll.*1 = DEMS.
Proof.
  split_and!; [constructor | exact chain_not_misconfigured |].
  destruct (configure_accepts [] chain_layers ltac:(constructor)
              chain_not_misconfigured) as (fb' & ll & Hc & _ & Hkeys & _).
  by exists fb', ll.
Defined.

(** The chain given from the last layer to the first is merged into the
    same feature. *)
Lemma layer_order_irrelevant_chain :
  never_canceled [] ∧ ¬ misconfigured chain_layers
  ∧ chain_layers ≡ₚ reverse chain_layers
  ∧ run [] chain_layers 5 = run [] (reverse chain_layers) 5.
Proof.
  split_and!; [constructor | exact chain_not_misconfigured
              | symmetry; apply reverse_Permutation |].
  apply (layer_order_irrelevant vertexAt (@length Point) nearestNeighbor
           [] [] chain_layers (reverse chain_layers) 5);
    [constructor | constructor | exact chain_not_misconfigured |].
  symmetry. apply reverse_Permutation.
Defined.

Definition chain_list : list (string * option (@layer (list Point))) :=
  Eval vm_compute in
    match configure [] layerList_init chain_layers with
    | Ok (_, ll) => ll
    | Raise _ => []
    end.

Lemma chain_configured :
  configure [] layerList_init chain_layers = Ok ([], chain_list).
Proof. reflexivity. Defined.

Lemma chain_group :
  [0; 1; 2] ∈ groups (dmatch (match_all nearestNeighbor
                                (ingest vertexAt (@length Point) []
                                   chain_list []) 5)).
Proof. apply (bool_decide_unpack _). by vm_compute. Defined.

(** The parts of the feature merged from the chain: the mean line, then
    the SRTM, the ASTER and the ALOS detection. *)
Lemma parts_in_known_order_chain :
  configure [] layerList_init chain_layers = Ok ([], chain_list)
  ∧ ∃ parts,
      group_geometry px py
        (ingest vertexAt (@length Point) [] chain_list []) [0; 1; 2]
      = Ok parts
      ∧ length parts = 4.
Proof.
  split; [exact chain_configured |].
  destruct (parts_in_known_order vertexAt (@length Point) nearestNeighbor
              px py [] chain_layers 5 [] chain_list chain_configured
              [0; 1; 2] chain_group) as (_ & Hlen & Hok & _).
  destruct Hok as [parts Hparts].
  { apply queries_matches_in_range, exhaustive_queries_in_range. }
  exists parts. split; [exact Hparts |].
  by destruct (Hlen parts Hparts) as [-> _].
Defined.

Lemma chain_aggregate :
  ∃ f fmap,
    aggregate_group (ingest vertexAt (@length Point) [] chain_list [])
      (match_all nearestNeighbor chain_summits 5) 0 ∅ [0; 1; 2]
    = Ok (f, fmap).
Proof. eexists _, _. vm_compute. reflexivity. Defined.

(** The feature merged from the chain has the columns of its three DEMs,
    all of them declared. *)
Lemma columns_declared_chain :
  configure [] layerList_init chain_layers = Ok ([], chain_list)
  ∧ ∃ f fmap,
      aggregate_group (ingest vertexAt (@length Point) [] chain_list [])
        (match_all nearestNeighbor chain_summits 5) 0 ∅ [0; 1; 2]
      = Ok (f, fmap)
      ∧ NoDup (fields chain_list).
Proof.
  split; [exact chain_configured |].
  destruct chain_aggregate as (f & fmap & Hagg).
  exists f, fmap. split; [exact Hagg |].
  by destruct (columns_declared vertexAt (@length Point) [] chain_layers []
                 chain_list _ 0 ∅ [0; 1; 2] f fmap chain_configured Hagg)
    as [Hnd _].
Defined.

(** Two SRTM detections of one summit in one group. *)
Definition twin_summits : list (@summit Point (list Point)) :=
  Eval vm_compute in
    collect [ {| name := "SRTM";
                 getFeatures := [ line 1500 1000 (0, 0)%Z (0, 100)%Z;
                                  line 1510 1004 (0, 1)%Z (1, 100)%Z ] |} ].

Lemma twin_aggregate :
  ∃ f fmap,
    aggregate_group twin_summits (match_all nearestNeighbor twin_summits 5)
      0 ∅ [0; 1] = Ok (f, fmap).
Proof. eexists _, _. vm_compute. reflexivity. Defined.

(** The SRTM columns show the second detection; the prominence is the mean
    of both. *)
Lemma columns_last_member_twin :
  ∃ f fmap,
    aggregate_group twin_summits (match_all nearestNeighbor twin_summits 5)
      0 ∅ [0; 1] = Ok (f, fmap)
    ∧ dem_Elevation f !! "SRTM" = Some 1510%Z
    ∧ dem_Col_elevation f !! "SRTM" = Some 1004%Z.
Proof.
  destruct twin_aggregate as (f & fmap & Hagg).
  exists f, fmap. split; [exact Hagg |].
  destruct (columns_last_member twin_summits _ 0 ∅ [0; 1] f fmap Hagg "SRTM")
    as [-> ->].
  split; reflexivity.
Defined.

(** A layer whose only feature has no geometry. *)
Definition bare_layers : list (@layer (list Point)) :=
  [ {| name := "SRTM";
       getFeatures := [ {| hasGeometry := false; geometry := [];
                           Elevation := 1500; Col_elevation := 1000 |} ] |} ].

Lemma bare_layers_no_geometry :
  ∀ l f, l ∈ bare_layers → f ∈ getFeatures l → hasGeometry f = false.
Proof.
  intros l f Hl Hf.
  apply list_elem_of_singleton in Hl. subst l.
  apply list_elem_of_singleton in Hf. by subst f.
Defined.

Lemma nothing_to_merge_bare :
  (∀ l f, l ∈ bare_layers → f ∈ getFeatures l → hasGeometry f = false)
  ∧ run [] bare_layers 5 = Raise ValueError.
Proof.
  split; [exact bare_layers_no_geometry |].
  destruct (nothing_to_merge vertexAt (@length Point) nearestNeighbor
              [] bare_layers 5 bare_layers_no_geometry)
    as [Hrun | (e & Hc & _)]; [exact Hrun | discriminate Hc].
Defined.

Lemma chain_merged :
  ∃ out, merge_summits nearestNeighbor chain_summits 5 = Ok out.
Proof. eexists. vm_compute. reflexivity. Defined.

(** The chain is one group and gives one feature. *)
Lemma one_feature_per_group_chain :
  ∃ out, merge_summits nearestNeighbor chain_summits 5 = Ok out
    ∧ length out = size (groups (dmatch (match_all nearestNeighbor
                                           chain_summits 5))).
Proof.
  destruct chain_merged as (out & Hout). exists out. split; [exact Hout |].
  by destruct (one_feature_per_group nearestNeighbor chain_summits 5 out Hout)
    as [Hlen _].
Defined.

(** The group of the chain. *)
Lemma groups_disjoint_chain :
  [0; 1; 2] ∈ groups (dmatch (match_all nearestNeighbor
                                (ingest vertexAt (@length Point) []
                                   chain_list []) 5))
  ∧ ∀ g', g' ∈ groups (dmatch (match_all nearestNeighbor
                                 (ingest vertexAt (@length Point) []
                                    chain_list []) 5)) →
          1 ∈ g' → g' = [0; 1; 2].
Proof.
  split; [exact chain_group |].
  destruct (groups_disjoint nearestNeighbor _ 5 [0; 1; 2] chain_group)
    as (_ & _ & _ & Hsame).
  intros g' Hg' H1. apply (Hsame g' 1); [exact Hg' | | exact H1].
  apply list_elem_of_further, list_elem_of_here.
Defined.

End MergeLayerRuns.

(** ** topo_match_m.py: the run as a whole *)

Module KeyMatchFacts.
Import Topo25 TopoMatchM.

Lemma truthy_Some (v : option string) :
  Str.truthy v = true ↔ ∃ s, v = Some s ∧ s ≠ "".
Proof.
  destruct v as [[|a s]|]; simpl; split; try done.
  - by intros (s & [= <-] & ?).
  - intros _. by eexists.
  - by intros (s & ? & _).
Qed.

Lemma mapR_raise {A B} (f : A → result B) (l : list A) (E : exn) x :
  (∀ y e, f y = Raise e → e = E) → x ∈ l → f x = Raise E →
  mapR f l = Raise E.
Proof.
  intros Hall Hx Hfx. induction l as [|y l IH]; [by apply elem_of_nil in Hx |].
  simpl. destruct (f y) as [b|e] eqn:Hy; simpl.
  - apply elem_of_cons in Hx as [-> | Hx]; [congruence |].
    by rewrite IH.
  - by rewrite (Hall y e Hy).
Qed.

Lemma mapR_raise_inv {A B} (f : A → result B) (l : list A) e :
  mapR f l = Raise e → ∃ x, x ∈ l ∧ f x = Raise e.
Proof.
  induction l as [|y l IH]; simpl; [done |].
  destruct (f y) as [b|e'] eqn:Hy; simpl.
  - destruct (mapR f l) as [bs|e'']; simpl; [done |].
    intros [= ->]. destruct IH as (x & Hx & Hfx); [done |].
    exists x. split; [by right | done].
  - intros [= ->]. exists y. split; [left | done].
Qed.

Section facts.
Context {Point : Type}.
Variable empty_point : Point.

Local Abbreviation reconcile_ := (reconcile empty_point).
Local Abbreviation collect_ := (collect empty_point).
Local Abbreviation topo25match_ := (topo25match empty_point).

Implicit Types (f g : feature Point) (rf : ref_feature Point).
Implicit Types (refs : gmap string (ref_feature Point)).

Local Arguments Str.join : simpl never.

(** What an iteration leaves alone and what it can raise. *)
Lemma merge_reference_Ok rf f a :
  action rf = Some a →
  ∃ f', merge_reference empty_point rf f = Ok f' ∧ ID f' = ID f
        ∧ fid f' = fid f.
Proof.
  intros Ha. unfold merge_reference, get_action. rewrite Ha. simpl.
  unfold copy_reference, fill_Name, fill_Elevation, fill_Col_elevation.
  repeat (first [step_if | parse_int | progress simpl]).
  all: eexists; split; [reflexivity |].
  all: by autorewrite with topo_fields.
Qed.

Lemma merge_reference_NULL rf f :
  action rf = None → merge_reference empty_point rf f = Raise TypeError.
Proof. intros Ha. unfold merge_reference, get_action. by rewrite Ha. Qed.

Lemma reconcile_cases refs f :
  (∃ g, reconcile_ refs f = Ok (update_Prominence g) ∧ ID g = ID f
        ∧ fid g = fid f
        ∧ (refs !! ID f = None → g = f))
  ∨ (reconcile_ refs f = Raise TypeError
     ∧ ∃ rf, refs !! ID f = Some rf ∧ action rf = None).
Proof.
  unfold reconcile. destruct (refs !! ID f) as [rf|] eqn:Hrf.
  - destruct (action rf) as [a|] eqn:Ha.
    + destruct (merge_reference_Ok rf f a Ha) as (f' & -> & HID & Hfid).
      left. exists f'. by split_and!.
    + right. rewrite merge_reference_NULL by done. eauto.
  - left. exists f. by split_and!.
Qed.

Lemma update_Prominence_consistent g :
  truthyZ (Elevation (update_Prominence g)) = true →
  truthyZ (Col_elevation (update_Prominence g)) = true →
  ∃ e c, Elevation (update_Prominence g) = Some e
    ∧ Col_elevation (update_Prominence g) = Some c
    ∧ Prominence (update_Prominence g) = Some (e - c)%Z.
Proof.
  autorewrite with topo_fields. intros He Hc.
  unfold update_Prominence. rewrite He, Hc. simpl.
  destruct (Elevation g) as [e|], (Col_elevation g) as [c|]; try done.
  by exists e, c.
Qed.

(** The loop, when the host does not cancel, is a comprehension. *)
Lemma collect_take refs source : ∀ fb acc,
  ∃ n, n ≤ length source
    ∧ collect_ fb refs source acc
      = (fs ← mapR (reconcile_ refs) (take n source); Ok (acc ++ fs))
    ∧ (never_canceled fb → n = length source).
Proof.
  induction source as [|f source IH]; intros fb acc; simpl.
  - exists 0. simpl. by rewrite app_nil_r.
  - destruct (isCanceled fb) as [[|] fb1] eqn:Hfb.
    + exists 0. simpl. rewrite app_nil_r. split_and!; [lia | done |].
      intros Hn. destruct (isCanceled_never fb Hn) as (? & ? & _). congruence.
    + destruct (reconcile_ refs f) as [f'|e] eqn:Hf; simpl.
      * destruct (IH fb1 (acc ++ [f'])) as (n & Hn & -> & Hnever).
        exists (S n). simpl. rewrite Hf. simpl. split_and!; [lia | |].
        -- destruct (mapR (reconcile_ refs) (take n source)); simpl; [| done].
           by rewrite <- app_assoc.
        -- intros Hc. f_equal. apply Hnever.
           destruct (isCanceled_never fb Hc) as (? & ? & ?). congruence.
      * exists (S (length source)). simpl. rewrite Hf. simpl.
        split_and!; [lia | done | done].
Qed.

Lemma collect_raise fb refs source acc e :
  collect_ fb refs source acc = Raise e → e = TypeError.
Proof.
  destruct (collect_take refs source fb acc) as (n & _ & -> & _).
  destruct (mapR (reconcile_ refs) (take n source)) as [fs|e'] eqn:Hm;
    simpl; [done |].
  intros [= ->]. apply mapR_raise_inv in Hm as (f & _ & Hf).
  destruct (reconcile_cases refs f) as [(g & Hg & _) | [Hr _]]; congruence.
Qed.

Lemma sort_key_raise f e :
  (k ← sort_key f; Ok (k, f)) = Raise e →
  e = TypeError ∧ Str.truthy (Reference f) = false ∧ Prominence f = None.
Proof.
  unfold sort_key. destruct (Str.truthy (Reference f)); simpl; [done |].
  destruct (Prominence f); simpl; [done |]. by intros [= <-].
Qed.

Lemma emit_Ok (features : list (feature Point)) out :
  emit features = Ok out →
  ∃ sorted, sorted ≡ₚ features
    ∧ out = imap (λ i f, set_fid (Some i) f) sorted.
Proof.
  unfold emit, sort_features.
  destruct (mapR _ features) as [keyed|] eqn:Hk; simpl; [| done].
  intros [= <-]. apply keyed_features in Hk as [Hsnd _].
  eexists. split; [| reflexivity]. by rewrite sorted_by_perm, Hsnd.
Qed.

Lemma emit_raise (features : list (feature Point)) e :
  emit features = Raise e →
  e = TypeError
  ∧ ∃ f, f ∈ features ∧ Str.truthy (Reference f) = false
         ∧ Prominence f = None.
Proof.
  unfold emit, sort_features.
  destruct (mapR _ features) as [keyed|e'] eqn:Hk; simpl; [done |].
  intros [= ->]. apply mapR_raise_inv in Hk as (f & Hf & Hr).
  apply sort_key_raise in Hr as (-> & ? & ?). eauto.
Qed.

Lemma emit_unranked (features : list (feature Point)) f :
  f ∈ features → Str.truthy (Reference f) = false → Prominence f = None →
  emit features = Raise TypeError.
Proof.
  intros Hf Hr Hp. unfold emit, sort_features.
  rewrite (mapR_raise _ features TypeError f); [done | | done |].
  - intros y e Hy. by apply sort_key_raise in Hy as [-> _].
  - unfold sort_key. by rewrite Hr, Hp.
Qed.

(** *** Properties of the run by key *)

(** X9.  The dictionary of the reference entries: under a key [k] that is
    not empty it holds the last entry of the reference layer whose [Match]
    is [k] (a later entry replaces an earlier one with the same [Match]);
    entries whose [Match] is NULL or empty are under no key, and no entry
    is under the empty key. *)
Theorem refs_dict_last (reference : list (ref_feature Point)) (k : string) :
  refs_dict reference !! k
  = last (filter (λ r, Match r = Some k ∧ k ≠ "") reference).
Proof.
  unfold refs_dict.
  induction reference as [|r reference IH] using rev_ind; [done |].
  rewrite foldl_app, filter_app. simpl.
  destruct (Str.truthy (Match r)) eqn:Ht.
  - apply truthy_Some in Ht as (s & Hs & Hne). rewrite Hs. simpl.
    destruct (decide (s = k)) as [-> | Hsk].
    + rewrite lookup_insert_eq, filter_cons, decide_True, filter_nil by done.
      by rewrite last_snoc.
    + rewrite lookup_insert_ne by done.
      rewrite filter_cons, decide_False, filter_nil, app_nil_r; [done |].
      intros [? _]. congruence.
  - rewrite filter_cons, decide_False, filter_nil, app_nil_r; [done |].
    intros [Hm Hne]. assert (Str.truthy (Match r) = true); [| congruence].
    apply truthy_Some. eauto.
Qed.

(** X10.  The run by key neither loses nor invents records: what goes to
    the sink are the source records that were gone through, each once and
    under its own [ID], all of them when the host does not cancel and the
    first of them otherwise. *)
Theorem records_kept (fb : feedback) (source : list (feature Point))
    (reference : list (ref_feature Point)) out :
  topo25match_ fb source reference = Ok out →
  ∃ n, n ≤ length source
    ∧ (never_canceled fb → n = length source)
    ∧ length out = n
    ∧ ID <$> out ≡ₚ ID <$> take n source.
Proof.
  unfold topo25match.
  destruct (collect_take (refs_dict reference) source fb [])
    as (n & Hn & -> & Hnever).
  destruct (mapR _ (take n source)) as [fs|] eqn:Hfs; simpl; [| done].
  intros (sorted & Hperm & ->)%emit_Ok.
  apply mapR_Ok in Hfs.
  assert (ID <$> fs = ID <$> take n source) as HID.
  { clear Hperm. induction Hfs as [|f f' l l' Hf _ IH]; [done |].
    rewrite !fmap_cons, IH. f_equal.
    destruct (reconcile_cases (refs_dict reference) f)
      as [(g & Hg & <- & _) | [Hr _]]; [| congruence].
    rewrite Hg in Hf. injection Hf as <-.
    by autorewrite with topo_fields. }
  exists n. split_and!; [done | done | |].
  - rewrite length_imap, Hperm.
    apply Forall2_length in Hfs. rewrite <- Hfs, length_take. lia.
  - rewrite fmap_imap_same by done. by rewrite Hperm, HID.
Qed.

(** X11.  In what the run by key hands to the sink the prominence agrees
    with the elevations: a record whose [Elevation] and [Col elevation]
    are both set (not NULL, not 0) has [Prominence] equal to their
    difference, whether or not a reference entry was found for it. *)
Theorem prominence_consistent (fb : feedback) (source : list (feature Point))
    (reference : list (ref_feature Point)) out f :
  topo25match_ fb source reference = Ok out → f ∈ out →
  truthyZ (Elevation f) = true → truthyZ (Col_elevation f) = true →
  ∃ e c, Elevation f = Some e ∧ Col_elevation f = Some c
    ∧ Prominence f = Some (e - c)%Z.
Proof.
  unfold topo25match.
  destruct (collect_take (refs_dict reference) source fb [])
    as (n & _ & -> & _).
  destruct (mapR _ (take n source)) as [fs|] eqn:Hfs; simpl; [| done].
  intros (sorted & Hperm & ->)%emit_Ok.
  intros (i & g & -> & Hg)%elem_of_lookup_imap. simpl.
  apply list_elem_of_lookup_2 in Hg. rewrite Hperm in Hg.
  apply mapR_Ok in Hfs.
  apply list_elem_of_lookup in Hg as (j & Hj).
  destruct (Forall2_lookup_r _ _ _ _ _ Hfs Hj) as (f0 & _ & Hf0).
  destruct (reconcile_cases (refs_dict reference) f0)
    as [(g0 & Hg0 & _) | [Hr _]]; [| congruence].
  rewrite Hg0 in Hf0. injection Hf0 as <-.
  apply update_Prominence_consistent.
Qed.

Lemma topo25match_raise fb source reference e :
  topo25match_ fb source reference = Raise e → e = TypeError.
Proof.
  unfold topo25match.
  destruct (collect_ fb _ source []) as [fs|e'] eqn:Hc; simpl.
  - by intros [-> _]%emit_raise.
  - intros [= <-]. by eapply collect_raise.
Qed.

(** X12.  A reference entry whose [action] is NULL stops the run by key
    when its [Match] names a source record: the test on the action raises
    [TypeError], and nothing goes to the sink. *)
Theorem null_action_aborts (fb : feedback) (source : list (feature Point))
    (reference : list (ref_feature Point)) f rf :
  never_canceled fb → f ∈ source →
  refs_dict reference !! ID f = Some rf → action rf = None →
  topo25match_ fb source reference = Raise TypeError.
Proof.
  intros Hfb Hf Hrf Ha.
  destruct (topo25match_ fb source reference) as [out|e] eqn:Hrun;
    [| by rewrite (topo25match_raise _ _ _ _ Hrun)].
  exfalso. unfold topo25match in Hrun.
  destruct (collect_take (refs_dict reference) source fb [])
    as (n & _ & Hc & Hnever).
  rewrite Hc, (Hnever Hfb), firstn_all in Hrun.
  rewrite (mapR_raise _ source TypeError f) in Hrun; [done | | done |].
  - intros y e Hy.
    destruct (reconcile_cases (refs_dict reference) y)
      as [(g & Hg & _) | [Hr _]]; congruence.
  - unfold reconcile. rewrite Hrf. by rewrite merge_reference_NULL.
Qed.

(** X13.  [TypeError] is the only exception that leaves the run by key:
    the check values are parsed only when they are made of decimal digits,
    and the dictionary is read only under keys it holds. *)
Theorem raises_TypeError_only (fb : feedback) (source : list (feature Point))
    (reference : list (ref_feature Point)) e :
  topo25match_ fb source reference = Raise e → e = TypeError.
Proof. apply topo25match_raise. Qed.

(** X14.  A source record that cannot be ranked stops the run by key: when
    a record has no reference entry, no [Reference], no [Prominence] and
    is lacking an elevation (so that no prominence is computed for it),
    the sort raises [TypeError] and nothing goes to the sink. *)
Theorem unranked_aborts (fb : feedback) (source : list (feature Point))
    (reference : list (ref_feature Point)) f :
  never_canceled fb → f ∈ source →
  refs_dict reference !! ID f = None →
  Str.truthy (Reference f) = false → Prominence f = None →
  truthyZ (Elevation f) && truthyZ (Col_elevation f) = false →
  topo25match_ fb source reference = Raise TypeError.
Proof.
  intros Hfb Hf Hrf Href Hp He. unfold topo25match.
  destruct (collect_ fb _ source []) as [fs|e] eqn:Hc; simpl.
  2: { by rewrite (collect_raise _ _ _ _ _ Hc). }
  destruct (collect_take (refs_dict reference) source fb [])
    as (n & _ & Hc' & Hnever).
  rewrite Hc', (Hnever Hfb), firstn_all in Hc.
  destruct (mapR _ source) as [fs'|] eqn:Hfs; simpl in Hc; [| done].
  injection Hc as <-. apply mapR_Ok in Hfs.
  apply list_elem_of_lookup in Hf as (i & Hi).
  destruct (Forall2_lookup_l _ _ _ _ _ Hfs Hi) as (f' & Hf' & Hrec).
  apply (emit_unranked _ f'); [by eapply list_elem_of_lookup_2 | |].
  all: unfold reconcile in Hrec; rewrite Hrf in Hrec; simpl in Hrec;
    injection Hrec as <-; unfold update_Prominence; by rewrite He.
Qed.

End facts.
End KeyMatchFacts.

(** ** topo_match.py: the run as a whole *)

Module PositionMatchFacts.
Import Topo25 TopoMatch.

Section facts.
Context {Point : Type}.
Variable empty_point : Point.
Variable nearestNeighbor : list (nat * Point) → Point → nat → Q → list nat.

Local Abbreviation step_ := (step empty_point nearestNeighbor).
Local Abbreviation loop_ := (loop empty_point nearestNeighbor).
Local Abbreviation topo25match_ := (topo25match empty_point nearestNeighbor).
Local Abbreviation no_summit_ := (no_summit empty_point nearestNeighbor).
Local Abbreviation summit_only_ := (summit_only empty_point nearestNeighbor).
Local Abbreviation both_ends_ := (both_ends empty_point nearestNeighbor).

Implicit Types (f g : feature Point) (rf : ref_feature Point).
Implicit Types (refs : list (ref_feature Point)) (st : @state Point).

Local Arguments Str.join : simpl never.

Lemma merge_reference_inv refs i f st f' st' :
  merge_reference empty_point refs i f st = Ok (f', st') →
  ID f' = ID f ∧ sink st' = sink st ∧ candidate st' = candidate st
  ∧ is_Some (notes st')
  ∧ ∃ rf a, refs !! i = Some rf ∧ action rf = Some a
      ∧ matched st'
        = if Str.contains "switch" a then matched st else {[i]} ∪ matched st.
Proof.
  unfold merge_reference, getindex.
  destruct (refs !! i) as [rf|]; simpl; [| done].
  unfold get_action. destruct (action rf) as [a|] eqn:Ha; simpl; [| done].
  unfold copy_reference, fill_Name, fill_Elevation, fill_Col_elevation,
    append_note.
  repeat (first [step_if | parse_int | progress simpl]).
  all: intros [= <- <-]; simpl.
  all: split_and!; [done | done | done | by eexists |].
  all: eexists _, _; split_and!; [reflexivity | eassumption |].
  all: match goal with
       | H : Str.contains "switch" _ = _ |- _ => by rewrite H
       end.
Qed.

(** What one iteration does to the sink, to [matched] and to
    [candidate]. *)
Lemma step_inv refs st f st' :
  step_ refs st f = Ok st' →
  ∃ f', sink st' = sink st ++ [f'] ∧ ID f' = ID f
    ∧ ((no_summit_ refs f ∧ f' = f ∧ matched st' = matched st
        ∧ candidate st' = candidate st)
       ∨ (∃ i, summit_only_ refs f i ∧ matched st' = matched st
               ∧ candidate st' = <[i := ID f]> (candidate st))
       ∨ (∃ i rf a, both_ends_ refs f i ∧ refs !! i = Some rf
            ∧ action rf = Some a ∧ candidate st' = candidate st
            ∧ matched st'
              = if Str.contains "switch" a then matched st
                else {[i]} ∪ matched st)).
Proof.
  unfold step.
  destruct (nearestNeighbor (summits empty_point refs) _ 1 _)
    as [|i rest] eqn:Hs.
  { intros [= <-]. exists f. split_and!; [done | done |]. left. done. }
  destruct (bool_decide (i ∈ _)) eqn:Hc.
  - apply bool_decide_eq_true_1 in Hc.
    destruct (merge_reference empty_point refs i f st) as [[f1 st1]|] eqn:Hm;
      simpl; [| done].
    apply merge_reference_inv
      in Hm as (HID & Hsink & Hcand & [l Hl] & rf & a & Hrf & Ha & Hmat).
    unfold write_Notes. rewrite Hl. simpl. intros [= <-]. simpl.
    eexists. split_and!; [by rewrite Hsink | by autorewrite with topo_fields |].
    right; right. exists i, rf, a. split_and!; try done.
    split; [by exists rest | done].
  - apply bool_decide_eq_false_1 in Hc. simpl.
    unfold write_Notes. simpl.
    destruct (notes st) as [l|]; simpl; [| done].
    intros [= <-]. simpl.
    eexists. split_and!; [done | by autorewrite with topo_fields |].
    right; left. exists i. split_and!; try done.
    split; [by exists rest | done].
Qed.

Lemma loop_inv refs source : ∀ fb st st',
  loop_ fb refs st source = Ok st' →
  ∃ n fs, n ≤ length source
    ∧ (never_canceled fb → n = length source)
    ∧ sink st' = sink st ++ fs
    ∧ ID <$> fs = ID <$> take n source
    ∧ (∀ k f, take n source !! k = Some f → no_summit_ refs f →
         fs !! k = Some f)
    ∧ (∀ i, i ∈ matched st' →
         i ∈ matched st
         ∨ ∃ f rf a, f ∈ source ∧ both_ends_ refs f i ∧ refs !! i = Some rf
             ∧ action rf = Some a ∧ Str.contains "switch" a = false)
    ∧ (∀ i id, candidate st' !! i = Some id →
         candidate st !! i = Some id
         ∨ ∃ f, f ∈ source ∧ ID f = id ∧ summit_only_ refs f i).
Proof.
  induction source as [|f source IH]; intros fb st st'; simpl.
  - intros [= <-]. exists 0, []. rewrite app_nil_r.
    split_and!; try done; auto.
  - destruct (isCanceled fb) as [[|] fb1] eqn:Hfb.
    + intros [= <-]. exists 0, []. rewrite app_nil_r.
      split_and!; try done; auto; [lia |].
      intros Hn. destruct (isCanceled_never fb Hn) as (? & ? & _). congruence.
    + destruct (step_ refs st f) as [st1|] eqn:Hstep; simpl; [| done].
      intros Hloop.
      destruct (IH _ _ _ Hloop)
        as (n & fs & Hn & Hnever & Hsink & HID & Hsame & Hmat & Hcand).
      apply step_inv in Hstep as (f' & Hsink1 & HID1 & Hcases).
      exists (S n), (f' :: fs). rewrite firstn_cons. split_and!.
      * simpl. lia.
      * intros Hc. simpl. f_equal. apply Hnever.
        destruct (isCanceled_never fb Hc) as (? & ? & ?). congruence.
      * by rewrite Hsink, Hsink1, <- app_assoc.
      * by rewrite !fmap_cons, HID, HID1.
      * intros [|k] g Hk Hg; simpl in *.
        -- injection Hk as ->.
           destruct Hcases as [(_ & -> & _) | [(i & [[r Hi] _] & _)
             | (i & rf & a & [[r Hi] _] & _)]]; [done | |];
             unfold no_summit in Hg; congruence.
        -- by apply Hsame.
      * intros i [Hi | (g & rf & a & Hg & ?)]%Hmat.
        -- destruct Hcases as [(_ & _ & Hm & _) | [(j & _ & Hm & _)
             | (j & rf & a & Hb & Hrf & Ha & _ & Hm)]].
           ++ left. by rewrite <- Hm.
           ++ left. by rewrite <- Hm.
           ++ rewrite Hm in Hi.
              destruct (Str.contains "switch" a) eqn:Hsw; [by left |].
              apply elem_of_union in Hi as [->%elem_of_singleton | Hi];
                [| by left].
              right. exists f, rf, a. split_and!; try done. left.
        -- right. exists g, rf, a. split; [by right | done].
      * intros i id [Hi | (g & Hg & ?)]%Hcand.
        -- destruct Hcases as [(_ & _ & _ & Hm) | [(j & Hso & _ & Hm)
             | (j & rf & a & _ & _ & _ & Hm & _)]].
           ++ left. by rewrite <- Hm.
           ++ rewrite Hm in Hi.
              destruct (decide (j = i)) as [-> | Hne].
              ** rewrite lookup_insert_eq in Hi. injection Hi as <-.
                 right. exists f. split_and!; [left | done | done].
              ** rewrite lookup_insert_ne in Hi by done. by left.
           ++ left. by rewrite <- Hm.
        -- right. exists g. split; [by right | done].
Qed.

Lemma elem_of_remaining refs st r c :
  (r, c) ∈ remaining refs st
  ↔ ∃ i, refs !! i = Some r ∧ (i ∉ matched st) ∧ c = candidate st !! i.
Proof.
  unfold remaining. rewrite list_elem_of_omap. split.
  - intros ([i r'] & (j & r0 & [= -> ->] & Hj)%elem_of_lookup_imap & Hsome).
    simpl in Hsome. destruct (bool_decide (j ∈ matched st)) eqn:Hm; [done |].
    injection Hsome as -> <-. exists j. split_and!; [done | | done].
    by apply bool_decide_eq_false_1 in Hm.
  - intros (i & Hi & Hm & ->). exists (i, r). split.
    + apply elem_of_lookup_imap. eauto.
    + simpl. by rewrite bool_decide_eq_false_2.
Qed.

(** *** Properties of the run by position *)

(** X15.  The run by position hands the source records to the sink one by
    one in their order and under their own [ID]: all of them when the host
    does not cancel, the first of them otherwise; and a record with no
    reference summit within the tolerance goes to the sink exactly as it
    came, its [Prominence] not recomputed. *)
Theorem position_records_kept (fb : feedback) (source : list (feature Point))
    (reference : list (ref_feature Point)) out rem :
  topo25match_ fb source reference = Ok (out, rem) →
  ∃ n, n ≤ length source
    ∧ (never_canceled fb → n = length source)
    ∧ ID <$> out = ID <$> take n source
    ∧ ∀ k f, k < n → source !! k = Some f →
        no_summit_ (ref_list reference) f → out !! k = Some f.
Proof.
  unfold topo25match.
  destruct (loop_ fb (ref_list reference) init source) as [st|] eqn:Hloop;
    simpl; [| done].
  intros [= <- <-].
  apply loop_inv in Hloop as (n & fs & Hn & Hnever & Hsink & HID & Hsame & _).
  simpl in Hsink. subst fs.
  exists n. split_and!; [done | done | done |].
  intros k f Hk Hf. apply Hsame. by rewrite lookup_take_lt.
Qed.

(** X16.  What is left of the reference layer.  An entry of the remainder
    is a reference feature that has a geometry and is not marked "delete";
    a reference feature that was indexed is missing from the remainder
    only when some source record had it as its nearest reference at both
    ends and its action does not hold "switch"; and the [Match] value of a
    remaining entry, when there is one, is the [ID] of a source record
    that had this entry as its nearest reference summit but not as its
    nearest reference col. *)
Theorem remainder_entries (fb : feedback) (source : list (feature Point))
    (reference : list (ref_feature Point)) out rem :
  topo25match_ fb source reference = Ok (out, rem) →
  let refs := ref_list reference in
  (∀ r c, (r, c) ∈ rem →
     r ∈ reference ∧ hasGeometry r = true ∧ action r ≠ Some "delete")
  ∧ (∀ i r, refs !! i = Some r → (∀ c, (r, c) ∉ rem) →
       ∃ f a, f ∈ source ∧ both_ends_ refs f i ∧ action r = Some a
              ∧ Str.contains "switch" a = false)
  ∧ (∀ r id, (r, Some id) ∈ rem →
       ∃ i f, refs !! i = Some r ∧ f ∈ source ∧ ID f = id
              ∧ summit_only_ refs f i).
Proof.
  unfold topo25match.
  destruct (loop_ fb (ref_list reference) init source) as [st|] eqn:Hloop;
    simpl; [| done].
  intros [= <- <-].
  apply loop_inv in Hloop as (n & fs & _ & _ & _ & _ & _ & Hmat & Hcand).
  split_and!.
  - intros r c (i & Hi & _)%elem_of_remaining.
    apply list_elem_of_lookup_2 in Hi. unfold ref_list in Hi.
    apply list_elem_of_filter in Hi as [Hind Hin]. unfold indexed in Hind.
    apply andb_true_iff in Hind as [Hg Hd]. split_and!; [done | done |].
    apply negb_true_iff in Hd. by apply bool_decide_eq_false_1 in Hd.
  - intros i r Hi Hrem.
    destruct (decide (i ∈ matched st)) as [Hm | Hm].
    + destruct (Hmat i Hm) as [Hin | (f & rf & a & Hf & Hb & Hrf & Ha & Hsw)].
      * by apply elem_of_empty in Hin.
      * exists f, a. assert (rf = r) as -> by congruence. done.
    + destruct (Hrem (candidate st !! i)). apply elem_of_remaining. eauto.
  - intros r id (i & Hi & _ & Hc)%elem_of_remaining.
    destruct (Hcand i id (eq_sym Hc)) as [He | (f & Hf & HID & Hso)].
    + simpl in He. by rewrite lookup_empty in He.
    + by exists i, f.
Qed.

End facts.
End PositionMatchFacts.

(** ** The two matchers side by side: the vertices *)

Module VertexMoves.
Import Topo25.

(** [g.moveVertex(p, i)] under the test [test]. *)
Definition move_if {Point} (test : bool) (p : Point) (i : nat)
    (g : list Point) : list Point :=
  if test then moveVertex p i g else g.

(** X17.  A matched record has its summit vertex moved onto the first
    vertex of the reference, and its col vertex onto the second vertex of
    the reference, when the elevation at that end was not set and the
    reference has a check value for it; by key for any check value, by
    position only for a check value made of decimal digits.  No vertex is
    added or removed, and no other vertex moves. *)
Theorem vertex_moves {Point : Type} (empty_point : Point)
    (nearestNeighbor : list (nat * Point) → Point → nat → Q → list nat) :
  (∀ (refs : gmap string (ref_feature Point)) f rf a,
     refs !! ID f = Some rf → action rf = Some a →
     ∃ f', TopoMatchM.reconcile empty_point refs f = Ok f'
       ∧ geometry f'
         = move_if (negb (truthyZ (Col_elevation f)) && Str.truthy (check_col rf))
             (vertexAt empty_point (r_geometry rf) 1) 1
             (move_if (negb (truthyZ (Elevation f))
                     && Str.truthy (check_ele rf))
                (vertexAt empty_point (r_geometry rf) 0) 0 (geometry f))
       ∧ length (geometry f') = length (geometry f))
  ∧ (∀ (refs : list (ref_feature Point)) i rf a f st,
       TopoMatch.both_ends empty_point nearestNeighbor refs f i →
       refs !! i = Some rf → action rf = Some a →
       ∃ f' st',
         TopoMatch.step empty_point nearestNeighbor refs st f = Ok st'
         ∧ TopoMatch.sink st' = TopoMatch.sink st ++ [f']
         ∧ geometry f'
           = move_if (negb (truthyZ (Col_elevation f))
                    && Str.truthy (check_col rf)
                    && Str.isdecimal (default "" (check_col rf)))
               (vertexAt empty_point (r_geometry rf) 1) 1
               (move_if (negb (truthyZ (Elevation f))
                       && Str.truthy (check_ele rf)
                       && Str.isdecimal (default "" (check_ele rf)))
                  (vertexAt empty_point (r_geometry rf) 0) 0 (geometry f))
         ∧ length (geometry f') = length (geometry f)).
Proof.
  split.
  - intros refs f rf a Hr Ha. unfold TopoMatchM.reconcile. rewrite Hr.
    unfold TopoMatchM.merge_reference, get_action. rewrite Ha. simpl.
    unfold TopoMatchM.copy_reference, TopoMatchM.fill_Name,
      TopoMatchM.fill_Elevation, TopoMatchM.fill_Col_elevation.
    repeat (first [step_if | parse_int | progress simpl]).
    all: eexists; split; [reflexivity |].
    all: autorewrite with topo_fields; simpl.
    all: unfold move_if, moveVertex; simpl in *.
    all: repeat match goal with
         | H : truthyZ _ = _ |- _ => rewrite H; clear H
         | H : Str.truthy (check_ele _) = _ |- _ => rewrite H; clear H
         | H : Str.truthy (check_col _) = _ |- _ => rewrite H; clear H
         end; simpl.
    all: by rewrite ?length_insert.
  - intros refs i rf a f st [[rest Hs] Hc] Hrf Ha.
    unfold TopoMatch.step. rewrite Hs, bool_decide_eq_true_2 by done.
    unfold TopoMatch.merge_reference, getindex, get_action.
    rewrite Hrf. simpl. rewrite Ha. simpl.
    unfold TopoMatch.copy_reference, TopoMatch.fill_Name,
      TopoMatch.fill_Elevation, TopoMatch.fill_Col_elevation.
    repeat (first [step_if | parse_int | progress simpl]).
    all: eexists _, _; split; [reflexivity |]; simpl.
    all: split; [reflexivity |].
    all: autorewrite with topo_fields; simpl.
    all: unfold move_if, moveVertex; simpl in *.
    all: repeat match goal with
         | H : truthyZ _ = _ |- _ => rewrite H; clear H
         | H : Str.truthy (check_ele _) = _ |- _ => rewrite H; clear H
         | H : Str.truthy (check_col _) = _ |- _ => rewrite H; clear H
         | H : Str.isdecimal _ = _ |- _ => rewrite H; clear H
         end; simpl.
    all: by rewrite ?length_insert.
Qed.

End VertexMoves.

(** ** Runs of the two matchers: whole layers *)

Module TopoLayerRuns.
Import Topo25 MergeRuns TopoRuns.

Lemma by_key_four_Ok : ∃ out, by_key [] four_summits two_entries = Ok out.
Proof. eexists. vm_compute. reflexivity. Defined.

(** The four records come out, each once. *)
Lemma records_kept_four :
  ∃ out, by_key [] four_summits two_entries = Ok out ∧ length out = 4.
Proof.
  destruct by_key_four_Ok as (out & Hout). exists out. split; [exact Hout |].
  destruct (KeyMatchFacts.records_kept origin [] four_summits two_entries out
              Hout) as (n & _ & Hn & Hlen & _).
  rewrite Hlen. apply Hn. constructor.
Defined.

Definition four_emitted : list (feature Point) :=
  Eval vm_compute in
    match by_key [] four_summits two_entries with
    | Ok l => l
    | Raise _ => []
    end.

Lemma by_key_four_emitted :
  by_key [] four_summits two_entries = Ok four_emitted.
Proof. reflexivity. Defined.

(** The first record of the output, S0004 with elevations 1100 and 1000,
    has the prominence 100. *)
Lemma prominence_consistent_four :
  ∃ f, four_emitted !! 0 = Some f ∧ ID f = "S0004"
    ∧ truthyZ (Elevation f) = true ∧ truthyZ (Col_elevation f) = true
    ∧ ∃ e c, Elevation f = Some e ∧ Col_elevation f = Some c
        ∧ Prominence f = Some (e - c)%Z.
Proof.
  eexists. split; [reflexivity |]. split_and!; [reflexivity ..|].
  eapply (KeyMatchFacts.prominence_consistent origin [] four_summits
            two_entries four_emitted _ by_key_four_emitted);
    [apply list_elem_of_here | reflexivity | reflexivity].
Defined.

(** An entry for S0001 whose action was left NULL. *)
Definition unmarked : ref_feature Point :=
  {| hasGeometry := true; action := None; ref := Some "T25-001";
     name := Some "Varful"; check_ele := None; check_col := None;
     Match := Some "S0001"; r_geometry := [(10, 10)%Z; (10, 90)%Z] |}.

Lemma null_action_aborts_unmarked :
  never_canceled [] ∧ agreed ∈ [agreed]
  ∧ TopoMatchM.refs_dict [unmarked] !! ID agreed = Some unmarked
  ∧ action unmarked = None
  ∧ by_key [] [agreed] [unmarked] = Raise TypeError.
Proof.
  assert (Hr : TopoMatchM.refs_dict [unmarked] !! ID agreed = Some unmarked)
    by (vm_compute; reflexivity).
  split_and!; [constructor | apply list_elem_of_here | exact Hr | reflexivity |].
  apply (KeyMatchFacts.null_action_aborts origin [] [agreed] [unmarked]
           agreed unmarked);
    [constructor | apply list_elem_of_here | exact Hr | reflexivity].
Defined.

(** A record with a col elevation only. *)
Definition half_known : feature Point :=
  summit "S0001" None None (Some 1000%Z) None (10, 10)%Z (10, 90)%Z.

Lemma unranked_aborts_half_known :
  never_canceled [] ∧ half_known ∈ [agreed; half_known]
  ∧ by_key [] [agreed; half_known] [] = Raise TypeError.
Proof.
  assert (Hin : half_known ∈ [agreed; half_known])
    by (apply list_elem_of_further, list_elem_of_here).
  split_and!; [constructor | exact Hin |].
  apply (KeyMatchFacts.unranked_aborts origin [] [agreed; half_known] []
           half_known); [constructor | exact Hin | reflexivity ..].
Defined.

Lemma raises_TypeError_only_half_known :
  ∃ e, by_key [] [half_known] [] = Raise e ∧ e = TypeError.
Proof.
  eexists. split; [vm_compute; reflexivity |].
  apply (KeyMatchFacts.raises_TypeError_only origin [] [half_known] []).
  vm_compute. reflexivity.
Defined.

(** *** By position *)

Lemma by_position_two :
  ∃ out rem, by_position [] [agreed; drifted] [varful; dealul] = Ok (out, rem).
Proof. eexists _, _. vm_compute. reflexivity. Defined.

Lemma position_records_kept_two :
  ∃ out rem,
    by_position [] [agreed; drifted] [varful; dealul] = Ok (out, rem)
    ∧ ID <$> out = ["S0001"; "S0002"].
Proof.
  destruct by_position_two as (out & rem & Hrun).
  exists out, rem. split; [exact Hrun |].
  destruct (PositionMatchFacts.position_records_kept origin nearestNeighbor
              [] [agreed; drifted] [varful; dealul] out rem Hrun)
    as (n & _ & Hn & -> & _).
  rewrite (Hn ltac:(constructor)). reflexivity.
Defined.

(** Of the two reference entries the first was matched; the second is
    left, with the [ID] of the record it was a candidate for. *)
Lemma remainder_entries_two :
  ∃ out rem,
    by_position [] [agreed; drifted] [varful; dealul] = Ok (out, rem)
    ∧ rem = [(dealul, Some "S0002")]
    ∧ ∀ r c, (r, c) ∈ rem → hasGeometry r = true.
Proof.
  eexists _, _. split; [vm_compute; reflexivity |]. split; [reflexivity |].
  intros r c Hrc.
  destruct (PositionMatchFacts.remainder_entries origin nearestNeighbor
              [] [agreed; drifted] [varful; dealul] _ _ eq_refl)
    as (Hrem & _).
  by destruct (Hrem r c Hrc) as (_ & ? & _).
Defined.

End TopoLayerRuns.
